(** * am-segmentation: tile geometry and queue-driven fleet orchestration

    A shallow embedding of
      - [am/ecs/__init__.py]           (object store, queue and fleet calls),
      - [src/am/segment/preprocess.py] (slicing, stitching, metadata),
      - [am_segm/preprocess.py]        (the earlier slicing/stitching module),
    and the properties of these functions that the specification states.

    Python integers are [Z]; sizes and list indices that the code only ever
    uses as counts are [nat]; dictionaries are [gmap string _] where they are
    mutated in place and association lists where they are serialised;
    exceptions are the [Raise] case of [result]. *)

From Stdlib Require Import ZArith Lia.
From stdpp Require Import gmap strings list fin_maps pretty.

Local Open Scope Z_scope.

(** ** Exceptions and results *)

Inductive exn : Type :=
| AssertionError
| KeyError (key : string)
| IndexError
| TypeError
| ValueError
| AttributeError
| ExcTimeout (timeout : Z).   (* Exception(f'Timeout: {timeout}s') *)

Inductive result (A : Type) : Type :=
| Ok (a : A)
| Raise (e : exn).
Arguments Ok {A} a.
Arguments Raise {A} e.

Definition is_ok {A} (r : result A) : bool :=
  match r with Ok _ => true | Raise _ => false end.

#[global] Instance exn_eq_dec : EqDecision exn.
Proof. solve_decision. Defined.

(** * The fleet and the queue: [am/ecs/__init__.py] *)

Module Ecs.

(** Values stored in a task configuration dictionary. *)
Inductive pyval : Type :=
| PInt (z : Z)
| PStr (s : string).

#[global] Instance pyval_eq_dec : EqDecision pyval.
Proof. solve_decision. Defined.

(** One entry of [resp['tasks']]. *)
Record task : Type := { taskArn : string; lastStatus : string }.

(** One entry of [resp['Messages']]. *)
Record message : Type := { Body : string; ReceiptHandle : string }.

(** Calls that leave the process, in the order they were made. *)
Inductive event : Type :=
| EvRunTask (count : Z) (kwargs : gmap string pyval) (tasks : list task)
| EvSleep (secs : Z)
| EvDescribeTasks (cluster : string) (arns : list string) (tasks : list task)
| EvStopCallback (answer : bool)
| EvReceiveMessage (queue_url : string) (max_n : Z) (messages : list message)
| EvUploadFile (local_path bucket s3_path : string) (returned : bool)
| EvSendMessage (queue_url body : string).

(** The services behind the module-level clients [ecs] and [sqs].  [B] is the
    state of the services; every call returns its response and the next
    state. *)
Class Backend (B : Type) : Type := {
  ecs_run_task : B → Z → gmap string pyval → list task * B;
  ecs_describe_tasks : B → string → list string → list task * B;
  sqs_receive_message : B → string → Z → list message * B
}.

(** What a function of this module can observe and change: the services, the
    clock read by [time()] and advanced by [sleep()], the calls made so far,
    and the dictionaries reachable from the caller ([dicts], by reference). *)
Record World (B : Type) : Type := mkWorld {
  backend : B;
  now : Z;
  history : list event;
  dicts : gmap nat (gmap string pyval)
}.
Arguments mkWorld {B} _ _ _ _.
Arguments backend {B} _.
Arguments now {B} _.
Arguments history {B} _.
Arguments dicts {B} _.

(** A Python callable handed in by the caller.  [Nullary f] is a function of
    no arguments whose answer may depend on anything it can observe;
    [OnStatuses p] is a function of one positional argument, the list of task
    statuses. *)
Inductive callable (B : Type) : Type :=
| Nullary (f : World B → bool)
| OnStatuses (p : list string → bool).
Arguments Nullary {B} f.
Arguments OnStatuses {B} p.

Section Fleet.
Context {B : Type} `{Backend B}.

(** Computations: [None] is a loop that ran out of fuel, otherwise a result
    (value or exception) and the world the computation left behind. *)
Definition M (A : Type) : Type := World B → option (result A * World B).

Definition ret {A} (a : A) : M A := λ w, Some (Ok a, w).
Definition raise {A} (e : exn) : M A := λ w, Some (Raise e, w).
Definition bind {A C} (m : M A) (k : A → M C) : M C :=
  λ w, match m w with
       | None => None
       | Some (Raise e, w') => Some (Raise e, w')
       | Some (Ok a, w') => k a w'
       end.

Notation "'let!' x ':=' m 'in' k" := (bind m (λ x, k))
  (at level 10, x name, m at level 100, k at level 200).
Notation "m '>>' k" := (bind m (λ _, k))
  (at level 90, right associativity).

Definition record (e : event) (w : World B) : World B :=
  mkWorld (backend w) (now w) (history w ++ [e]) (dicts w).

(** [time()] *)
Definition time : M Z := λ w, Some (Ok (now w), w).

(** [sleep(secs)]: a negative length is a [ValueError]. *)
Definition sleep (secs : Z) : M unit := λ w,
  if secs <? 0 then Some (Raise ValueError, w)
  else Some (Ok tt, record (EvSleep secs)
                      (mkWorld (backend w) (now w + secs) (history w) (dicts w))).

(** [d.pop(key)] on the dictionary object at reference [d]. *)
Definition dict_pop (d : nat) (key : string) : M pyval := λ w,
  match (dicts w !!! d) !! key with
  | None => Some (Raise (KeyError key), w)
  | Some v =>
      Some (Ok v, mkWorld (backend w) (now w) (history w)
                    (<[d := delete key (dicts w !!! d)]> (dicts w)))
  end.

(** [ecs.run_task(count=count, **task_config)] and
    [[t['taskArn'] for t in resp['tasks']]]. *)
Definition run_task (count : Z) (task_config : nat) : M (list task) := λ w,
  let kwargs := dicts w !!! task_config in
  let '(tasks, b) := ecs_run_task (backend w) count kwargs in
  Some (Ok tasks, record (EvRunTask count kwargs tasks)
                    (mkWorld b (now w) (history w) (dicts w))).

(** [ecs.describe_tasks(cluster=cluster, tasks=arns)] *)
Definition describe_tasks (cluster : string) (arns : list string) : M (list task) := λ w,
  let '(tasks, b) := ecs_describe_tasks (backend w) cluster arns in
  Some (Ok tasks, record (EvDescribeTasks cluster arns tasks)
                    (mkWorld b (now w) (history w) (dicts w))).

(** [stop_callback()]: a call with no arguments. *)
Definition call0 (f : callable B) : M bool := λ w,
  match f with
  | Nullary g => let a := g w in Some (Ok a, record (EvStopCallback a) w)
  | OnStatuses _ => Some (Raise TypeError, w)
  end.

(** [sqs.receive_message(QueueUrl=queue_url, MaxNumberOfMessages=max_n)] and
    [resp.get('Messages', [])]. *)
Definition receive_message (queue_url : string) (max_n : Z) : M (list message) := λ w,
  let '(messages, b) := sqs_receive_message (backend w) queue_url max_n in
  Some (Ok messages, record (EvReceiveMessage queue_url max_n messages)
                       (mkWorld b (now w) (history w) (dicts w))).

(** Lines 48-50: the inner [for message in ...] loop, appending to both
    lists. *)
Definition append_messages (acc : list string * list string)
    (messages : list message) : list string * list string :=
  foldl (λ '(input_paths, receipt_handles) message,
           (input_paths ++ [Body message],
            receipt_handles ++ [ReceiptHandle message]))
        acc messages.

(** Lines 45-50: the [for i in range(n)] loop. *)
Fixpoint consume_rounds (rounds : list nat) (queue_url : string)
    (acc : list string * list string) : M (list string * list string) :=
  match rounds with
  | [] => ret acc
  | i :: rounds' =>
      let! messages := receive_message queue_url 1 in
      consume_rounds rounds' queue_url (append_messages acc messages)
  end.

(** [consume_messages(queue_url, n=8)], returning
    [(input_paths, receipt_handles)]. *)
Definition consume_messages (queue_url : string) (n : Z)
    : M (list string * list string) :=
  consume_rounds (seq 0 (Z.to_nat n)) queue_url ([], []).

(** [assert 0 < task_n <= 20] on the popped value. *)
Definition assert_count (v : pyval) : M Z :=
  match v with
  | PInt n => if (0 <? n) && (n <=? 20) then ret n else raise AssertionError
  | PStr _ => raise TypeError
  end.

Definition ecs_max_task_n : Z := 10.

(** Lines 158-167: the [while task_n > 0] loop. *)
Fixpoint launch_loop (fuel : nat) (task_config : nat) (task_n : Z)
    (task_arns : list string) : M (list string) :=
  match fuel with
  | O => λ _, None
  | S fuel' =>
      if 0 <? task_n then
        let ecs_task_n := Z.min task_n ecs_max_task_n in
        let! tasks := run_task ecs_task_n task_config in
        let task_arns := task_arns ++ map taskArn tasks in
        let task_n := task_n - ecs_task_n in
        (if 0 <? task_n then sleep 5 else ret tt) >>
        launch_loop fuel' task_config task_n task_arns
      else ret task_arns
  end.

(** Lines 154-167. *)
Definition launch_tasks (fuel : nat) (task_config : nat) : M (list string) :=
  let! v := dict_pop task_config "count" in
  let! task_n := assert_count v in
  launch_loop fuel task_config task_n [].

(** Lines 170-180: the [while time() < finish ... else: raise] loop.  The
    statuses read from the response are only logged. *)
Fixpoint wait_loop (fuel : nat) (finish : Z) (task_arns : list string)
    (stop_callback : callable B) (sleep_interval timeout : Z) : M unit :=
  match fuel with
  | O => λ _, None
  | S fuel' =>
      let! t := time in
      if t <? finish then
        sleep sleep_interval >>
        let! tasks := describe_tasks "am-segm" task_arns in
        let task_statuses := map lastStatus tasks in
        let! stop := call0 stop_callback in
        if stop then ret tt
        else wait_loop fuel' finish task_arns stop_callback sleep_interval timeout
      else raise (ExcTimeout timeout)
  end.

(** Lines 169-180. *)
Definition wait_for_stop (fuel : nat) (task_arns : list string)
    (stop_callback : callable B) (sleep_interval timeout : Z) : M unit :=
  let! t := time in
  let finish := t + timeout in
  wait_loop fuel finish task_arns stop_callback sleep_interval timeout.

(** [run_wait_for_inference_task(task_config, stop_callback,
    sleep_interval=10, timeout=300)].  [task_config] is the reference to the
    caller's dictionary. *)
Definition run_wait_for_inference_task (fuel : nat) (task_config : nat)
    (stop_callback : callable B) (sleep_interval timeout : Z) : M unit :=
  let! task_arns := launch_tasks fuel task_config in
  wait_for_stop fuel task_arns stop_callback sleep_interval timeout.

(** One pass through the body of the wait loop when the callback is the
    nullary [f]: the callback's answer and the world after [sleep],
    [describe_tasks] and the callback. *)
Definition poll_once (task_arns : list string) (f : World B → bool)
    (sleep_interval : Z) (w : World B) : bool * World B :=
  let w1 := record (EvSleep sleep_interval)
              (mkWorld (backend w) (now w + sleep_interval) (history w) (dicts w)) in
  let '(tasks, b) := ecs_describe_tasks (backend w1) "am-segm" task_arns in
  let w2 := record (EvDescribeTasks "am-segm" task_arns tasks)
              (mkWorld b (now w1) (history w1) (dicts w1)) in
  (f w2, record (EvStopCallback (f w2)) w2).

(** The world after [k] passes. *)
Fixpoint after_polls (k : nat) (task_arns : list string) (f : World B → bool)
    (sleep_interval : Z) (w : World B) : World B :=
  match k with
  | O => w
  | S k' => after_polls k' task_arns f sleep_interval
              (snd (poll_once task_arns f sleep_interval w))
  end.

(** The statuses the first poll reads. *)
Definition first_statuses (task_arns : list string) (w : World B) : list string :=
  map lastStatus (fst (ecs_describe_tasks (backend w) "am-segm" task_arns)).

(** *** Reading a history *)

(** The [count] of every [run_task] call, in call order. *)
Definition batch_sizes (evs : list event) : list Z :=
  omap (λ e, match e with EvRunTask c _ _ => Some c | _ => None end) evs.

(** The task ids returned by the [run_task] calls, in call order. *)
Definition launched (evs : list event) : list string :=
  flat_map (λ e, match e with EvRunTask _ _ ts => map taskArn ts | _ => [] end) evs.

(** The lengths of the [sleep] calls, in call order. *)
Definition sleeps (evs : list event) : list Z :=
  omap (λ e, match e with EvSleep s => Some s | _ => None end) evs.

(** The number of [describe_tasks] calls. *)
Definition polls (evs : list event) : nat :=
  length (omap (λ e, match e with EvDescribeTasks _ _ ts => Some ts | _ => None end) evs).

(** The responses of the [receive_message] calls, in call order. *)
Definition responses (evs : list event) : list (list message) :=
  omap (λ e, match e with EvReceiveMessage _ _ ms => Some ms | _ => None end) evs.

(** The [MaxNumberOfMessages] of the [receive_message] calls. *)
Definition requested (evs : list event) : list Z :=
  omap (λ e, match e with EvReceiveMessage _ k _ => Some k | _ => None end) evs.

(** [sep_by s l] puts [s] between every two consecutive elements of [l]. *)
Fixpoint sep_by {A} (s : A) (l : list A) : list A :=
  match l with
  | [] => []
  | [x] => [x]
  | x :: l' => x :: s :: sep_by s l'
  end.

Definition is_run_task (e : event) : bool :=
  match e with EvRunTask _ _ _ => true | _ => false end.

End Fleet.

(** *** Uploading through the thread pool *)

(** Python truthiness of [queue_url] ([None] and the empty string are false). *)
Definition truthy (queue_url : option string) : bool :=
  match queue_url with
  | Some url => negb (String.eqb url EmptyString)
  | None => false
  end.

(** The inner function [upload(args)] as run for the [i]-th pair of
    [zip(local_paths, s3_paths)]: the calls it makes, each tagged with [i].
    [returned i] tells whether its [s3.upload_file] call returns normally; if
    it raises, the function ends there. *)
Definition upload (returned : nat → bool) (bucket : string)
    (queue_url : option string) (i : nat) (args : string * string)
    : list (nat * event) :=
  let '(local_path, s3_path) := args in
  (i, EvUploadFile local_path bucket s3_path (returned i)) ::
  (if returned i then
     match queue_url with
     | Some url => if truthy queue_url then [(i, EvSendMessage url s3_path)] else []
     | None => []
     end
   else []).

(** The threads of a pool run side by side: [merge ts tr] says that [tr] is
    one way of taking the calls of the tasks [ts], each task's calls in its
    own order. *)
Inductive merge {A : Type} : list (list A) → list A → Prop :=
| merge_done ts : Forall (λ t, t = []) ts → merge ts []
| merge_step ts i x t tr :
    ts !! i = Some (x :: t) → merge (<[i := t]> ts) tr → merge ts (x :: tr).

(** [with ThreadPoolExecutor() as executor:
       list(executor.map(upload, zip(local_paths, s3_paths)))].
    [tr] is a possible sequence of the calls made.  [started i] tells whether
    the pool ran task [i]; a task is left out only when the result of some
    task that ran was an exception, which cancels the tasks still waiting. *)
Definition upload_images_to_s3 (returned started : nat → bool)
    (local_paths : list string) (bucket : string) (s3_paths : list string)
    (queue_url : option string) (tr : list (nat * event)) : Prop :=
  let pairs := zip local_paths s3_paths in
  (∀ i, (i < length pairs)%nat → started i = false →
        ∃ j, (j < length pairs)%nat ∧ started j = true ∧ returned j = false) ∧
  merge (imap (λ i args, if started i then upload returned bucket queue_url i args
                         else []) pairs) tr.

(** The calls of task [i] in a trace. *)
Definition of_task (i : nat) (tr : list (nat * event)) : list (nat * event) :=
  filter (λ e, e.1 = i) tr.

Definition is_send (e : nat * event) : bool :=
  match e.2 with EvSendMessage _ _ => true | _ => false end.

Definition is_upload_returned (e : nat * event) : bool :=
  match e.2 with EvUploadFile _ _ _ true => true | _ => false end.

(** *** A scripted backend

    A small stand-in for the services: the scheduler starts every task it is
    asked for and names it by a running number, every described task is
    [RUNNING], and the queue hands out its visible messages first-in
    first-out, at most [max_n] per call, hiding what it handed out. *)

Record sim : Type := mkSim { next_task : nat; visible : list message }.

Definition sim_task (status : string) (k : nat) : task :=
  {| taskArn := String.append "task/" (pretty k); lastStatus := status |}.

#[global] Instance sim_backend : Backend sim := {
  ecs_run_task b count _ :=
    (map (sim_task "PENDING") (seq (next_task b) (Z.to_nat count)),
     mkSim (next_task b + Z.to_nat count) (visible b));
  ecs_describe_tasks b _ arns :=
    (map (λ a, {| taskArn := a; lastStatus := "RUNNING" |}) arns, b);
  sqs_receive_message b _ max_n :=
    (take (Z.to_nat max_n) (visible b),
     mkSim (next_task b) (drop (Z.to_nat max_n) (visible b)))
}.

(** A world whose only dictionary, at reference [0], is [task_config]. *)
Definition sim_world (task_config : gmap string pyval) (queue : list message) : World sim :=
  mkWorld (mkSim 0 queue) 1000 [] {[ 0%nat := task_config ]}.

Definition cfg_with_count (n : Z) : gmap string pyval :=
  {[ "count" := PInt n; "cluster" := PStr "am-segm" ]}.

(** What [MaxNumberOfMessages] promises: a response never holds more
    messages than were asked for. *)
Definition honours_max_messages (B : Type) `{Backend B} : Prop :=
  ∀ (b : B) url k, (length (fst (sqs_receive_message b url k)) ≤ Z.to_nat k)%nat.

Definition msg (body handle : string) : message :=
  {| Body := body; ReceiptHandle := handle |}.

Definition three_messages : list message :=
  [msg "g1/source/0000.png" "h-a"; msg "g1/source/0001.png" "h-b";
   msg "g1/source/0002.png" "h-c"].

(** "Evaluates the stop predicate on the polled statuses and returns normally
    the first time it is true", at the first poll: a predicate on statuses
    that holds of the statuses polled first makes the wait return normally. *)
Definition returns_when_statuses_satisfy {B} `{Backend B}
    (p : list string → bool) (task_arns : list string)
    (sleep_interval timeout : Z) (w : World B) : Prop :=
  p (first_statuses task_arns w) = true →
  ∃ fuel w',
    wait_for_stop fuel task_arns (OnStatuses p) sleep_interval timeout w =
      Some (Ok tt, w').

(** "Raised before any side effect occurs": the call raises, made no call to
    the services, and left the caller's dictionary as it was. *)
Definition rejected_without_side_effect {B} `{Backend B}
    (fuel : nat) (task_config : nat) (stop_callback : callable B)
    (sleep_interval timeout : Z) (w : World B) : Prop :=
  ∃ e w',
    run_wait_for_inference_task fuel task_config stop_callback
      sleep_interval timeout w = Some (Raise e, w') ∧
    history w' = history w ∧
    dicts w' !!! task_config = dicts w !!! task_config.

(** Two tiles, both uploads return; the second thread overtakes the first. *)
Definition two_tiles_trace : list (nat * event) :=
  [(0%nat, EvUploadFile "tiles/0000.png" "am-segm" "g1/source/0000.png" true);
   (1%nat, EvUploadFile "tiles/0001.png" "am-segm" "g1/source/0001.png" true);
   (1%nat, EvSendMessage "queue" "g1/source/0001.png");
   (0%nat, EvSendMessage "queue" "g1/source/0000.png")].

End Ecs.

(** * Tiles and metadata: [src/am/segment/preprocess.py], [am_segm/preprocess.py] *)

Module Tiles.
Local Open Scope nat_scope.

(** A two-dimensional [uint8] array, as [read_image] of [am/segment/utils.py]
    returns it: the list of its rows, all of one length. *)
Abbreviation array := (list (list Z)).

Definition array_shape (a : array) : nat * nat :=
  (length a, match a with row :: _ => length row | [] => 0 end).

(** An array of [h] rows of [w] pixels. *)
Definition has_shape (h w : nat) (a : array) : Prop :=
  length a = h ∧ Forall (λ row, length row = w) a.

(** [a[y, x]] *)
Definition px (a : array) (y x : nat) : option Z := a !! y ≫= (.!! x).

(** [np.zeros((rows, cols), dtype=np.uint8)] *)
Definition zeros (rows cols : nat) : array := replicate rows (replicate cols 0%Z).

(** [a[r0:r1, c0:c1]] for in-range bounds *)
Definition slice2 (a : array) (r0 r1 c0 c1 : nat) : array :=
  (λ row, take (c1 - c0) (drop c0 row)) <$> take (r1 - r0) (drop r0 a).

(** The block of [image] at grid position [(i, j)]:
    [image[i*ts:(i+1)*ts, j*ts:(j+1)*ts]]. *)
Definition block (image : array) (i j tile_size : nat) : array :=
  slice2 image (i * tile_size) ((i + 1) * tile_size)
               (j * tile_size) ((j + 1) * tile_size).

(** numpy's rule for one axis when a value is assigned to a slice: the
    lengths agree or the value has length one. *)
Definition broadcastable (from to : nat) : bool := (from =? to) || (from =? 1).

(** [image[r0:r1, c0:c1] = tile].  The slice is clipped to the image; a tile
    that cannot be broadcast to the slice is a [ValueError]. *)
Definition assign_block (image : array) (r0 r1 c0 c1 : nat) (tile : array)
    : result array :=
  let '(H, W) := array_shape image in
  let '(h, w) := array_shape tile in
  if broadcastable h (min r1 H - min r0 H) && broadcastable w (min c1 W - min c0 W)
  then
    Ok (imap (λ y row,
          imap (λ x v,
            if (r0 <=? y) && (y <? r1) && (c0 <=? x) && (x <? c1)
            then default v (px tile (if h =? 1 then 0 else y - r0)
                                    (if w =? 1 then 0 else x - c0))
            else v) row) image)
  else Raise ValueError.

(** A [for] loop whose body may raise. *)
Fixpoint for_each {A S : Type} (xs : list A) (body : A → S → result S) (s : S)
    : result S :=
  match xs with
  | [] => Ok s
  | x :: xs' =>
      match body x s with
      | Ok s' => for_each xs' body s'
      | Raise e => Raise e
      end
  end.

(** [stitch_tiles(tiles, tile_size, tile_row_n, tile_col_n)].  An entry of
    [tiles] is an array or [None].  With two-dimensional tiles [ch_n] is
    [None] and the image has shape [(rows, cols)]. *)
Definition stitch_tiles (tiles : list (option array))
    (tile_size tile_row_n tile_col_n : nat) : result array :=
  let rows := tile_size * tile_row_n in
  let cols := tile_size * tile_col_n in
  match tiles !! 0 with
  | None => Raise IndexError                 (* tiles[0] *)
  | Some None => Raise AttributeError        (* None.ndim *)
  | Some (Some _) =>
      let image := zeros rows cols in
      for_each (seq 0 tile_row_n) (λ i image,
        for_each (seq 0 tile_col_n) (λ j image,
          match tiles !! (i * tile_col_n + j) with
          | None => Raise IndexError
          | Some None => Raise TypeError     (* image[...] = None *)
          | Some (Some tile) =>
              assign_block image (i * tile_size) ((i + 1) * tile_size)
                                 (j * tile_size) ((j + 1) * tile_size) tile
          end) image) image
  end.

(** [CenterCrop(height, width).apply(image)] *)
Definition center_crop (crop_height crop_width : nat) (image : array)
    : result array :=
  let '(height, width) := array_shape image in
  if (height <? crop_height) || (width <? crop_width) then Raise ValueError
  else
    let y1 := (height - crop_height) / 2 in
    let x1 := (width - crop_width) / 2 in
    Ok (slice2 image y1 (y1 + crop_height) x1 (x1 + crop_width)).

(** The part of [meta.json] that stitching reads. *)
Record image_size : Type := { h : nat; w : nat }.
Record tile_grid : Type := { rows : nat; cols : nat; size : nat }.
Record group_meta : Type := { image : image_size; tile : tile_grid }.

(** A [*.png] file of the tile directory: the number its stem spells and the
    image in it. *)
Record tile_file : Type := { stem : nat; pixels : array }.

(** What [logger.warning] receives. *)
Inductive log_record : Type :=
| TileCountMismatch (tile_n : nat) (meta : group_meta).

Section Stitching.

(** [cv2.resize(tile, (w, h), interpolation=cv2.INTER_NEAREST)] *)
Variable cv2_resize : array → nat → nat → array.

(** Lines 91-95: [tiles = [None] * len(tile_paths)] and the loop filling it
    by stem. *)
Definition load_tiles (tile_paths : list tile_file) (tile_size : nat)
    : result (list (option array)) :=
  for_each tile_paths (λ path tiles,
    let i := stem path in
    if i <? length tiles
    then Ok (<[i := Some (cv2_resize (pixels path) tile_size tile_size)]> tiles)
    else Raise IndexError)
    (replicate (length tile_paths) None).

(** [stitch_and_crop_tiles(tiles_path, tile_size, meta)] of
    [src/am/segment/preprocess.py]; [tile_paths] is
    [sorted(tiles_path.glob('*.png'))].  Returns what was logged and the
    result. *)
Definition stitch_and_crop_tiles (tile_paths : list tile_file)
    (tile_size : nat) (meta : group_meta) : list log_record * result array :=
  let log :=
    if negb (length tile_paths =? rows (tile meta) * cols (tile meta))
    then [TileCountMismatch (length tile_paths) meta] else [] in
  (log,
   match load_tiles tile_paths tile_size with
   | Raise e => Raise e
   | Ok tiles =>
       match stitch_tiles tiles tile_size (rows (tile meta)) (cols (tile meta)) with
       | Raise e => Raise e
       | Ok stitched_image =>
           center_crop (h (image meta)) (w (image meta)) stitched_image
       end
   end).

End Stitching.

(** [stitch_and_crop_tiles(tiles_path, tile_size, meta)] of
    [am_segm/preprocess.py]: the tiles are not resized, the mismatch is
    printed, and [stitch_tiles] is the one of [am_segm.image_utils], which the
    module imports. *)
Definition am_segm_stitch_and_crop_tiles
    (stitch_tiles : list (option array) → nat → nat → nat → result array)
    (tile_paths : list tile_file) (tile_size : nat) (meta : group_meta)
    : list log_record * result array :=
  let printed :=
    if negb (length tile_paths =? rows (tile meta) * cols (tile meta))
    then [TileCountMismatch (length tile_paths) meta] else [] in
  (printed,
   match load_tiles (λ tile _ _, tile) tile_paths tile_size with
   | Raise e => Raise e
   | Ok tiles =>
       match stitch_tiles tiles tile_size (rows (tile meta)) (cols (tile meta)) with
       | Raise e => Raise e
       | Ok stitched_image =>
           center_crop (h (image meta)) (w (image meta)) stitched_image
       end
   end).

(** The tile for grid position [(i, j)], if it is an array, is what [image]
    shows in the block at [(i, j)]. *)
Definition placed (tiles : list (option array)) (tile_size tile_col_n : nat)
    (image : array) (i j : nat) : Prop :=
  ∀ t y x, tiles !! (i * tile_col_n + j) = Some (Some t) →
           y < tile_size → x < tile_size →
           px image (i * tile_size + y) (j * tile_size + x) = px t y x.

(** *** Slicing and the metadata record *)

(** A value that [json.dump] writes: an integer or an object; the members of
    an object are in insertion order. *)
#[local] Set Warnings "-register-all".
Inductive json : Type :=
| JInt (n : Z)
| JObj (members : list (string * json)).

(** [d[key]] on the members of a dictionary *)
Fixpoint dict_get (members : list (string * json)) (key : string) : option json :=
  match members with
  | [] => None
  | (k, v) :: rest => if String.eqb k key then Some v else dict_get rest key
  end.

(** [d[key] = value]: replaces the value of an existing key, appends a new
    one. *)
Fixpoint dict_set (members : list (string * json)) (key : string) (value : json)
    : list (string * json) :=
  match members with
  | [] => [(key, value)]
  | (k, v) :: rest =>
      if String.eqb k key then (k, value) :: rest
      else (k, v) :: dict_set rest key value
  end.

(** [max(image.shape)]; [max()] of an empty sequence is a [ValueError]. *)
Definition max_of (shape : list Z) : result Z :=
  match shape with
  | [] => Raise ValueError
  | d :: ds => Ok (foldl Z.max d ds)
  end.

(** What the slicing functions leave in the file system.  [SaveTile width i
    tile] is the tile saved under the name [i] written with [width] digits. *)
Inductive fs_write (img : Type) : Type :=
| WriteJson (name : string) (value : json)
| SaveTile (width i : nat) (tile : img).
Arguments WriteJson {img} name value.
Arguments SaveTile {img} width i tile.

Section Slicing.

(** Images as the slicing code sees them: [shape image] is [image.shape].
    [cv2_resize image num den] is [cv2.resize(image, None, fx=factor,
    fy=factor, interpolation=cv2.INTER_AREA)] for [factor = num / den].
    [compute_tile_row_col_n] and [pad_slice_image] are the helpers of
    [image_utils], which the slicing code imports. *)
Variable img : Type.
Variable shape : img → list Z.
Variable cv2_resize : img → Z → Z → img.
Variable compute_tile_row_col_n : list Z → Z → Z * Z.
Variable pad_slice_image : img → Z → Z * Z → list img.

(** Lines 52-54 of [src/am/segment/preprocess.py], lines 32-34 of
    [am_segm/preprocess.py]. *)
Definition shrink_to (max_size : Z) (image : img) : result img :=
  match max_of (shape image) with
  | Raise e => Raise e
  | Ok m => Ok (if (max_size <? m)%Z then cv2_resize image max_size m else image)
  end.

(** [slice_to_tiles(input_group_path, output_group_path, tile_size=512)] of
    [src/am/segment/preprocess.py], for the image read from [source.tiff];
    the writes are relative to [output_group_path]. *)
Definition slice_to_tiles (image : img) (tile_size : Z)
    : result (list (fs_write img)) :=
  let max_size := (tile_size * 40)%Z in
  match shape image with
  | orig_h :: orig_w :: _ =>
      let meta := [("orig_image", JObj [("h", JInt orig_h); ("w", JInt orig_w)])] in
      match shrink_to max_size image with
      | Raise e => Raise e
      | Ok image =>
          let '(tile_row_n, tile_col_n) :=
            compute_tile_row_col_n (shape image) tile_size in
          let target_size := (tile_row_n * tile_size, tile_col_n * tile_size)%Z in
          let tiles := pad_slice_image image tile_size target_size in
          match shape image with
          | h :: w :: _ =>
              let meta := dict_set meta "image" (JObj [("h", JInt h); ("w", JInt w)]) in
              let meta := dict_set meta "tile"
                            (JObj [("rows", JInt tile_row_n); ("cols", JInt tile_col_n);
                                   ("size", JInt tile_size)]) in
              Ok (WriteJson "meta.json" (JObj meta) :: imap (SaveTile 4) tiles)
          | _ => Raise ValueError
          end
      end
  | _ => Raise ValueError                      (* orig_h, orig_w = ... *)
  end.

(** The body of the loop over [image_paths] in [slice_to_tiles] of
    [am_segm/preprocess.py], for one image; the writes are relative to the
    group's directory under [tiles_path]. *)
Definition am_segm_slice_image (image : img) : result (list (fs_write img)) :=
  let tile_size := 512%Z in
  let max_size := (tile_size * 15)%Z in
  match shrink_to max_size image with
  | Raise e => Raise e
  | Ok image =>
      let '(tile_row_n, tile_col_n) :=
        compute_tile_row_col_n (shape image) tile_size in
      let target_size := (tile_row_n * tile_size, tile_col_n * tile_size)%Z in
      let tiles := pad_slice_image image tile_size target_size in
      match shape image with
      | [h; w] =>
          let meta := [("image", JObj [("h", JInt h); ("w", JInt w)]);
                       ("tile", JObj [("rows", JInt tile_row_n); ("cols", JInt tile_col_n);
                                      ("size", JInt tile_size)])] in
          Ok (WriteJson "meta.json" (JObj meta) :: imap (SaveTile 3) tiles)
      | _ => Raise ValueError                  (* h, w = map(int, image.shape) *)
      end
  end.

(** [slice_to_tiles(input_data_path, overwrite=False)] of
    [am_segm/preprocess.py] over the images found under [input_data_path]:
    what was written, and whether the loop ended in an exception. *)
Fixpoint am_segm_slice_to_tiles (images : list img)
    : list (fs_write img) * result unit :=
  match images with
  | [] => ([], Ok tt)
  | image :: images' =>
      match am_segm_slice_image image with
      | Raise e => ([], Raise e)
      | Ok writes =>
          let '(writes', r) := am_segm_slice_to_tiles images' in
          (writes ++ writes', r)
      end
  end.

End Slicing.

(** The [meta.json] schema: an object with [h] and [w], or [rows], [cols] and
    [size], all integers. *)
Definition has_int_members (keys : list string) (value : json) : bool :=
  match value with
  | JObj members =>
      forallb (λ k, match dict_get members k with
                    | Some (JInt _) => true
                    | _ => false
                    end) keys
  | JInt _ => false
  end.

Definition has_member (keys : list string) (key : string) (value : json) : bool :=
  match value with
  | JObj members =>
      match dict_get members key with
      | Some v => has_int_members keys v
      | None => false
      end
  | JInt _ => false
  end.

Definition conforms_to_meta_schema (meta : json) : bool :=
  has_member ["h"; "w"] "orig_image" meta &&
  has_member ["h"; "w"] "image" meta &&
  has_member ["rows"; "cols"; "size"] "tile" meta.

(** The metadata records among the writes. *)
Definition metadata_written {img} (writes : list (fs_write img)) : list json :=
  omap (λ wr, match wr with WriteJson _ value => Some value | SaveTile _ _ _ => None end)
       writes.

(** "Every metadata record the producer persists conforms to the schema." *)
Definition persisted_metadata_conforms {img} (writes : list (fs_write img)) : Prop :=
  Forall (λ meta, conforms_to_meta_schema meta = true) (metadata_written writes).

(** Modelled from the spec: [compute_tile_row_col_n] of [image_utils], which
    is not among the sources; "ceiling division on both axes". *)
Definition compute_tile_row_col_n (shape : list Z) (tile_size : Z) : Z * Z :=
  match shape with
  | height :: width :: _ =>
      ((height + tile_size - 1) / tile_size, (width + tile_size - 1) / tile_size)%Z
  | _ => (0, 0)%Z
  end.

(** Modelled from the spec: [pad_slice_image] of [image_utils], which is not
    among the sources; "zero-pads the image on the bottom/right to (targetH,
    targetW), then cuts into tileSize blocks in row-major order". *)
Definition pad_slice_image (image : array) (tile_size : Z) (target_size : Z * Z)
    : list array :=
  let ts := Z.to_nat tile_size in
  let th := Z.to_nat target_size.1 in
  let tw := Z.to_nat target_size.2 in
  let padded :=
    ((λ row, row ++ replicate (tw - length row) 0%Z) <$> image)
    ++ replicate (th - length image) (replicate tw 0%Z) in
  i ← seq 0 (th / ts); j ← seq 0 (tw / ts); [block padded i j ts].

(** [image.shape] of a two-dimensional array *)
Definition shape2 (image : array) : list Z :=
  [Z.of_nat (array_shape image).1; Z.of_nat (array_shape image).2].

(** An image of 3 rows and 2 columns. *)
Definition image_3x2 : array := [[1; 2]; [3; 4]; [5; 6]]%Z.

(** Three one-pixel tiles for a grid of two by two. *)
Definition three_tile_files : list tile_file :=
  [{| stem := 0; pixels := [[10%Z]] |}; {| stem := 1; pixels := [[11%Z]] |};
   {| stem := 2; pixels := [[12%Z]] |}].

Definition meta_2x2 : group_meta :=
  {| image := {| h := 2; w := 2 |}; tile := {| rows := 2; cols := 2; size := 1 |} |}.

(** Five one-pixel tiles for the same grid. *)
Definition five_tile_files : list tile_file :=
  three_tile_files ++
  [{| stem := 3; pixels := [[13%Z]] |}; {| stem := 4; pixels := [[14%Z]] |}].

(** "Places tile [i] at [(i/cols, i%cols)]", for every list of tiles: the
    call returns an image of [rows*tile_size] by [cols*tile_size] pixels
    whose block at [(i/cols, i%cols)] is the [i]-th tile of the list. *)
Definition stitch_places_every_tile (tiles : list (option array))
    (tile_size tile_row_n tile_col_n : nat) : Prop :=
  ∃ image,
    stitch_tiles tiles tile_size tile_row_n tile_col_n = Ok image ∧
    has_shape (tile_row_n * tile_size) (tile_col_n * tile_size) image ∧
    ∀ i t, tiles !! i = Some (Some t) →
           block image (i / tile_col_n) (i mod tile_col_n) tile_size = t.

End Tiles.

(** * Further functions of [am/ecs/__init__.py] *)

Module EcsMore.
Import Ecs.

(** A task configuration that lacks [count], and one whose [count] is a
    string. *)
Definition cfg_without_count : gmap string pyval :=
  {[ "cluster" := PStr "am-segm" ]}.

Definition cfg_string_count : gmap string pyval :=
  {[ "count" := PStr "3"; "cluster" := PStr "am-segm" ]}.

(** A task configuration for another cluster. *)
Definition cfg_other_cluster : gmap string pyval :=
  {[ "count" := PInt 2; "cluster" := PStr "staging" ]}.

(** The clusters named in the [describe_tasks] calls. *)
Definition described_clusters (evs : list event) : list string :=
  omap (λ e, match e with EvDescribeTasks c _ _ => Some c | _ => None end) evs.

(** The task ids asked about in the [describe_tasks] calls. *)
Definition described_tasks (evs : list event) : list (list string) :=
  omap (λ e, match e with EvDescribeTasks _ arns _ => Some arns | _ => None end) evs.

(** The answers of the stop callback. *)
Definition callback_answers (evs : list event) : list bool :=
  omap (λ e, match e with EvStopCallback a => Some a | _ => None end) evs.

(** Two local files for three keys, no queue; the second thread is first. *)
Definition no_queue_trace : list (nat * event) :=
  [(1%nat, EvUploadFile "tiles/0001.png" "am-segm" "g1/source/0001.png" true);
   (0%nat, EvUploadFile "tiles/0000.png" "am-segm" "g1/source/0000.png" true)].

(** [ceil(n / d)] for positive [d]. *)
Definition ceil_div (n d : Z) : Z := (n + d - 1) / d.

(** *** Listing a prefix of the object store *)

(** A response of [s3.list_objects_v2]: the keys of [resp.get('Contents',
    [])], [resp.get('IsTruncated', False)], and [NextContinuationToken] if
    the response has one. *)
Record list_page : Type := {
  Contents : list string;
  IsTruncated : bool;
  NextContinuationToken : option string
}.

Section Listing.

(** The object store behind the client [s3]: a call gets the keyword
    arguments and returns a page and the next state of the store. *)
Variable S3 : Type.
Variable s3_list_objects_v2 : S3 → gmap string string → list_page * S3.

(** Lines 140-148: the [while True] loop.  Besides the outcome ([None] when
    the fuel ran out) it returns the calls made, each with its keyword
    arguments and its response, and the store. *)
Fixpoint list_loop (fuel : nat) (s : S3) (kwargs : gmap string string)
    (keys : list string)
    : option (result (list string)) * list (gmap string string * list_page) * S3 :=
  match fuel with
  | O => (None, [], s)
  | S fuel' =>
      let '(resp, s') := s3_list_objects_v2 s kwargs in
      let keys := keys ++ Contents resp in
      if IsTruncated resp then
        match NextContinuationToken resp with
        | None => (Some (Raise (KeyError "NextContinuationToken")), [(kwargs, resp)], s')
        | Some token =>
            let '(outcome, calls, s'') :=
              list_loop fuel' s' (<["ContinuationToken" := token]> kwargs) keys in
            (outcome, (kwargs, resp) :: calls, s'')
        end
      else (Some (Ok keys), [(kwargs, resp)], s')
  end.

(** [list_images_on_s3(bucket, prefix)] *)
Definition list_images_on_s3 (fuel : nat) (s : S3) (bucket prefix : string)
    : option (result (list string)) * list (gmap string string * list_page) * S3 :=
  list_loop fuel s {[ "Bucket" := bucket; "Prefix" := prefix ]} [].

End Listing.

(** The keyword arguments of the calls follow from the first ones: every call
    after a page repeats them with that page's continuation token. *)
Fixpoint chained (kwargs : gmap string string)
    (calls : list (gmap string string * list_page)) : Prop :=
  match calls with
  | [] => True
  | (args, page) :: rest =>
      args = kwargs ∧
      match rest with
      | [] => True
      | _ :: _ =>
          IsTruncated page = true ∧
          ∃ token, NextContinuationToken page = Some token ∧
                   chained (<["ContinuationToken" := token]> kwargs) rest
      end
  end.

(** The keys of the pages of the calls, in call order. *)
Definition listed_keys (calls : list (gmap string string * list_page)) : list string :=
  concat (map (λ c, Contents c.2) calls).

(** A store that serves the pages of a script one after the other, and an
    empty last page when the script is over. *)
Definition scripted_list (pages : list list_page) (kwargs : gmap string string)
    : list_page * list list_page :=
  match pages with
  | [] => ({| Contents := []; IsTruncated := false; NextContinuationToken := None |}, [])
  | page :: rest => (page, rest)
  end.

Definition three_pages : list list_page :=
  [{| Contents := ["g1/mask/0000.png"; "g1/mask/0001.png"];
      IsTruncated := true; NextContinuationToken := Some "t1" |};
   {| Contents := ["g1/mask/0002.png"];
      IsTruncated := true; NextContinuationToken := Some "t2" |};
   {| Contents := ["g1/mask/0003.png"];
      IsTruncated := false; NextContinuationToken := None |}].

(** *** Downloading through the thread pool *)

(** A local path: the components of its parent directory and its name. *)
Record local_path : Type := { parent : list string; file_name : string }.

(** [FileExistsError], which [Path.mkdir] raises for a directory that is
    there. *)
Inductive os_error : Type := FileExistsError.

(** The calls of the inner function [download(args)]. *)
Inductive dl_event : Type :=
| DlExists (dir : list string) (answer : bool)
| DlMkdir (dir : list string) (done : bool)
| DlDownloadFile (bucket key : string) (target : local_path).

(** Where a thread is in [download(args)]: before [local_path.parent.exists()],
    before [mkdir], before [s3.download_file], or at its end (with the
    exception it raised, if any). *)
Inductive dl_pc : Type :=
| AtExists
| AtMkdir
| AtDownloadFile
| Finished (raised : option os_error).

(** The directories that exist, where every thread is, and the calls made. *)
Record dl_state : Type := mkDl {
  dirs : gset (list string);
  pcs : list dl_pc;
  dl_trace : list (nat * dl_event)
}.

(** [mkdir(parents=True)] makes the directory and its missing ancestors. *)
Definition ancestors_and_self (dir : list string) : gset (list string) :=
  list_to_set ((λ k, take k dir) <$> seq 1 (length dir)).

(** One call of thread [i] of [executor.map(download, zip(s3_paths,
    local_paths))]; a thread at its end, or a thread that does not exist,
    does nothing. *)
Definition dl_step (bucket : string) (tasks : list (string * local_path))
    (i : nat) (st : dl_state) : dl_state :=
  match tasks !! i, pcs st !! i with
  | Some (s3_path, target), Some AtExists =>
      let there := bool_decide (parent target ∈ dirs st) in
      mkDl (dirs st)
           (<[i := if there then AtDownloadFile else AtMkdir]> (pcs st))
           (dl_trace st ++ [(i, DlExists (parent target) there)])
  | Some (s3_path, target), Some AtMkdir =>
      if bool_decide (parent target ∈ dirs st)
      then mkDl (dirs st) (<[i := Finished (Some FileExistsError)]> (pcs st))
                (dl_trace st ++ [(i, DlMkdir (parent target) false)])
      else mkDl (dirs st ∪ ancestors_and_self (parent target))
                (<[i := AtDownloadFile]> (pcs st))
                (dl_trace st ++ [(i, DlMkdir (parent target) true)])
  | Some (s3_path, target), Some AtDownloadFile =>
      mkDl (dirs st) (<[i := Finished None]> (pcs st))
           (dl_trace st ++ [(i, DlDownloadFile bucket s3_path target)])
  | _, _ => st
  end.

(** The pool takes the threads in some order, one call at a time. *)
Definition dl_run (bucket : string) (tasks : list (string * local_path))
    (schedule : list nat) (st : dl_state) : dl_state :=
  foldl (λ st i, dl_step bucket tasks i st) st schedule.

(** [download_images_from_s3(bucket, s3_paths, local_paths)] under a
    schedule, from the directories [existing]. *)
Definition download_images_from_s3 (bucket : string) (s3_paths : list string)
    (local_paths : list local_path) (existing : gset (list string))
    (schedule : list nat) : dl_state :=
  let tasks := zip s3_paths local_paths in
  dl_run bucket tasks schedule (mkDl existing (replicate (length tasks) AtExists) []).

(** One thread after the other, each to its end. *)
Definition one_by_one (n : nat) : list nat := i ← seq 0 n; [i; i; i].

Definition is_mkdir (e : nat * dl_event) : bool :=
  match e.2 with DlMkdir _ _ => true | _ => false end.

Definition target_in (dir : list string) (name : string) : local_path :=
  {| parent := dir; file_name := name |}.

Definition is_download_file (e : nat * dl_event) : bool :=
  match e.2 with DlDownloadFile _ _ _ => true | _ => false end.

(** The number of [download_file] calls made. *)
Definition downloads (st : dl_state) : nat :=
  length (filter is_download_file (dl_trace st)).

(** No thread has raised. *)
Definition none_raised (st : dl_state) : Prop :=
  Forall (λ pc, pc ≠ Finished (Some FileExistsError)) (pcs st).

(** *** Saving predictions *)

(** The directories that exist and the files written, in the order written. *)
Record sp_state : Type := mkSp {
  sp_dirs : gset (list string);
  sp_written : list (local_path * list (list Z))
}.

Section SavePredictions.

(** Whether [cv2.imwrite] to a path answers true. *)
Variable imwrite : local_path → bool.

(** [save_predictions(predictions, output_paths)] over the pairs of
    [zip(predictions, output_paths)]; a prediction is an array of integers,
    and [pred * 255] multiplies every entry. *)
Fixpoint save_loop (pairs : list (list (list Z) * local_path)) (st : sp_state)
    : result unit * sp_state :=
  match pairs with
  | [] => (Ok tt, st)
  | (pred, output_path) :: pairs' =>
      let dirs' :=
        if bool_decide (parent output_path ∈ sp_dirs st) then sp_dirs st
        else sp_dirs st ∪ ancestors_and_self (parent output_path) in
      let image := map (map (Z.mul 255)) pred in
      if imwrite output_path
      then save_loop pairs' (mkSp dirs' (sp_written st ++ [(output_path, image)]))
      else (Raise AssertionError, mkSp dirs' (sp_written st))
  end.

Definition save_predictions (predictions : list (list (list Z)))
    (output_paths : list local_path) (st : sp_state) : result unit * sp_state :=
  save_loop (zip predictions output_paths) st.

(** The pairs up to the first whose write fails. *)
Fixpoint saved_prefix (pairs : list (list (list Z) * local_path))
    : list (list (list Z) * local_path) :=
  match pairs with
  | [] => []
  | (pred, output_path) :: pairs' =>
      if imwrite output_path then (pred, output_path) :: saved_prefix pairs' else []
  end.

End SavePredictions.

(** What is written for a pair: the path and 255 times the prediction. *)
Definition times255 (pair : list (list Z) * local_path) : local_path * list (list Z) :=
  (pair.2, map (map (Z.mul 255)) pair.1).

(** Two masks for one directory that is not there yet. *)
Definition two_masks : list local_path :=
  [target_in ["out"; "g1"; "mask"] "0000.png"; target_in ["out"; "g1"; "mask"] "0001.png"].

End EcsMore.

(** * Further functions of the preprocessing modules *)

Module TilesMore.
Import Stdlib.Strings.Ascii.
Import Tiles.
Local Open Scope nat_scope.

(** The blocks of an image in row-major order, as a list of tiles. *)
Definition blocks_of (image : array) (tile_size tile_row_n tile_col_n : nat)
    : list (option array) :=
  i ← seq 0 tile_row_n; j ← seq 0 tile_col_n; [Some (block image i j tile_size)].

(** The tile files among the writes of [slice_to_tiles], as a directory
    listing: the file written for index [i] spells [i]. *)
Definition directory_of (writes : list (fs_write array)) : list tile_file :=
  omap (λ wr, match wr with
              | SaveTile _ i tile => Some {| stem := i; pixels := tile |}
              | WriteJson _ _ => None
              end) writes.

(** *** Stitching a group *)

(** [stitched_image.max()]; the maximum of an array without entries is a
    [ValueError]. *)
Definition array_max (a : array) : result Z :=
  match concat a with
  | [] => Raise ValueError
  | v :: vs => Ok (foldl Z.max v vs)
  end.

(** [stitched_image *= 255] on a [uint8] array: the product wraps around. *)
Definition times_255 (a : array) : array := map (map (λ v, (v * 255) mod 256)%Z) a.

(** Lines 109-110 of [src/am/segment/preprocess.py]. *)
Definition scale_if_binary (stitched_image : array) : result array :=
  match array_max stitched_image with
  | Raise e => Raise e
  | Ok m => Ok (if (m <=? 1)%Z then times_255 stitched_image else stitched_image)
  end.

(** Every entry is a [uint8]. *)
Definition is_uint8 (a : array) : Prop :=
  Forall (Forall (λ v, (0 ≤ v < 256)%Z)) a.

Section StitchGroup.
Variable cv2_resize : array → nat → nat → array.

(** [stitch_tiles_at_path(input_group_path, output_group_path, tile_size=512,
    image_ext='png')] of [src/am/segment/preprocess.py].  [directories] gives
    for [source] and for [mask] the listing of the tile directory, or [None]
    if the directory does not exist.  Returns what was logged, the images
    saved (each with its type), and the result. *)
Fixpoint stitch_types (image_types : list string)
    (directories : string → option (list tile_file)) (tile_size : nat)
    (meta : group_meta)
    : list log_record * list (string * array) * result unit :=
  match image_types with
  | [] => ([], [], Ok tt)
  | image_type :: image_types' =>
      match directories image_type with
      | None => stitch_types image_types' directories tile_size meta
      | Some tile_paths =>
          let '(log, r) := stitch_and_crop_tiles cv2_resize tile_paths tile_size meta in
          match r with
          | Raise e => (log, [], Raise e)
          | Ok stitched_image =>
              match scale_if_binary stitched_image with
              | Raise e => (log, [], Raise e)
              | Ok scaled =>
                  let '(log', saved, r') :=
                    stitch_types image_types' directories tile_size meta in
                  (log ++ log', (image_type, scaled) :: saved, r')
              end
          end
      end
  end.

Definition stitch_tiles_at_path (directories : string → option (list tile_file))
    (tile_size : nat) (meta : group_meta)
    : list log_record * list (string * array) * result unit :=
  stitch_types ["source"; "mask"] directories tile_size meta.

End StitchGroup.

(** *** Renaming the input image *)

(** A path by its parent directory and the stem and suffix of its name, as
    [pathlib] splits the name. *)
Record fs_path : Type := {
  path_parent : list string;
  path_stem : string;
  path_suffix : string
}.

#[global] Instance fs_path_eq_dec : EqDecision fs_path.
Proof. solve_decision. Defined.

(** [rename_image(input_image_path)]: the [os.rename] calls made and the path
    returned. *)
Definition rename_image (input_image_path : fs_path)
    : list (fs_path * fs_path) * fs_path :=
  let out_image_stem :=
    if bool_decide (path_stem input_image_path ∈ ["source"; "mask"])
    then path_stem input_image_path else "source" in
  let output_image_path :=
    {| path_parent := path_parent input_image_path;
       path_stem := out_image_stem; path_suffix := ".tiff" |} in
  (if bool_decide (input_image_path ≠ output_image_path)
   then [(input_image_path, output_image_path)] else [],
   output_image_path).

(** *** Normalizing the source image *)

(** [Path.glob] for patterns of literal characters and the star. *)
Fixpoint glob_match (pattern name : string) : bool :=
  match pattern with
  | EmptyString => match name with EmptyString => true | String _ _ => false end
  | String c pattern' =>
      if Ascii.eqb c "*"%char then
        (fix star (n : string) : bool :=
           glob_match pattern' n ||
           match n with EmptyString => false | String _ n' => star n' end) name
      else
        match name with
        | EmptyString => false
        | String c' name' => Ascii.eqb c c' && glob_match pattern' name'
        end
  end.

Section NormalizeSource.

(** [read_image(path, ch_n=3)] is the image stored under a name; [clip] and
    [normalize] are the functions of [image_utils]. *)
Variable img : Type.
Variable clip : img → Z → Z → img.
Variable normalize : img → img.

(** [itertools.chain] over [input_group_path.glob(p)] for the patterns [p] in
    order. *)
Definition chain_globs (image_patterns : list string) (listing : list (string * img))
    : list (string * img) :=
  p ← image_patterns; filter (λ f, glob_match p f.1 = true) listing.

(** Lines 30-39: the loop with its [break]. *)
Fixpoint first_non_mask (image_paths : list (string * img)) (q1 q2 : Z)
    : list (string * img) :=
  match image_paths with
  | [] => []
  | (name, image) :: image_paths' =>
      if bool_decide (name ≠ "mask")
      then [("source.tiff", normalize (clip image q1 q2))]
      else first_non_mask image_paths' q1 q2
  end.

(** [normalize_source(input_group_path, output_group_path, q1=1, q2=99)]: the
    images saved under [output_group_path], by name. *)
Definition normalize_source (listing : list (string * img)) (q1 q2 : Z)
    : list (string * img) :=
  first_non_mask (chain_globs ["*.tif*"; "*.png"] listing) q1 q2.

End NormalizeSource.

(** A group directory that holds a mask and a photograph. *)
Definition mask_first_listing : list (string * string) :=
  [("mask.tiff", "the mask"); ("photo.png", "the photograph")].

(** A mask of zeros and ones, as one tile. *)
Definition binary_tile_files : list tile_file :=
  [{| stem := 0; pixels := [[0; 1]; [1; 0]]%Z |}].

Definition meta_1x1 : group_meta :=
  {| image := {| h := 2; w := 2 |}; tile := {| rows := 1; cols := 1; size := 2 |} |}.

(** Files 0, 1, 2 and 5 for a grid of two by two. *)
Definition gap_tile_files : list tile_file :=
  three_tile_files ++ [{| stem := 5; pixels := [[15%Z]] |}].

(** The four tiles of the grid, listed out of order. *)
Definition shuffled_tile_files : list tile_file :=
  [{| stem := 2; pixels := [[12%Z]] |}; {| stem := 0; pixels := [[10%Z]] |};
   {| stem := 3; pixels := [[13%Z]] |}; {| stem := 1; pixels := [[11%Z]] |}].

(** A group that has a directory of mask tiles and none of source tiles. *)
Definition mask_only_directories (image_type : string) : option (list tile_file) :=
  if String.eqb image_type "mask" then Some binary_tile_files else None.

(** Two photographs of one directory. *)
Definition photo_png : fs_path :=
  {| path_parent := ["data"; "group"]; path_stem := "photo"; path_suffix := ".png" |}.

Definition scan_tif : fs_path :=
  {| path_parent := ["data"; "group"]; path_stem := "scan"; path_suffix := ".tif" |}.

End TilesMore.

(** * Properties of the fleet and the queue *)

Module EcsSpec.
Import Ecs.

Section FleetFacts.
Context {B : Type} `{Backend B}.
Implicit Types (w : World B) (cfg : nat) (n : Z).

Lemma pop_count w cfg n :
  (dicts w !!! cfg) !! "count" = Some (PInt n) →
  dict_pop cfg "count" w =
    Some (Ok (PInt n),
          mkWorld (backend w) (now w) (history w)
            (<[cfg := delete "count" (dicts w !!! cfg)]> (dicts w))).
Proof. intros Hc. unfold dict_pop. by rewrite Hc. Qed.

Lemma assert_count_in n w : 1 ≤ n ≤ 20 → assert_count (PInt n) w = Some (Ok n, w).
Proof.
  intros Hn. unfold assert_count.
  replace (0 <? n) with true by (symmetry; apply Z.ltb_lt; lia).
  replace (n <=? 20) with true by (symmetry; apply Z.leb_le; lia).
  reflexivity.
Qed.

Lemma assert_count_out n w :
  ¬ (1 ≤ n ≤ 20) → assert_count (PInt n) w = Some (Raise AssertionError, w).
Proof.
  intros Hn. unfold assert_count.
  destruct (0 <? n) eqn:E1; destruct (n <=? 20) eqn:E2; try reflexivity.
  apply Z.ltb_lt in E1. apply Z.leb_le in E2. lia.
Qed.

(** One batch is enough for at most ten tasks. *)
Lemma launch_loop_small fuel cfg n arns w :
  1 ≤ n ≤ 10 → (2 ≤ fuel)%nat →
  ∃ ts b,
    ecs_run_task (backend w) n (dicts w !!! cfg) = (ts, b) ∧
    launch_loop fuel cfg n arns w =
      Some (Ok (arns ++ map taskArn ts),
            record (EvRunTask n (dicts w !!! cfg) ts)
              (mkWorld b (now w) (history w) (dicts w))).
Proof.
  intros Hn Hf. destruct fuel as [|[|fuel]]; [lia | lia |].
  destruct (ecs_run_task (backend w) n (dicts w !!! cfg)) as [ts b] eqn:Er.
  exists ts, b. split; [done|].
  cbn [launch_loop]. unfold ecs_max_task_n.
  replace (0 <? n) with true by (symmetry; apply Z.ltb_lt; lia).
  rewrite Z.min_l by lia. rewrite Z.sub_diag.
  unfold bind, run_task. rewrite Er. cbn. reflexivity.
Qed.

(** Eleven to twenty tasks take a batch of ten, a pause, and the rest. *)
Lemma launch_loop_large fuel cfg n arns w :
  10 < n ≤ 20 → (3 ≤ fuel)%nat →
  ∃ ts1 b1 ts2 b2,
    ecs_run_task (backend w) 10 (dicts w !!! cfg) = (ts1, b1) ∧
    ecs_run_task b1 (n - 10) (dicts w !!! cfg) = (ts2, b2) ∧
    launch_loop fuel cfg n arns w =
      Some (Ok ((arns ++ map taskArn ts1) ++ map taskArn ts2),
            mkWorld b2 (now w + 5)
              (history w ++ [EvRunTask 10 (dicts w !!! cfg) ts1; EvSleep 5;
                             EvRunTask (n - 10) (dicts w !!! cfg) ts2])
              (dicts w)).
Proof.
  intros Hn Hf. destruct fuel as [|fuel]; [lia|].
  destruct (ecs_run_task (backend w) 10 (dicts w !!! cfg)) as [ts1 b1] eqn:Er1.
  destruct (ecs_run_task b1 (n - 10) (dicts w !!! cfg)) as [ts2 b2] eqn:Er2.
  exists ts1, b1, ts2, b2. split; [done|]. split; [done|].
  cbn [launch_loop]. unfold ecs_max_task_n.
  replace (0 <? n) with true by (symmetry; apply Z.ltb_lt; lia).
  rewrite Z.min_r by lia.
  replace (0 <? n - 10) with true by (symmetry; apply Z.ltb_lt; lia).
  unfold bind at 1. unfold run_task at 1. rewrite Er1.
  unfold bind at 1. unfold sleep at 1. cbn [Z.ltb Z.compare].
  set (w1 := record (EvSleep 5) _).
  destruct (launch_loop_small fuel cfg (n - 10) (arns ++ map taskArn ts1) w1)
    as (ts & b & Hr & ->); [lia | lia |].
  subst w1. cbn in Hr. rewrite Er2 in Hr. injection Hr as <- <-.
  unfold record. cbn. by rewrite <- !app_assoc.
Qed.

Lemma launch_tasks_rejects fuel cfg n w :
  (dicts w !!! cfg) !! "count" = Some (PInt n) → ¬ (1 ≤ n ≤ 20) →
  launch_tasks fuel cfg w =
    Some (Raise AssertionError,
          mkWorld (backend w) (now w) (history w)
            (<[cfg := delete "count" (dicts w !!! cfg)]> (dicts w))).
Proof.
  intros Hc Hn. unfold launch_tasks, bind. rewrite (pop_count _ _ _ Hc).
  by rewrite assert_count_out.
Qed.

Lemma run_wait_rejects fuel cfg n cb interval timeout w :
  (dicts w !!! cfg) !! "count" = Some (PInt n) → ¬ (1 ≤ n ≤ 20) →
  run_wait_for_inference_task fuel cfg cb interval timeout w =
    Some (Raise AssertionError,
          mkWorld (backend w) (now w) (history w)
            (<[cfg := delete "count" (dicts w !!! cfg)]> (dicts w))).
Proof.
  intros Hc Hn. unfold run_wait_for_inference_task, bind.
  by rewrite (launch_tasks_rejects _ _ _ _ Hc Hn).
Qed.

(** After a launch that succeeds the function is its wait loop, and what the
    wait loop raises is raised to the caller. *)
Lemma run_wait_after_launch fuel cfg cb interval timeout w arns w1 :
  launch_tasks fuel cfg w = Some (Ok arns, w1) →
  run_wait_for_inference_task fuel cfg cb interval timeout w =
    wait_for_stop fuel arns cb interval timeout w1.
Proof. intros Hl. unfold run_wait_for_inference_task, bind. by rewrite Hl. Qed.

(** C3.  A count in [1,20] is accepted and any other count is rejected.  An
    accepted count is launched in batches of at most 10 per [run_task] call
    (one batch up to 10, otherwise 10 and the rest) with [sleep(5)] between
    consecutive batches and none after the last; the returned list is the
    concatenation of the task ids of all batches.  For 13 tasks the batches
    are [10; 3] with one pause. *)
Theorem launch_tasks_batches w cfg n fuel :
  (dicts w !!! cfg) !! "count" = Some (PInt n) → (3 ≤ fuel)%nat →
  (1 ≤ n ≤ 20 →
     ∃ runs w',
       launch_tasks fuel cfg w = Some (Ok (launched runs), w') ∧
       history w' = history w ++ sep_by (EvSleep 5) runs ∧
       forallb is_run_task runs = true ∧
       batch_sizes runs = (if n <=? 10 then [n] else [10; n - 10]) ∧
       Forall (λ c, 1 ≤ c ≤ 10) (batch_sizes runs) ∧
       sleeps (sep_by (EvSleep 5) runs) = replicate (length runs - 1) 5 ∧
       (n = 13 → batch_sizes runs = [10; 3] ∧ sleeps (sep_by (EvSleep 5) runs) = [5]))
  ∧ (¬ (1 ≤ n ≤ 20) →
     ∃ w', launch_tasks fuel cfg w = Some (Raise AssertionError, w') ∧
           history w' = history w).
Proof.
  intros Hc Hf. split.
  - intros Hn. unfold launch_tasks, bind. rewrite (pop_count _ _ _ Hc).
    rewrite assert_count_in by done.
    set (w0 := mkWorld _ _ _ _).
    destruct (Z.leb_spec n 10) as [Hle|Hgt].
    + destruct (launch_loop_small fuel cfg n [] w0) as (ts & b & _ & ->); [lia|lia|].
      eexists [EvRunTask n _ ts], _. split; [|split; [|split; [|split; [|split; [|split]]]]].
      * cbn. by rewrite app_nil_r.
      * reflexivity.
      * reflexivity.
      * reflexivity.
      * repeat constructor; lia.
      * reflexivity.
      * intros ->. lia.
    + destruct (launch_loop_large fuel cfg n [] w0) as (ts1 & b1 & ts2 & b2 & _ & _ & ->);
        [lia|lia|].
      eexists [EvRunTask 10 _ ts1; EvRunTask (n - 10) _ ts2], _.
      split; [|split; [|split; [|split; [|split; [|split]]]]].
      * cbn. by rewrite app_nil_r.
      * reflexivity.
      * reflexivity.
      * reflexivity.
      * repeat constructor; lia.
      * reflexivity.
      * intros ->. done.
  - intros Hn. eexists. split; [by apply (launch_tasks_rejects _ _ n)|]. done.
Qed.

(** C8 (as the code has it).  An out-of-range count raises [AssertionError]
    before any call to the scheduler and before any sleep; by then the
    [count] entry has been popped from the caller's dictionary, whose other
    entries, like every other dictionary, are unchanged. *)
Theorem out_of_range_count_rejected w cfg n cb interval timeout fuel :
  (dicts w !!! cfg) !! "count" = Some (PInt n) → ¬ (1 ≤ n ≤ 20) →
  ∃ w',
    run_wait_for_inference_task fuel cfg cb interval timeout w =
      Some (Raise AssertionError, w') ∧
    history w' = history w ∧ backend w' = backend w ∧ now w' = now w ∧
    dicts w' !!! cfg = delete "count" (dicts w !!! cfg) ∧
    (dicts w' !!! cfg) !! "count" = None ∧
    (∀ k, k ≠ "count" → (dicts w' !!! cfg) !! k = (dicts w !!! cfg) !! k) ∧
    (∀ d, d ≠ cfg → dicts w' !! d = dicts w !! d).
Proof.
  intros Hc Hn. eexists. split; [by apply (run_wait_rejects _ _ n)|].
  cbn. rewrite lookup_total_insert_eq.
  repeat split; try done.
  - apply lookup_delete_eq.
  - intros k Hk. by rewrite lookup_delete_ne.
  - intros d Hd. by rewrite lookup_insert_ne.
Qed.

(** *** Receiving from the queue *)

Lemma append_messages_eq (acc : list string * list string) (ms : list message) :
  append_messages acc ms = (acc.1 ++ map Body ms, acc.2 ++ map ReceiptHandle ms).
Proof.
  revert acc. induction ms as [|m ms IH]; intros [ps hs]; cbn.
  - by rewrite !app_nil_r.
  - unfold append_messages in IH. rewrite IH. cbn. by rewrite <- !app_assoc.
Qed.

(** Every round makes one [receive_message] call for at most one message, and
    the two lists grow by the bodies and the handles of the same messages. *)
Lemma consume_rounds_spec (rounds : list nat) (url : string)
    (acc : list string * list string) w :
  ∃ w' resps,
    consume_rounds rounds url acc w =
      Some (Ok (acc.1 ++ map Body (concat resps),
                acc.2 ++ map ReceiptHandle (concat resps)), w') ∧
    history w' = history w ++ map (EvReceiveMessage url 1) resps ∧
    length resps = length rounds ∧
    (honours_max_messages B → Forall (λ r, (length r ≤ 1)%nat) resps).
Proof.
  revert acc w. induction rounds as [|i rounds IH]; intros acc w.
  - exists w, []. cbn. rewrite !app_nil_r. destruct acc. done.
  - cbn [consume_rounds]. unfold bind at 1. unfold receive_message at 1.
    destruct (sqs_receive_message (backend w) url 1) as [ms b] eqn:Er.
    set (w1 := record _ _).
    destruct (IH (append_messages acc ms) w1) as (w' & resps & Hrun & Hh & Hl & Hmax).
    exists w', (ms :: resps). rewrite Hrun, append_messages_eq. cbn.
    rewrite !map_app, !app_assoc. split; [done|]. split; [|split].
    + rewrite Hh. subst w1. cbn. by rewrite <- app_assoc.
    + by rewrite Hl.
    + intros Hc. constructor; [|by apply Hmax].
      specialize (Hc (backend w) url 1). by rewrite Er in Hc.
Qed.

Lemma responses_receive url k (resps : list (list message)) :
  responses (map (EvReceiveMessage url k) resps) = resps.
Proof. unfold responses. induction resps as [|r resps IH]; cbn; congruence. Qed.

Lemma requested_receive url k (resps : list (list message)) :
  requested (map (EvReceiveMessage url k) resps) = replicate (length resps) k.
Proof. unfold requested. induction resps as [|r resps IH]; cbn; congruence. Qed.

Lemma length_concat_le1 (resps : list (list message)) :
  Forall (λ r, (length r ≤ 1)%nat) resps → (length (concat resps) ≤ length resps)%nat.
Proof. induction 1 as [|r resps Hr _ IH]; cbn; [lia|]. rewrite length_app. lia. Qed.

(** What [consume_messages] does, for any services. *)
Lemma consume_messages_spec (url : string) (n : Z) w :
  ∃ w' evs,
    consume_messages url n w =
      Some (Ok (map Body (concat (responses evs)),
                map ReceiptHandle (concat (responses evs))), w') ∧
    history w' = history w ++ evs ∧
    length evs = Z.to_nat n ∧
    length (responses evs) = Z.to_nat n ∧
    requested evs = replicate (Z.to_nat n) 1 ∧
    (honours_max_messages B →
       Forall (λ r, (length r ≤ 1)%nat) (responses evs) ∧
       (length (concat (responses evs)) ≤ Z.to_nat n)%nat).
Proof.
  unfold consume_messages.
  destruct (consume_rounds_spec (seq 0 (Z.to_nat n)) url ([], []) w)
    as (w' & resps & Hrun & Hh & Hl & Hmax).
  rewrite length_seq in Hl.
  exists w', (map (EvReceiveMessage url 1) resps).
  rewrite responses_receive, requested_receive, length_map, Hl.
  repeat split; try done.
  - by apply Hmax.
  - rewrite <- Hl. apply length_concat_le1. by apply Hmax.
Qed.

Lemma zip_map_same {A C D} (g : A → C) (h : A → D) (l : list A) :
  zip (map g l) (map h l) = map (λ x, (g x, h x)) l.
Proof. induction l as [|x l IH]; cbn; congruence. Qed.

(** C10.  The two lists returned by [consume_messages] have the same length,
    and position by position they hold the body and the receipt handle of
    one and the same received message, in the order of reception. *)
Theorem consume_messages_aligned (url : string) (n : Z) w :
  ∃ w' evs paths handles,
    consume_messages url n w = Some (Ok (paths, handles), w') ∧
    history w' = history w ++ evs ∧
    length paths = length handles ∧
    length paths = length (concat (responses evs)) ∧
    zip paths handles =
      map (λ m, (Body m, ReceiptHandle m)) (concat (responses evs)) ∧
    (∀ k body handle,
       paths !! k = Some body → handles !! k = Some handle →
       ∃ m, concat (responses evs) !! k = Some m ∧
            Body m = body ∧ ReceiptHandle m = handle).
Proof.
  destruct (consume_messages_spec url n w) as (w' & evs & Hrun & Hh & _).
  exists w', evs, (map Body (concat (responses evs))),
    (map ReceiptHandle (concat (responses evs))).
  split; [done|]. split; [done|]. rewrite !length_map. split; [done|]. split; [done|].
  split; [apply zip_map_same|].
  intros k body handle Hb Hhd.
  rewrite list_lookup_fmap in Hb, Hhd.
  destruct (concat (responses evs) !! k) as [m|]; [|discriminate].
  exists m. cbn in Hb, Hhd. by simplify_eq.
Qed.

(** *** The wait loop *)

Section WaitLoop.
Variables (arns : list string) (f : World B → bool) (interval timeout : Z).

Lemma wait_loop_deadline fuel finish cb w :
  finish ≤ now w →
  wait_loop (S fuel) finish arns cb interval timeout w =
    Some (Raise (ExcTimeout timeout), w).
Proof.
  intros Hd. cbn [wait_loop]. unfold bind, time.
  replace (now w <? finish) with false by (symmetry; apply Z.ltb_ge; lia).
  reflexivity.
Qed.

Lemma wait_loop_step fuel finish w :
  now w < finish → 0 ≤ interval →
  wait_loop (S fuel) finish arns (Nullary f) interval timeout w =
    if fst (poll_once arns f interval w)
    then Some (Ok tt, snd (poll_once arns f interval w))
    else wait_loop fuel finish arns (Nullary f) interval timeout
           (snd (poll_once arns f interval w)).
Proof.
  intros Hd Hi. cbn [wait_loop]. unfold bind at 1. unfold time at 1.
  replace (now w <? finish) with true by (symmetry; apply Z.ltb_lt; lia).
  unfold bind at 1. unfold sleep at 1.
  replace (interval <? 0) with false by (symmetry; apply Z.ltb_ge; lia).
  unfold bind at 1. unfold describe_tasks at 1. unfold poll_once.
  destruct (ecs_describe_tasks _ _ _) as [ts b].
  unfold bind at 1. unfold call0 at 1. cbn.
  destruct (f _); reflexivity.
Qed.

(** A callback that expects the statuses is called without them. *)
Lemma wait_loop_unary fuel finish p w :
  now w < finish → 0 ≤ interval →
  ∃ w', wait_loop (S fuel) finish arns (OnStatuses p) interval timeout w =
          Some (Raise TypeError, w') ∧ polls (history w') = S (polls (history w)).
Proof.
  intros Hd Hi. cbn [wait_loop]. unfold bind at 1. unfold time at 1.
  replace (now w <? finish) with true by (symmetry; apply Z.ltb_lt; lia).
  unfold bind at 1. unfold sleep at 1.
  replace (interval <? 0) with false by (symmetry; apply Z.ltb_ge; lia).
  unfold bind at 1. unfold describe_tasks at 1.
  destruct (ecs_describe_tasks _ _ _) as [ts b].
  unfold bind, call0. eexists. split; [reflexivity|].
  cbn. unfold polls. rewrite !omap_app, !length_app. cbn. lia.
Qed.

Lemma poll_once_now w : now (snd (poll_once arns f interval w)) = now w + interval.
Proof. unfold poll_once. by destruct (ecs_describe_tasks _ _ _). Qed.

Lemma poll_once_history w :
  ∃ ts, history (snd (poll_once arns f interval w)) =
          history w ++ [EvSleep interval; EvDescribeTasks "am-segm" arns ts;
                        EvStopCallback (fst (poll_once arns f interval w))].
Proof.
  unfold poll_once. destruct (ecs_describe_tasks _ _ _) as [ts b].
  exists ts. cbn. by rewrite <- !app_assoc.
Qed.

Lemma poll_once_dicts w : dicts (snd (poll_once arns f interval w)) = dicts w.
Proof. unfold poll_once. by destruct (ecs_describe_tasks _ _ _). Qed.

Lemma after_polls_now k w :
  now (after_polls k arns f interval w) = now w + Z.of_nat k * interval.
Proof.
  revert w. induction k as [|k IH]; intros w; cbn [after_polls].
  - lia.
  - rewrite IH, poll_once_now. lia.
Qed.

Lemma after_polls_S k w :
  after_polls (S k) arns f interval w =
    snd (poll_once arns f interval (after_polls k arns f interval w)).
Proof.
  revert w. induction k as [|k IH]; intros w; [reflexivity|].
  change (after_polls (S (S k)) arns f interval w)
    with (after_polls (S k) arns f interval (snd (poll_once arns f interval w))).
  by rewrite IH.
Qed.

(** What [k] passes add to the history: [k] sleeps of [interval] and [k]
    polls, and nothing from the scheduler. *)
Lemma after_polls_history k w :
  ∃ evs, history (after_polls k arns f interval w) = history w ++ evs ∧
         polls evs = k ∧ sleeps evs = replicate k interval ∧ batch_sizes evs = [].
Proof.
  revert w. induction k as [|k IH]; intros w; cbn [after_polls].
  - exists []. by rewrite app_nil_r.
  - destruct (IH (snd (poll_once arns f interval w))) as (evs & -> & Hp & Hs & Hb).
    destruct (poll_once_history w) as (ts & ->).
    eexists (_ :: _ :: _ :: evs). rewrite <- app_assoc. split; [reflexivity|].
    unfold polls, sleeps, batch_sizes in *. cbn. rewrite Hs, Hb. split; [lia|done].
Qed.

(** The loop leaves normally at the first pass whose callback answers true,
    if that pass starts before the deadline. *)
Lemma wait_loop_first_true k fuel finish w :
  0 ≤ interval →
  (∀ j, (j < k)%nat →
        fst (poll_once arns f interval (after_polls j arns f interval w)) = false) →
  fst (poll_once arns f interval (after_polls k arns f interval w)) = true →
  now w + Z.of_nat k * interval < finish →
  (k < fuel)%nat →
  wait_loop fuel finish arns (Nullary f) interval timeout w =
    Some (Ok tt, after_polls (S k) arns f interval w).
Proof.
  intros Hi. revert fuel w. induction k as [|k IH]; intros fuel w Hfalse Htrue Hd Hf.
  - destruct fuel as [|fuel]; [lia|]. rewrite wait_loop_step by (cbn in *; lia).
    cbn in Htrue. rewrite Htrue. reflexivity.
  - destruct fuel as [|fuel]; [lia|]. rewrite wait_loop_step by nia.
    pose proof (Hfalse 0%nat ltac:(lia)) as H0. cbn [after_polls] in H0. rewrite H0.
    rewrite (IH fuel (snd (poll_once arns f interval w))).
    + reflexivity.
    + intros j Hj. apply (Hfalse (S j)). lia.
    + exact Htrue.
    + rewrite poll_once_now. lia.
    + lia.
Qed.

(** With a callback that never answers true the loop makes one pass per
    [interval] until the clock reaches the deadline, then raises. *)
Lemma wait_loop_never k fuel finish w :
  0 < interval → (∀ w0, f w0 = false) →
  finish - now w ≤ Z.of_nat k * interval →
  (∀ j, (j < k)%nat → now w + Z.of_nat j * interval < finish) →
  (k < fuel)%nat →
  wait_loop fuel finish arns (Nullary f) interval timeout w =
    Some (Raise (ExcTimeout timeout), after_polls k arns f interval w).
Proof.
  intros Hi Hnever. revert fuel w. induction k as [|k IH]; intros fuel w Hle Hlt Hf.
  - destruct fuel as [|fuel]; [lia|]. rewrite wait_loop_deadline by lia. reflexivity.
  - destruct fuel as [|fuel]; [lia|].
    rewrite wait_loop_step; [| specialize (Hlt 0%nat); lia | lia].
    replace (fst (poll_once arns f interval w)) with false.
    2:{ unfold poll_once. destruct (ecs_describe_tasks _ _ _). cbn. by rewrite Hnever. }
    rewrite (IH fuel (snd (poll_once arns f interval w))).
    + reflexivity.
    + rewrite poll_once_now. lia.
    + intros j Hj. rewrite poll_once_now. specialize (Hlt (S j)). lia.
    + lia.
Qed.

(** The number of passes that fit before the deadline. *)
Lemma ceil_div_bounds :
  0 < interval →
  let n := Z.to_nat ((timeout + interval - 1) / interval) in
  timeout ≤ Z.of_nat n * interval ∧
  (∀ j, (j < n)%nat → Z.of_nat j * interval < timeout).
Proof.
  intros Hi n. subst n.
  pose proof (Z.div_mod (timeout + interval - 1) interval ltac:(lia)) as Hdm.
  pose proof (Z.mod_pos_bound (timeout + interval - 1) interval Hi) as Hmod.
  set (q := (timeout + interval - 1) / interval) in *.
  destruct (Z.le_gt_cases q 0) as [Hq|Hq].
  - replace (Z.to_nat q) with 0%nat by lia. split; [nia | intros j Hj; lia].
  - rewrite Z2Nat.id by lia. split; [nia|].
    intros j Hj. assert (Z.of_nat j ≤ q - 1) by lia. nia.
Qed.

(** C5 (as the code has it).  While the deadline has not passed the loop
    sleeps [interval], polls the task statuses (which it only logs) and calls
    the stop callback with no arguments; it returns normally at the first
    pass in which the callback answers true, after exactly one sleep and one
    poll per pass.  With a callback true at the first pass that is one sleep
    and one poll, with no sleep after it.  A callback that expects the
    statuses as its argument raises [TypeError] at the first pass. *)
Theorem wait_returns_at_first_true w :
  0 ≤ interval →
  (∀ k fuel,
     (∀ j, (j < k)%nat →
           fst (poll_once arns f interval (after_polls j arns f interval w)) = false) →
     fst (poll_once arns f interval (after_polls k arns f interval w)) = true →
     Z.of_nat k * interval < timeout →
     (k < fuel)%nat →
     ∃ w' evs,
       wait_for_stop fuel arns (Nullary f) interval timeout w = Some (Ok tt, w') ∧
       w' = after_polls (S k) arns f interval w ∧
       history w' = history w ++ evs ∧
       polls evs = S k ∧ sleeps evs = replicate (S k) interval ∧
       now w' = now w + Z.of_nat (S k) * interval ∧
       (k = 0%nat → polls evs = 1%nat ∧ sleeps evs = [interval]))
  ∧ (∀ p fuel, 0 < timeout →
     ∃ w', wait_for_stop (S fuel) arns (OnStatuses p) interval timeout w =
             Some (Raise TypeError, w')).
Proof.
  intros Hi. split.
  - intros k fuel Hfalse Htrue Hd Hf.
    destruct (after_polls_history (S k) w) as (evs & Hh & Hp & Hs & _).
    exists (after_polls (S k) arns f interval w), evs.
    split; [|split; [done|split; [done|split; [done|split; [done|split]]]]].
    + unfold wait_for_stop, bind, time.
      apply wait_loop_first_true; try done. lia.
    + apply after_polls_now.
    + intros ->. by rewrite Hp, Hs.
  - intros p fuel Ht. unfold wait_for_stop, bind, time.
    destruct (wait_loop_unary fuel (now w + timeout) p w) as (w' & -> & _); [lia|done|].
    by exists w'.
Qed.

(** C6.  With a positive poll interval and a callback that is never true the
    loop raises the timeout exception after [ceil(timeout / interval)] polls,
    when the clock has reached the deadline; with [timeout = 30] and
    [interval = 10] that is after exactly 3 polls, 30 seconds on. *)
Theorem wait_times_out w fuel :
  0 < interval → (∀ w0, f w0 = false) →
  (Z.to_nat ((timeout + interval - 1) / interval) < fuel)%nat →
  ∃ w' evs,
    wait_for_stop fuel arns (Nullary f) interval timeout w =
      Some (Raise (ExcTimeout timeout), w') ∧
    history w' = history w ++ evs ∧
    polls evs = Z.to_nat ((timeout + interval - 1) / interval) ∧
    sleeps evs = replicate (polls evs) interval ∧
    batch_sizes evs = [] ∧
    now w' = now w + Z.of_nat (polls evs) * interval ∧
    now w + timeout ≤ now w' ∧
    (timeout = 30 → interval = 10 → polls evs = 3%nat ∧ now w' = now w + 30).
Proof.
  intros Hi Hnever Hf.
  destruct (ceil_div_bounds Hi) as [Hle Hlt].
  set (n := Z.to_nat ((timeout + interval - 1) / interval)) in *.
  destruct (after_polls_history n w) as (evs & Hh & Hp & Hs & Hb).
  exists (after_polls n arns f interval w), evs.
  split; [|split; [done|split; [done|split; [by rewrite Hp|split; [done|split; [|split]]]]]].
  - unfold wait_for_stop, bind, time.
    apply wait_loop_never; try done; [lia|]. intros j Hj. specialize (Hlt j Hj). lia.
  - rewrite Hp. apply after_polls_now.
  - rewrite after_polls_now. lia.
  - intros Ht Hi10. rewrite Hp, after_polls_now. subst n.
    rewrite Ht, Hi10. change (Z.to_nat ((30 + 10 - 1) / 10)) with 3%nat. split; [done|lia].
Qed.

End WaitLoop.

End FleetFacts.

(** *** Uploading and enqueueing *)

Section UploadFacts.

Lemma merge_perm {A} (ts : list (list A)) (tr : list A) :
  merge ts tr → tr ≡ₚ concat ts.
Proof.
  induction 1 as [ts Hnil | ts i x t tr Hi _ IH].
  - induction Hnil as [|t ts -> _ IH]; [done|]. cbn. by rewrite <- IH.
  - rewrite IH. rewrite <- (take_drop_middle ts i (x :: t)) at 2 by done.
    rewrite insert_take_drop by (by eapply lookup_lt_Some).
    rewrite !concat_app. cbn. by rewrite Permutation_middle.
Qed.

(** In a merge, the calls of one task appear in the task's own order. *)
Lemma merge_of_task (ts : list (list (nat * event))) tr :
  merge ts tr →
  (∀ j t e, ts !! j = Some t → e ∈ t → e.1 = j) →
  ∀ i, of_task i tr = default [] (ts !! i).
Proof.
  induction 1 as [ts Hnil | ts i0 x t tr Hi0 _ IH]; intros Htag i.
  - destruct (ts !! i) as [t|] eqn:Ht; [|done].
    cbn. symmetry. by apply (proj1 (Forall_lookup _ _) Hnil i t).
  - assert (x.1 = i0) as Hx by (apply (Htag i0 (x :: t)); [done | left]).
    assert (∀ j t' e, <[i0:=t]> ts !! j = Some t' → e ∈ t' → e.1 = j) as Htag'.
    { intros j t' e Hj He. destruct (decide (i0 = j)) as [<-|Hne].
      - rewrite list_lookup_insert_eq in Hj by (by eapply lookup_lt_Some).
        injection Hj as <-. apply (Htag i0 (x :: t)); [done | by right].
      - rewrite list_lookup_insert_ne in Hj by done. by eapply Htag. }
    specialize (IH Htag' i). unfold of_task in *.
    destruct (decide (i0 = i)) as [<-|Hne].
    + rewrite filter_cons_True by done. rewrite IH.
      rewrite list_lookup_insert_eq by (by eapply lookup_lt_Some). by rewrite Hi0.
    + rewrite filter_cons_False by (rewrite Hx; done). rewrite IH.
      by rewrite list_lookup_insert_ne.
Qed.

Lemma filter_eq_cons_inv {A} (P : A → Prop) `{∀ x, Decision (P x)} (l : list A) a r :
  filter P l = a :: r →
  ∃ l1 l2, l = l1 ++ a :: l2 ∧ filter P l1 = [] ∧ filter P l2 = r.
Proof.
  induction l as [|x l IH]; [done|]. rewrite filter_cons. case_decide as Hx.
  - intros [= -> <-]. by exists [], l.
  - intros Hf. destruct (IH Hf) as (l1 & l2 & -> & H1 & H2).
    exists (x :: l1), l2. split; [done|]. by rewrite filter_cons_False.
Qed.

Lemma filter_eq_two_inv {A} (P : A → Prop) `{∀ x, Decision (P x)} (l : list A) a b :
  filter P l = [a; b] →
  ∃ l1 l2 l3, l = l1 ++ a :: l2 ++ b :: l3 ∧
              filter P l1 = [] ∧ filter P l2 = [] ∧ filter P l3 = [].
Proof.
  intros Hf. destruct (filter_eq_cons_inv P l a [b] Hf) as (l1 & l' & -> & H1 & H').
  destruct (filter_eq_cons_inv P l' b [] H') as (l2 & l3 & -> & H2 & H3).
  by exists l1, l2, l3.
Qed.

Variables (returned started : nat → bool) (bucket url : string).
Hypothesis url_nonempty : url ≠ EmptyString.

Let task_calls (i : nat) (args : string * string) : list (nat * event) :=
  if started i then upload returned bucket (Some url) i args else [].

Lemma upload_calls i local key :
  upload returned bucket (Some url) i (local, key) =
    (i, EvUploadFile local bucket key (returned i)) ::
    (if returned i then [(i, EvSendMessage url key)] else []).
Proof.
  unfold upload, truthy. by rewrite (proj2 (String.eqb_neq url EmptyString) url_nonempty).
Qed.

Lemma task_calls_tagged (pairs : list (string * string)) j t e :
  imap task_calls pairs !! j = Some t → e ∈ t → e.1 = j.
Proof.
  rewrite list_lookup_imap. destruct (pairs !! j) as [[local key]|]; [|done].
  intros [= <-]. unfold task_calls. destruct (started j); [|by intros ?%elem_of_nil].
  rewrite upload_calls. intros He.
  destruct (returned j);
    repeat (apply elem_of_cons in He as [->|He]; [done|]); by apply elem_of_nil in He.
Qed.

(** Counting over the calls of all tasks, task by task. *)
Lemma count_concat_imap {A E} (P Q : E → bool) (f : nat → A → list E) (l : list A) :
  (∀ i a, l !! i = Some a →
          length (filter P (f i a)) = length (filter Q (f i a))) →
  length (filter P (concat (imap f l))) = length (filter Q (concat (imap f l))).
Proof.
  revert f. induction l as [|a l IH]; intros f Hf; [done|].
  cbn [imap concat]. rewrite !filter_app, !length_app.
  rewrite (IH (f ∘ S)); [|intros i a' Hi; by apply (Hf (S i))].
  by rewrite (Hf 0%nat a).
Qed.

Lemma count_concat_imap_one {A E} (P : E → bool) (f : nat → A → list E) (l : list A) :
  (∀ i a, l !! i = Some a → length (filter P (f i a)) = 1%nat) →
  length (filter P (concat (imap f l))) = length l.
Proof.
  revert f. induction l as [|a l IH]; intros f Hf; [done|].
  cbn [imap concat length]. rewrite !filter_app, !length_app.
  rewrite (IH (f ∘ S)); [|intros i a' Hi; by apply (Hf (S i))].
  by rewrite (Hf 0%nat a).
Qed.

(** C9.  With a queue configured, in every possible order of the calls of the
    pool: a tile whose upload call returned has exactly one [send_message]
    call, made after that upload call, with the tile's key as body; there is
    no other [send_message] call; so there are as many messages as returned
    uploads, and one per pair when every upload returns. *)
Theorem upload_sends_key_after_upload (local_paths s3_paths : list string)
    (tr : list (nat * event)) :
  upload_images_to_s3 returned started local_paths bucket s3_paths (Some url) tr →
  (∀ i local key,
     zip local_paths s3_paths !! i = Some (local, key) →
     (i, EvUploadFile local bucket key true) ∈ tr →
     ∃ l1 l2 l3,
       tr = l1 ++ (i, EvUploadFile local bucket key true) ::
            l2 ++ (i, EvSendMessage url key) :: l3 ∧
       of_task i l1 = [] ∧ of_task i l2 = [] ∧ of_task i l3 = [])
  ∧ (∀ i url' body,
       (i, EvSendMessage url' body) ∈ tr →
       url' = url ∧
       ∃ local, zip local_paths s3_paths !! i = Some (local, body) ∧
                (i, EvUploadFile local bucket body true) ∈ tr)
  ∧ length (filter is_send tr) = length (filter is_upload_returned tr)
  ∧ ((∀ i, returned i = true) →
       length (filter is_send tr) = length (zip local_paths s3_paths)).
Proof.
  intros [Hcancel Hmerge]. cbn zeta in Hcancel, Hmerge.
  set (pairs := zip local_paths s3_paths) in *.
  change (λ i args, if started i then upload returned bucket (Some url) i args else [])
    with task_calls in Hmerge.
  pose proof (merge_of_task _ _ Hmerge (task_calls_tagged pairs)) as Hproj.
  assert (∀ i local key, pairs !! i = Some (local, key) →
            of_task i tr = task_calls i (local, key)) as Hof.
  { intros i local key Hi. rewrite Hproj, list_lookup_imap, Hi. done. }
  assert (∀ i e, e ∈ tr → e.1 = i → e ∈ of_task i tr) as Hin.
  { intros i e He Hi. unfold of_task. apply list_elem_of_filter. done. }
  split; [|split; [|split]].
  - intros i local key Hi Hup.
    apply (Hin i) in Hup; [|done]. rewrite (Hof _ _ _ Hi) in Hup.
    pose proof (Hof _ _ _ Hi) as Hi'. unfold task_calls in Hup, Hi'.
    destruct (started i); [|by apply elem_of_nil in Hup].
    rewrite upload_calls in Hup, Hi'. destruct (returned i).
    + by apply filter_eq_two_inv in Hi'.
    + apply elem_of_cons in Hup as [[=]|Hup]. by apply elem_of_nil in Hup.
  - intros i url' body Hsend.
    pose proof (Hin i _ Hsend eq_refl) as Hsend'. rewrite Hproj, list_lookup_imap in Hsend'.
    destruct (pairs !! i) as [[local key]|] eqn:Hi; [|by apply elem_of_nil in Hsend'].
    cbn in Hsend'. pose proof (Hof _ _ _ Hi) as Hi'. unfold task_calls in Hsend', Hi'.
    destruct (started i); [|by apply elem_of_nil in Hsend'].
    rewrite upload_calls in Hsend', Hi'.
    destruct (returned i);
      repeat (apply elem_of_cons in Hsend' as [Heq|Hsend']; [try discriminate|]);
      try (by apply elem_of_nil in Hsend').
    injection Heq as -> ->.
    split; [done|]. exists local. split; [done|].
    assert ((i, EvUploadFile local bucket key true) ∈ of_task i tr) as Hup
      by (rewrite Hi'; left).
    unfold of_task in Hup. by apply list_elem_of_filter in Hup as [_ ?].
  - rewrite (merge_perm _ _ Hmerge). apply count_concat_imap.
    intros i [local key] _. unfold task_calls. destruct (started i); [|done].
    rewrite upload_calls. by destruct (returned i).
  - intros Hall. rewrite (merge_perm _ _ Hmerge). apply count_concat_imap_one.
    intros i [local key] Hi. unfold task_calls.
    destruct (started i) eqn:Hs.
    + by rewrite upload_calls, Hall.
    + destruct (Hcancel i (lookup_lt_Some _ _ _ Hi) Hs) as (j & _ & _ & Hj).
      by rewrite Hall in Hj.
Qed.

End UploadFacts.

Lemma two_tiles_run :
  upload_images_to_s3 (λ _, true) (λ _, true)
    ["tiles/0000.png"; "tiles/0001.png"] "am-segm"
    ["g1/source/0000.png"; "g1/source/0001.png"] (Some "queue") two_tiles_trace.
Proof.
  split.
  - intros i _ [=].
  - cbn. unfold two_tiles_trace.
    eapply (merge_step _ 0%nat); [reflexivity|]. cbn.
    eapply (merge_step _ 1%nat); [reflexivity|]. cbn.
    eapply (merge_step _ 1%nat); [reflexivity|]. cbn.
    eapply (merge_step _ 0%nat); [reflexivity|]. cbn.
    apply merge_done. by repeat constructor.
Qed.

Lemma upload_sends_key_after_upload_witness :
  length (filter is_send two_tiles_trace) = 2%nat.
Proof.
  assert ("queue" ≠ EmptyString) as Hq by discriminate.
  destruct (upload_sends_key_after_upload (λ _, true) (λ _, true) "am-segm" "queue" Hq
              ["tiles/0000.png"; "tiles/0001.png"]
              ["g1/source/0000.png"; "g1/source/0001.png"] two_tiles_trace two_tiles_run)
    as (_ & _ & _ & Hall).
  apply Hall. done.
Defined.

Lemma sim_honours_max : honours_max_messages sim.
Proof. intros b url k. cbn. rewrite length_take. lia. Qed.

(** C4.  [consume_messages(url, n)] makes exactly [n] receive calls one after
    the other (none when [n] is negative), each asking for at most one
    message, and returns one body and one handle per message received; when
    the queue keeps to the number asked for, every round brings at most one
    message and at most [n] messages are returned.  Against a queue holding
    3 messages a call with [n = 8] returns exactly these 3, in 8 rounds of
    which 5 came back empty. *)
Theorem consume_messages_rounds :
  (∀ (B : Type) (HB : Backend B) (w : World B) (url : string) (n : Z),
     ∃ w' evs paths handles,
       consume_messages url n w = Some (Ok (paths, handles), w') ∧
       history w' = history w ++ evs ∧
       length evs = Z.to_nat n ∧
       length (responses evs) = Z.to_nat n ∧
       requested evs = replicate (Z.to_nat n) 1 ∧
       length paths = length (concat (responses evs)) ∧
       length handles = length (concat (responses evs)) ∧
       (honours_max_messages B →
          Forall (λ r, (length r ≤ 1)%nat) (responses evs) ∧
          (length paths ≤ Z.to_nat n)%nat))
  ∧ (let run := consume_messages "queue" 8 (sim_world ∅ three_messages) in
     fst <$> run =
       Some (Ok (map Body three_messages, map ReceiptHandle three_messages)) ∧
     (λ r, responses (history r.2)) <$> run =
       Some (((λ m, [m]) <$> three_messages) ++ replicate 5 [])).
Proof.
  split.
  - intros B HB w url n.
    destruct (consume_messages_spec url n w) as (w' & evs & Hrun & Hh & Hl & Hr & Hq & Hmax).
    exists w', evs, (map Body (concat (responses evs))),
      (map ReceiptHandle (concat (responses evs))).
    rewrite !length_map. repeat split; try done; by apply Hmax.
  - split; vm_compute; reflexivity.
Qed.

Lemma consume_messages_rounds_witness :
  ∃ w' evs paths handles,
    consume_messages "queue" 8 (sim_world ∅ three_messages) =
      Some (Ok (paths, handles), w') ∧
    history w' = evs ∧
    Forall (λ r, (length r ≤ 1)%nat) (responses evs) ∧ (length paths ≤ 8)%nat.
Proof.
  destruct (proj1 consume_messages_rounds sim sim_backend
              (sim_world ∅ three_messages) "queue" 8)
    as (w' & evs & paths & handles & Hrun & Hh & _ & _ & _ & _ & _ & Hmax).
  destruct (Hmax sim_honours_max) as [Hone Hlen].
  exists w', evs, paths, handles.
  split; [exact Hrun|]. split; [exact Hh|]. split; [exact Hone|exact Hlen].
Defined.

Lemma consume_messages_aligned_witness :
  ∃ w' evs paths handles,
    consume_messages "queue" 8 (sim_world ∅ three_messages) =
      Some (Ok (paths, handles), w') ∧
    history w' = evs ∧
    (∀ body handle,
       paths !! 1%nat = Some body → handles !! 1%nat = Some handle →
       ∃ m, concat (responses evs) !! 1%nat = Some m ∧
            Body m = body ∧ ReceiptHandle m = handle).
Proof.
  destruct (consume_messages_aligned "queue" 8 (sim_world ∅ three_messages))
    as (w' & evs & paths & handles & Hrun & Hh & _ & _ & _ & Hk).
  exists w', evs, paths, handles. split; [done|]. split; [done|].
  intros body handle. apply Hk.
Defined.

Lemma sim_count n (queue : list message) :
  (dicts (sim_world (cfg_with_count n) queue) !!! 0%nat) !! "count" = Some (PInt n).
Proof.
  unfold sim_world, cfg_with_count. cbn. rewrite lookup_total_singleton_eq.
  apply lookup_insert_eq.
Qed.

Lemma launch_tasks_batches_witness :
  ∃ runs w',
    launch_tasks 3 0 (sim_world (cfg_with_count 13) []) = Some (Ok (launched runs), w') ∧
    batch_sizes runs = [10; 3] ∧ sleeps (sep_by (EvSleep 5) runs) = [5].
Proof.
  destruct (launch_tasks_batches (sim_world (cfg_with_count 13) []) 0 13 3
              (sim_count 13 []) (le_n 3)) as [Hin _].
  destruct Hin as (runs & w' & Hrun & _ & _ & _ & _ & _ & H13); [lia|].
  exists runs, w'. destruct (H13 eq_refl). done.
Defined.

Lemma out_of_range_count_rejected_witness :
  ∃ w', run_wait_for_inference_task 0 0 (Nullary (λ _, true)) 10 300
          (sim_world (cfg_with_count 21) []) = Some (Raise AssertionError, w') ∧
        (dicts w' !!! 0%nat) !! "count" = None.
Proof.
  destruct (out_of_range_count_rejected (sim_world (cfg_with_count 21) []) 0 21
              (Nullary (λ _, true)) 10 300 0 (sim_count 21 [])) as (w' & Hr & _ & _ & _ & _ & Hc & _);
    [lia|].
  exists w'. done.
Defined.

Lemma wait_returns_at_first_true_witness :
  ∃ w' evs,
    wait_for_stop 1 ["task/0"] (Nullary (λ _, true)) 10 300
      (sim_world (cfg_with_count 1) []) = Some (Ok tt, w') ∧
    history w' = evs ∧ sleeps evs = [10].
Proof.
  destruct (wait_returns_at_first_true ["task/0"] (λ _, true) 10 300
              (sim_world (cfg_with_count 1) [])) as [Hfirst _]; [lia|].
  destruct (Hfirst 0%nat 1%nat) as (w' & evs & Hr & _ & Hh & _ & _ & _ & H0);
    [intros j Hj; lia | reflexivity | lia | lia |].
  exists w', evs. destruct (H0 eq_refl) as [_ Hs]. done.
Defined.

Lemma wait_times_out_witness :
  ∃ w' evs,
    wait_for_stop 4 ["task/0"] (Nullary (λ _, false)) 10 30
      (sim_world (cfg_with_count 1) []) = Some (Raise (ExcTimeout 30), w') ∧
    history w' = evs ∧ polls evs = 3%nat ∧ now w' = 1030.
Proof.
  destruct (wait_times_out ["task/0"] (λ _, false) 10 30
              (sim_world (cfg_with_count 1) []) 4)
    as (w' & evs & Hr & Hh & _ & _ & _ & _ & _ & H30);
    [lia | done | change (3 < 4)%nat; lia |].
  exists w', evs. destruct (H30 eq_refl eq_refl) as [Hp Hn]. cbn in Hh, Hn. done.
Defined.

(** C5 as stated fails: a stop predicate on the polled statuses, true of the
    statuses of the first poll, does not make the wait return normally. *)
Lemma wait_does_not_pass_statuses :
  ¬ returns_when_statuses_satisfy (λ statuses, forallb (String.eqb "RUNNING") statuses)
      ["task/0"] 10 300 (sim_world (cfg_with_count 1) []).
Proof.
  intros Hp. destruct Hp as (fuel & w' & Hrun); [reflexivity|].
  destruct fuel as [|fuel]; [discriminate|].
  unfold wait_for_stop, bind, time in Hrun.
  destruct (wait_loop_unary ["task/0"] 10 300 fuel
              (now (sim_world (cfg_with_count 1) []) + 300)
              (λ statuses, forallb (String.eqb "RUNNING") statuses)
              (sim_world (cfg_with_count 1) [])) as (w1 & Hw1 & _); [cbn; lia | lia |].
  rewrite Hw1 in Hrun. discriminate.
Qed.

(** C8 as stated fails: with [count = 21] the call raises, but the caller's
    dictionary has lost its [count] entry. *)
Lemma out_of_range_count_mutates_config :
  ¬ rejected_without_side_effect 3 0 (Nullary (λ _, true)) 10 300
      (sim_world (cfg_with_count 21) []).
Proof.
  intros (e & w' & Hrun & _ & Hd).
  rewrite (run_wait_rejects _ _ 21 _ _ _ _ (sim_count 21 [])) in Hrun by lia.
  injection Hrun as _ <-. cbn in Hd. rewrite lookup_total_insert_eq in Hd.
  apply (f_equal (λ m : gmap string pyval, m !! "count")) in Hd.
  rewrite lookup_delete_eq in Hd.
  change (dicts (sim_world (cfg_with_count 21) []) !!! 0%nat) with
    ({[ 0%nat := cfg_with_count 21 ]} !!! 0%nat : gmap string pyval) in Hd.
  rewrite lookup_total_singleton_eq in Hd. unfold cfg_with_count in Hd.
  rewrite lookup_insert_eq in Hd. discriminate.
Qed.

End EcsSpec.

(** * Properties of stitching and of the metadata *)

Module TilesSpec.
Import Tiles.
Local Open Scope nat_scope.

Section ArrayFacts.
Implicit Types (a image tile : array) (y x : nat).

Lemma has_shape_zeros nr nc : has_shape nr nc (zeros nr nc).
Proof.
  split; [apply length_replicate|].
  apply Forall_forall. intros row Hrow%elem_of_replicate. destruct Hrow as [-> _].
  apply length_replicate.
Qed.

Lemma array_shape_of nr nc a : 0 < nr → has_shape nr nc a → array_shape a = (nr, nc).
Proof.
  intros Hnr [Hl Hrows]. unfold array_shape. destruct a as [|row a]; cbn in *; [lia|].
  apply Forall_cons in Hrows as [-> _]. by rewrite Hl.
Qed.

Lemma px_has_shape nr nc a y x :
  has_shape nr nc a → y < nr → x < nc → ∃ v, px a y x = Some v.
Proof.
  intros [Hl Hrows] Hy Hx. unfold px.
  destruct (lookup_lt_is_Some_2 a y) as [row Hrow]; [lia|].
  rewrite Hrow. cbn.
  assert (length row = nc) as Hlr
    by (eapply (proj1 (Forall_forall _ _) Hrows), list_elem_of_lookup_2, Hrow).
  apply lookup_lt_is_Some_2. lia.
Qed.

(** Two arrays of one shape with the same pixels are equal. *)
Lemma array_eq nr nc a1 a2 :
  has_shape nr nc a1 → has_shape nr nc a2 →
  (∀ y x, y < nr → x < nc → px a1 y x = px a2 y x) → a1 = a2.
Proof.
  intros [Hl1 Hr1] [Hl2 Hr2] Hpx. apply list_eq_same_length with nr; try done.
  intros y row1 row2 Hy Hrow1 Hrow2.
  assert (length row1 = nc) as Hlr1
    by (eapply (proj1 (Forall_forall _ _) Hr1), list_elem_of_lookup_2, Hrow1).
  assert (length row2 = nc) as Hlr2
    by (eapply (proj1 (Forall_forall _ _) Hr2), list_elem_of_lookup_2, Hrow2).
  apply list_eq_same_length with nc; try done.
  intros x v1 v2 Hx Hv1 Hv2. specialize (Hpx y x Hy Hx). unfold px in Hpx.
  rewrite Hrow1, Hrow2 in Hpx. cbn in Hpx. congruence.
Qed.

(** A tile that fits is written into its block and nothing else changes. *)
Lemma assign_block_fits nr nc ts image r0 c0 tile :
  0 < ts → has_shape nr nc image → has_shape ts ts tile →
  r0 + ts ≤ nr → c0 + ts ≤ nc →
  ∃ image',
    assign_block image r0 (r0 + ts) c0 (c0 + ts) tile = Ok image' ∧
    has_shape nr nc image' ∧
    ∀ y x, y < nr → x < nc →
      px image' y x =
        if (r0 <=? y) && (y <? r0 + ts) && (c0 <=? x) && (x <? c0 + ts)
        then px tile (y - r0) (x - c0) else px image y x.
Proof.
  intros Hts Himg Htile Hr Hc. unfold assign_block.
  rewrite (array_shape_of nr nc image) by (done || lia).
  rewrite (array_shape_of ts ts tile) by done.
  replace (min (r0 + ts) nr - min r0 nr) with ts by lia.
  replace (min (c0 + ts) nc - min c0 nc) with ts by lia.
  unfold broadcastable. rewrite Nat.eqb_refl. cbn [orb andb].
  eexists. split; [reflexivity|]. split.
  - destruct Himg as [Hl Hrows]. split; [by rewrite length_imap|].
    apply Forall_forall. intros row Hrow.
    apply list_elem_of_lookup in Hrow as [y Hy]. rewrite list_lookup_imap in Hy.
    destruct (image !! y) as [row0|] eqn:Hrow0; [|done]. injection Hy as <-.
    rewrite length_imap.
    eapply (proj1 (Forall_forall _ _) Hrows), list_elem_of_lookup_2, Hrow0.
  - intros y x Hy Hx. unfold px at 1. rewrite list_lookup_imap.
    destruct (px_has_shape _ _ _ y x Himg Hy Hx) as [v Hv].
    unfold px in Hv |- *. destruct (image !! y) as [row|]; [|done].
    cbn [fmap option_fmap option_map mbind option_bind] in Hv |- *.
    rewrite list_lookup_imap, Hv.
    cbn [fmap option_fmap option_map mbind option_bind].
    destruct ((r0 <=? y) && (y <? r0 + ts) && (c0 <=? x) && (x <? c0 + ts)) eqn:Hin; [|done].
    apply andb_prop in Hin as [Hin Hx2]. apply andb_prop in Hin as [Hin Hx1].
    apply andb_prop in Hin as [Hy1 Hy2].
    apply Nat.leb_le in Hy1, Hx1. apply Nat.ltb_lt in Hy2, Hx2.
    replace (if ts =? 1 then 0 else y - r0) with (y - r0)
      by (destruct (Nat.eqb_spec ts 1); lia).
    replace (if ts =? 1 then 0 else x - c0) with (x - c0)
      by (destruct (Nat.eqb_spec ts 1); lia).
    destruct (px_has_shape _ _ _ (y - r0) (x - c0) Htile) as [v' Hv']; [lia|lia|].
    fold (px tile (y - r0) (x - c0)). by rewrite Hv'.
Qed.

Lemma in_block_iff r0 r1 c0 c1 y x :
  (r0 <=? y) && (y <? r1) && (c0 <=? x) && (x <? c1) = true ↔
  (r0 ≤ y < r1) ∧ (c0 ≤ x < c1).
Proof.
  rewrite !andb_true_iff, !Nat.leb_le, !Nat.ltb_lt. lia.
Qed.

Lemma has_shape_slice2 nr nc a r0 r1 c0 c1 :
  has_shape nr nc a → r0 ≤ r1 ≤ nr → c0 ≤ c1 ≤ nc →
  has_shape (r1 - r0) (c1 - c0) (slice2 a r0 r1 c0 c1).
Proof.
  intros [Hl Hrows] Hr Hc. unfold slice2. split.
  - rewrite length_fmap, length_take, length_drop. lia.
  - apply Forall_fmap, Forall_take, Forall_drop.
    eapply Forall_impl; [exact Hrows|]. intros row Hrow. unfold compose.
    rewrite length_take, length_drop. cbv beta in Hrow. lia.
Qed.

Lemma px_slice2 a r0 r1 c0 c1 y x :
  y < r1 - r0 → x < c1 - c0 →
  px (slice2 a r0 r1 c0 c1) y x = px a (r0 + y) (c0 + x).
Proof.
  intros Hy Hx. unfold px, slice2.
  rewrite list_lookup_fmap, lookup_take_lt, lookup_drop by done.
  destruct (a !! (r0 + y)) as [row|]; [|done]. cbn.
  by rewrite lookup_take_lt, lookup_drop.
Qed.

End ArrayFacts.

Section Loops.
Context {S : Type}.

(** A loop over [range(a, a+m)] whose body keeps an invariant. *)
Lemma for_each_seq_inv (I : nat → S → Prop) (body : nat → S → result S) a m s :
  I a s →
  (∀ k s0, a ≤ k < a + m → I k s0 → ∃ s', body k s0 = Ok s' ∧ I (k + 1) s') →
  ∃ s', for_each (seq a m) body s = Ok s' ∧ I (a + m) s'.
Proof.
  revert a s. induction m as [|m IH]; intros a s Hs Hbody.
  - exists s. by rewrite Nat.add_0_r.
  - cbn [seq for_each]. destruct (Hbody a s) as (s1 & -> & Hs1); [lia|done|].
    destruct (IH (a + 1) s1) as (s' & Hrun & Hs').
    + done.
    + intros k s0 Hk. apply Hbody. lia.
    + exists s'. replace (Datatypes.S a) with (a + 1) by lia. rewrite Hrun.
      split; [done|]. by replace (a + Datatypes.S m) with (a + 1 + m) by lia.
Qed.

(** A loop that comes to an element on which the body always raises ends in
    an exception. *)
Lemma for_each_raises {A} (xs : list A) (body : A → S → result S) s x :
  x ∈ xs → (∀ s0, is_ok (body x s0) = false) → is_ok (for_each xs body s) = false.
Proof.
  intros Hx Hbody. revert s. induction xs as [|x0 xs IH]; intros s.
  - by apply elem_of_nil in Hx.
  - cbn [for_each]. destruct (body x0 s) as [s1|e] eqn:Hb; [|done].
    apply elem_of_cons in Hx as [->|Hx]; [|by apply IH].
    specialize (Hbody s). by rewrite Hb in Hbody.
Qed.

End Loops.

(** *** Stitching a complete list of tiles *)

Section Stitch.
Variables (tiles : list (option array)) (ts nrows ncols : nat).
Hypothesis ts_pos : 0 < ts.
Hypothesis tiles_complete :
  ∀ k, k < nrows * ncols → ∃ t, tiles !! k = Some (Some t) ∧ has_shape ts ts t.

Let stitched (image : array) : Prop := has_shape (ts * nrows) (ts * ncols) image.

(** The inner loop fills row [i] of the grid and keeps the rows above. *)
Lemma stitch_row i image :
  i < nrows → stitched image →
  (∀ i' j', i' < i → j' < ncols → placed tiles ts ncols image i' j') →
  ∃ image',
    for_each (seq 0 ncols) (λ j image,
      match tiles !! (i * ncols + j) with
      | None => Raise IndexError
      | Some None => Raise TypeError
      | Some (Some tile) =>
          assign_block image (i * ts) ((i + 1) * ts) (j * ts) ((j + 1) * ts) tile
      end) image = Ok image' ∧
    stitched image' ∧
    (∀ i' j', i' < i + 1 → j' < ncols → placed tiles ts ncols image' i' j').
Proof.
  intros Hi Hshape Habove.
  pose (I := λ (j : nat) (img : array),
          stitched img ∧
          ∀ i' j', (i' < i ∨ (i' = i ∧ j' < j)) → j' < ncols →
                   placed tiles ts ncols img i' j').
  destruct (for_each_seq_inv I
              (λ j image, match tiles !! (i * ncols + j) with
                          | None => Raise IndexError
                          | Some None => Raise TypeError
                          | Some (Some tile) =>
                              assign_block image (i * ts) ((i + 1) * ts)
                                (j * ts) ((j + 1) * ts) tile
                          end) 0 ncols image) as (image' & Hrun & Hsh' & Hpl').
  - split; [done|]. intros i' j' [Hlt|[_ Hlt]] Hj'; [by apply Habove | lia].
  - intros j img Hj [Hsh Hpl]. cbv beta.
    destruct (tiles_complete (i * ncols + j)) as (t & Ht & Htile); [nia|].
    rewrite Ht.
    replace ((i + 1) * ts) with (i * ts + ts) by lia.
    replace ((j + 1) * ts) with (j * ts + ts) by lia.
    destruct (assign_block_fits (ts * nrows) (ts * ncols) ts img (i * ts) (j * ts) t)
      as (img' & -> & Hsh' & Hpx); [done|done|done|nia|nia|].
    exists img'. split; [done|]. split; [done|].
    intros i' j' Hij Hj' t' y x Ht' Hy Hx.
    rewrite Hpx by nia.
    destruct ((i * ts <=? i' * ts + y) && (i' * ts + y <? i * ts + ts) &&
              (j * ts <=? j' * ts + x) && (j' * ts + x <? j * ts + ts)) eqn:Hin.
    + apply in_block_iff in Hin as [Hy' Hx'].
      assert (i' = i) as -> by nia. assert (j' = j) as -> by nia.
      rewrite Ht in Ht'. injection Ht' as <-.
      by replace (i * ts + y - i * ts) with y by lia;
         replace (j * ts + x - j * ts) with x by lia.
    + destruct (decide (i' = i ∧ j' = j)) as [[-> ->]|Hne].
      * assert ((i * ts <=? i * ts + y) && (i * ts + y <? i * ts + ts) &&
                (j * ts <=? j * ts + x) && (j * ts + x <? j * ts + ts) = true) as Hin'
          by (apply in_block_iff; lia).
        by rewrite Hin' in Hin.
      * apply Hpl; [lia|done|done|done|done].
  - exists image'. split; [done|]. split; [done|].
    intros i' j' Hi' Hj'. apply Hpl'; [|done]. cbn. lia.
Qed.

(** Both loops: every block of the grid shows its tile. *)
Lemma stitch_grid :
  ∃ image,
    for_each (seq 0 nrows) (λ i image,
      for_each (seq 0 ncols) (λ j image,
        match tiles !! (i * ncols + j) with
        | None => Raise IndexError
        | Some None => Raise TypeError
        | Some (Some tile) =>
            assign_block image (i * ts) ((i + 1) * ts) (j * ts) ((j + 1) * ts) tile
        end) image) (zeros (ts * nrows) (ts * ncols)) = Ok image ∧
    stitched image ∧
    (∀ i j, i < nrows → j < ncols → placed tiles ts ncols image i j).
Proof.
  pose (I := λ (i : nat) (img : array),
          stitched img ∧
          ∀ i' j', i' < i → j' < ncols → placed tiles ts ncols img i' j').
  destruct (for_each_seq_inv I
              (λ i image,
                 for_each (seq 0 ncols) (λ j image,
                   match tiles !! (i * ncols + j) with
                   | None => Raise IndexError
                   | Some None => Raise TypeError
                   | Some (Some tile) =>
                       assign_block image (i * ts) ((i + 1) * ts)
                         (j * ts) ((j + 1) * ts) tile
                   end) image) 0 nrows (zeros (ts * nrows) (ts * ncols)))
    as (image & Hrun & Hsh & Hpl).
  - split; [apply has_shape_zeros|]. intros i' j' Hi'. lia.
  - intros i img Hi [Hsh Hpl]. cbv beta.
    destruct (stitch_row i img) as (img' & Hrun & Hsh' & Hpl'); [lia|done|done|].
    by exists img'.
  - by exists image.
Qed.

(** The block at a grid position is the tile placed there. *)
Lemma placed_block image i j t :
  stitched image → i < nrows → j < ncols →
  placed tiles ts ncols image i j →
  tiles !! (i * ncols + j) = Some (Some t) → has_shape ts ts t →
  block image i j ts = t.
Proof.
  intros Hsh Hi Hj Hpl Ht Htile. unfold block.
  apply (array_eq ts ts); [|done|].
  - pose proof (has_shape_slice2 (ts * nrows) (ts * ncols) image
                  (i * ts) ((i + 1) * ts) (j * ts) ((j + 1) * ts) Hsh) as Hb.
    replace ((i + 1) * ts - i * ts) with ts in Hb by lia.
    replace ((j + 1) * ts - j * ts) with ts in Hb by lia.
    apply Hb; nia.
  - intros y x Hy Hx. rewrite px_slice2 by lia. by apply Hpl.
Qed.

(** C1 (as the code has it).  For [rows, cols, tile_size > 0] and a list whose
    first [rows*cols] entries are arrays of [tile_size] by [tile_size]
    pixels, [stitch_tiles] returns the image of exactly [rows*tile_size] by
    [cols*tile_size] pixels whose block at grid position [(i/cols, i%cols)]
    is tile [i], for every [i < rows*cols]. *)
Theorem stitch_tiles_places_tiles :
  0 < nrows → 0 < ncols →
  ∃ image,
    stitch_tiles tiles ts nrows ncols = Ok image ∧
    has_shape (nrows * ts) (ncols * ts) image ∧
    ∀ k t, k < nrows * ncols → tiles !! k = Some (Some t) →
           block image (k / ncols) (k mod ncols) ts = t.
Proof.
  intros Hr Hc. unfold stitch_tiles.
  destruct (tiles_complete 0) as (t0 & Ht0 & _); [nia|]. rewrite Ht0.
  destruct stitch_grid as (image & -> & Hsh & Hpl).
  exists image. split; [done|]. split.
  - unfold stitched in Hsh. by rewrite (Nat.mul_comm nrows), (Nat.mul_comm ncols).
  - intros k t Hk Ht.
    pose proof (Nat.div_mod_eq k ncols) as Hdm.
    pose proof (Nat.mod_upper_bound k ncols ltac:(lia)) as Hmod.
    assert (k / ncols < nrows) as Hdiv
      by (apply Nat.Div0.div_lt_upper_bound; lia).
    assert (k / ncols * ncols + k mod ncols = k) as Hk' by lia.
    destruct (tiles_complete k Hk) as (t' & Ht' & Htile).
    rewrite Ht in Ht'. injection Ht' as <-.
    apply placed_block; try done.
    + by apply Hpl.
    + by rewrite Hk'.
Qed.

End Stitch.

Lemma stitch_tiles_places_tiles_witness :
  ∃ image,
    stitch_tiles [Some [[1; 2]; [3; 4]]%Z; Some [[5; 6]; [7; 8]]%Z] 2 1 2 = Ok image ∧
    block image 0 1 2 = [[5; 6]; [7; 8]]%Z.
Proof.
  destruct (stitch_tiles_places_tiles
              [Some [[1; 2]; [3; 4]]%Z; Some [[5; 6]; [7; 8]]%Z] 2 1 2)
    as (image & Hrun & _ & Hblock).
  - lia.
  - intros [|[|k]] Hk; [| |cbn in Hk; lia];
      (eexists; split; [reflexivity|]; split; [reflexivity|by repeat constructor]).
  - lia.
  - lia.
  - exists image. split; [done|]. apply (Hblock 1); [cbn; lia | reflexivity].
Defined.

(** C1 as stated fails for lists that do not match the grid: a second tile for
    a grid of one is not in the image, and with one tile for a grid of two
    the call raises [IndexError] and there is no image. *)
Lemma stitch_tiles_other_lengths :
  ¬ stitch_places_every_tile [Some [[7]]%Z; Some [[8]]%Z] 1 1 1 ∧
  ¬ stitch_places_every_tile [Some [[7]]%Z] 1 1 2.
Proof.
  split.
  - intros (image & Hrun & _ & Hblock).
    vm_compute in Hrun. injection Hrun as <-.
    specialize (Hblock 1 [[8]]%Z eq_refl). vm_compute in Hblock. discriminate.
  - intros (image & Hrun & _). vm_compute in Hrun. discriminate.
Qed.

(** *** Stitching a directory with missing tiles *)

Section MissingTiles.
Variable cv2_resize : array → nat → nat → array.

Lemma for_each_preserves {A S} (P : S → Prop) (xs : list A)
    (body : A → S → result S) s s' :
  (∀ x s0 s1, P s0 → body x s0 = Ok s1 → P s1) →
  P s → for_each xs body s = Ok s' → P s'.
Proof.
  intros Hbody. revert s. induction xs as [|x xs IH]; intros s Hs; cbn [for_each].
  - by intros [= <-].
  - destruct (body x s) as [s1|e] eqn:Hb; [|done]. apply IH. by eapply Hbody.
Qed.

(** The list of loaded tiles is as long as the directory listing. *)
Lemma load_tiles_length tile_paths ts tiles :
  load_tiles cv2_resize tile_paths ts = Ok tiles → length tiles = length tile_paths.
Proof.
  unfold load_tiles.
  apply (for_each_preserves (λ l : list (option array), length l = length tile_paths)).
  - intros path l0 l1 Hl0. destruct (stem path <? length l0); [|done].
    intros [= <-]. by rewrite length_insert.
  - apply length_replicate.
Qed.

(** With fewer tiles than grid positions [stitch_tiles] raises. *)
Lemma stitch_tiles_too_few (tiles : list (option array)) ts nrows ncols :
  length tiles < nrows * ncols → is_ok (stitch_tiles tiles ts nrows ncols) = false.
Proof.
  intros Hlen. unfold stitch_tiles.
  destruct (tiles !! 0) as [[t0|]|]; [|done|done].
  assert (0 < ncols) as Hc by nia.
  pose proof (Nat.div_mod_eq (length tiles) ncols) as Hdm.
  pose proof (Nat.mod_upper_bound (length tiles) ncols ltac:(lia)) as Hmod.
  assert (length tiles / ncols < nrows) as Hdiv
    by (apply Nat.Div0.div_lt_upper_bound; lia).
  apply (for_each_raises _ _ _ (length tiles / ncols)).
  { apply elem_of_seq. lia. }
  intros img. apply (for_each_raises _ _ _ (length tiles mod ncols)).
  { apply elem_of_seq. lia. }
  intros img'. rewrite lookup_ge_None_2; [done|lia].
Qed.

(** C2 (what the code does).  With fewer tile files than [rows*cols] the
    mismatch is logged as a warning and nothing else, but no stitched image
    is produced: the call ends in an exception. *)
Theorem lenient_stitching_raises_on_missing_tiles tile_paths ts meta :
  length tile_paths < rows (tile meta) * cols (tile meta) →
  (stitch_and_crop_tiles cv2_resize tile_paths ts meta).1 =
    [TileCountMismatch (length tile_paths) meta] ∧
  is_ok (stitch_and_crop_tiles cv2_resize tile_paths ts meta).2 = false.
Proof.
  intros Hlen. unfold stitch_and_crop_tiles. cbn [fst snd]. split.
  - destruct (Nat.eqb_spec (length tile_paths) (rows (tile meta) * cols (tile meta)));
      [lia|done].
  - destruct (load_tiles cv2_resize tile_paths ts) as [tiles|e] eqn:Hload; [|done].
    apply load_tiles_length in Hload.
    pose proof (stitch_tiles_too_few tiles ts (rows (tile meta)) (cols (tile meta))) as Hst.
    destruct (stitch_tiles tiles ts (rows (tile meta)) (cols (tile meta))); [|done].
    cbn in Hst. rewrite Hload in Hst. by specialize (Hst Hlen).
Qed.

End MissingTiles.

(** With more files than grid positions the warning is logged and the image
    is stitched from the first [rows*cols] tiles. *)
Example lenient_stitching_ignores_extra_tiles :
  stitch_and_crop_tiles (λ t _ _, t) five_tile_files 1 meta_2x2 =
    ([TileCountMismatch 5 meta_2x2], Ok [[10; 11]; [12; 13]]%Z).
Proof. reflexivity. Qed.

(** The earlier module with a [stitch_tiles] like the one above raises in the
    same way. *)
Example am_segm_stitching_raises_on_missing_tiles :
  am_segm_stitch_and_crop_tiles stitch_tiles three_tile_files 1 meta_2x2 =
    ([TileCountMismatch 3 meta_2x2], Raise IndexError).
Proof. reflexivity. Qed.

Lemma lenient_stitching_raises_on_missing_tiles_witness :
  stitch_and_crop_tiles (λ t _ _, t) three_tile_files 1 meta_2x2 =
    ([TileCountMismatch 3 meta_2x2], Raise IndexError) ∧
  is_ok (stitch_and_crop_tiles (λ t _ _, t) three_tile_files 1 meta_2x2).2 = false.
Proof.
  split; [reflexivity|].
  apply (lenient_stitching_raises_on_missing_tiles (λ t _ _, t) three_tile_files 1 meta_2x2).
  cbn. lia.
Defined.

(** *** The metadata record written when slicing *)

Section Metadata.
Variable img : Type.
Variable shape : img → list Z.
Variable cv2_resize : img → Z → Z → img.
Variable compute_tile_row_col_n : list Z → Z → Z * Z.
Variable pad_slice_image : img → Z → Z * Z → list img.

Lemma metadata_written_tiles (f : nat → img → fs_write img) (tiles : list img) :
  (∀ i t, ∃ width k, f i t = SaveTile width k t) →
  metadata_written (imap f tiles) = [].
Proof.
  revert f. induction tiles as [|t tiles IH]; intros f Hf; [done|].
  cbn [imap]. unfold metadata_written in *. cbn [omap].
  destruct (Hf 0 t) as (width & k & ->). apply (IH (f ∘ Datatypes.S)).
  intros i t'. apply Hf.
Qed.

Lemma metadata_written_json name value (ws : list (fs_write img)) :
  metadata_written (WriteJson name value :: ws) = value :: metadata_written ws.
Proof. reflexivity. Qed.

(** The record of [src/am/segment/preprocess.py]: three members. *)
Lemma slice_to_tiles_meta image tile_size writes :
  slice_to_tiles img shape cv2_resize compute_tile_row_col_n pad_slice_image
    image tile_size = Ok writes →
  ∃ orig_h orig_w height width tile_row_n tile_col_n,
    metadata_written writes =
      [JObj [("orig_image", JObj [("h", JInt orig_h); ("w", JInt orig_w)]);
             ("image", JObj [("h", JInt height); ("w", JInt width)]);
             ("tile", JObj [("rows", JInt tile_row_n); ("cols", JInt tile_col_n);
                            ("size", JInt tile_size)])]].
Proof.
  unfold slice_to_tiles.
  destruct (shape image) as [|orig_h [|orig_w ?]]; [done|done|].
  destruct (shrink_to _ _ _ _ _) as [image'|]; [|done].
  destruct (compute_tile_row_col_n _ _) as [tile_row_n tile_col_n].
  destruct (shape image') as [|height [|width ?]]; [done|done|].
  intros [= <-]. exists orig_h, orig_w, height, width, tile_row_n, tile_col_n.
  rewrite metadata_written_json, metadata_written_tiles; [done|].
  intros i t. by exists 4, i.
Qed.

(** The record of [am_segm/preprocess.py]: two members. *)
Lemma am_segm_slice_image_meta image writes :
  am_segm_slice_image img shape cv2_resize compute_tile_row_col_n pad_slice_image
    image = Ok writes →
  ∃ height width tile_row_n tile_col_n,
    metadata_written writes =
      [JObj [("image", JObj [("h", JInt height); ("w", JInt width)]);
             ("tile", JObj [("rows", JInt tile_row_n); ("cols", JInt tile_col_n);
                            ("size", JInt 512)])]].
Proof.
  unfold am_segm_slice_image.
  destruct (shrink_to _ _ _ _ _) as [image'|]; [|done].
  destruct (compute_tile_row_col_n _ _) as [tile_row_n tile_col_n].
  destruct (shape image') as [|height [|width [|? ?]]]; [done|done| |done].
  intros [= <-]. exists height, width, tile_row_n, tile_col_n.
  rewrite metadata_written_json, metadata_written_tiles; [done|].
  intros i t. by exists 3, i.
Qed.

Lemma metadata_written_app (ws1 ws2 : list (fs_write img)) :
  metadata_written (ws1 ++ ws2) = metadata_written ws1 ++ metadata_written ws2.
Proof. apply omap_app. Qed.

(** C7 (as the code has it).  Every metadata record written by
    [slice_to_tiles] of [src/am/segment/preprocess.py] has the three members
    [orig_image], [image] and [tile] with integer [h], [w] and [rows],
    [cols], [size]: it conforms to the schema, and it is the only record
    written.  Every record written by [slice_to_tiles] of
    [am_segm/preprocess.py] has [image] and [tile] of that form and no
    [orig_image]. *)
Theorem persisted_metadata_members :
  (∀ image tile_size writes,
     slice_to_tiles img shape cv2_resize compute_tile_row_col_n pad_slice_image
       image tile_size = Ok writes →
     persisted_metadata_conforms writes ∧ length (metadata_written writes) = 1)
  ∧ (∀ images,
       Forall (λ meta,
                 has_member ["h"; "w"] "image" meta = true ∧
                 has_member ["rows"; "cols"; "size"] "tile" meta = true ∧
                 (∀ members, meta = JObj members →
                             dict_get members "orig_image" = None))
         (metadata_written
            (am_segm_slice_to_tiles img shape cv2_resize compute_tile_row_col_n
               pad_slice_image images).1)).
Proof.
  split.
  - intros image tile_size writes Hrun.
    destruct (slice_to_tiles_meta _ _ _ Hrun) as (? & ? & ? & ? & ? & ? & Hm).
    unfold persisted_metadata_conforms. rewrite Hm. split; [|done].
    by repeat constructor.
  - induction images as [|image images IH]; cbn [am_segm_slice_to_tiles].
    + constructor.
    + destruct (am_segm_slice_image _ _ _ _ _ image) as [writes|e] eqn:Hrun;
        [|constructor].
      destruct (am_segm_slice_to_tiles _ _ _ _ _ images) as [writes' r].
      cbn [fst] in *. rewrite metadata_written_app. apply Forall_app. split; [|done].
      destruct (am_segm_slice_image_meta _ _ Hrun) as (? & ? & ? & ? & ->).
      constructor; [|constructor]. split; [done|]. split; [done|].
      by intros members [= <-].
Qed.

End Metadata.

Lemma persisted_metadata_members_witness :
  ∃ writes,
    slice_to_tiles array shape2 (λ image _ _, image)
      compute_tile_row_col_n pad_slice_image
      image_3x2 2%Z = Ok writes ∧
    persisted_metadata_conforms writes.
Proof.
  eexists. split; [vm_compute; reflexivity|].
  apply (proj1 (persisted_metadata_members array shape2 (λ image _ _, image)
                  Tiles.compute_tile_row_col_n Tiles.pad_slice_image) image_3x2 2%Z).
  vm_compute. reflexivity.
Defined.

(** C7 as stated fails: the record that [slice_to_tiles] of
    [am_segm/preprocess.py] writes has no [orig_image]. *)
Lemma am_segm_metadata_lacks_orig_image :
  ¬ persisted_metadata_conforms
      (am_segm_slice_to_tiles array shape2 (λ image _ _, image)
         compute_tile_row_col_n pad_slice_image [image_3x2]).1.
Proof.
  unfold persisted_metadata_conforms. intros Hall.
  assert (metadata_written
            (am_segm_slice_to_tiles array shape2 (λ image _ _, image)
               compute_tile_row_col_n pad_slice_image [image_3x2]).1 =
          [JObj [("image", JObj [("h", JInt 3); ("w", JInt 2)]);
                 ("tile", JObj [("rows", JInt 1); ("cols", JInt 1);
                                ("size", JInt 512)])]]) as Hm
    by (vm_compute; reflexivity).
  rewrite Hm in Hall. apply Forall_cons in Hall as [Hbad _]. discriminate.
Qed.

End TilesSpec.

(** * Further properties of the fleet and the queue *)

Module EcsMoreSpec.
Import Ecs EcsMore EcsSpec.

Section FleetMore.
Context {B : Type} `{Backend B}.
Implicit Types (w : World B) (cfg : nat) (n : Z).

Lemma sep_by_cons2 {A} (s x y : A) (l : list A) :
  sep_by s (x :: y :: l) = x :: s :: sep_by s (y :: l).
Proof. reflexivity. Qed.

Lemma launched_cons c kw ts (evs : list event) :
  launched (EvRunTask c kw ts :: evs) = map taskArn ts ++ launched evs.
Proof. reflexivity. Qed.

(** X1.  The launch loop by itself, for any positive count: it makes
    [ceil(n/10)] calls of at most 10 tasks whose counts add up to [n], with
    [sleep(5)] between consecutive calls only, leaves the dictionaries alone
    and returns the ids of all calls in order. *)
Theorem launch_loop_covers_count fuel cfg n arns w :
  1 ≤ n → (Z.to_nat (ceil_div n 10) < fuel)%nat →
  ∃ runs w',
    launch_loop fuel cfg n arns w = Some (Ok (arns ++ launched runs), w') ∧
    history w' = history w ++ sep_by (EvSleep 5) runs ∧
    forallb is_run_task runs = true ∧
    Z.of_nat (length runs) = ceil_div n 10 ∧
    Forall (λ c, 1 ≤ c ≤ 10) (batch_sizes runs) ∧
    foldr Z.add 0 (batch_sizes runs) = n ∧
    dicts w' = dicts w ∧
    now w' = now w + 5 * (Z.of_nat (length runs) - 1).
Proof.
  unfold ceil_div. revert n arns w.
  induction fuel as [|fuel IH]; intros n arns w Hn Hf; [lia|].
  destruct (Z.le_gt_cases n 10) as [Hle|Hgt].
  - assert ((n + 10 - 1) / 10 = 1) as Hq
      by (symmetry; apply (Z.div_unique _ 10 1 (n - 1)); lia).
    rewrite Hq in *.
    destruct (launch_loop_small (S fuel) cfg n arns w) as (ts & b & _ & ->); [lia|lia|].
    eexists [EvRunTask n (dicts w !!! cfg) ts], _. split.
    { unfold launched. cbn [flat_map]. rewrite app_nil_r. reflexivity. }
    cbn. repeat split; try done; try lia. repeat constructor; lia.
  - assert ((n + 10 - 1) / 10 = (n - 10 + 10 - 1) / 10 + 1) as Hq.
    { replace (n + 10 - 1) with ((n - 10 + 10 - 1) + 1 * 10) by lia.
      by rewrite Z.div_add. }
    assert (1 ≤ (n - 10 + 10 - 1) / 10) as Hq1
      by (apply Z.div_le_lower_bound; lia).
    rewrite Hq in *.
    cbn [launch_loop]. unfold ecs_max_task_n.
    replace (0 <? n) with true by (symmetry; apply Z.ltb_lt; lia).
    rewrite Z.min_r by lia.
    replace (0 <? n - 10) with true by (symmetry; apply Z.ltb_lt; lia).
    unfold bind at 1. unfold run_task at 1.
    destruct (ecs_run_task (backend w) 10 (dicts w !!! cfg)) as [ts1 b1].
    unfold bind at 1. unfold sleep at 1. cbn [Z.ltb Z.compare].
    set (w1 := record (EvSleep 5) _).
    destruct (IH (n - 10) (arns ++ map taskArn ts1) w1)
      as (runs & w' & Hrun & Hh & Hall & Hlen & Hsz & Hsum & Hd & Hnow); [lia|lia|].
    destruct runs as [|r runs]; [cbn in Hlen; lia|].
    exists (EvRunTask 10 (dicts w !!! cfg) ts1 :: r :: runs), w'.
    rewrite Hrun, sep_by_cons2, launched_cons, Hh, Hd, Hnow.
    subst w1. cbn [history record now dicts length].
    rewrite <- !app_assoc. cbn [app].
    split; [done|]. split; [done|]. split; [done|]. split.
    { cbn [length] in Hlen |- *. lia. }
    split; [constructor; [lia|done]|]. split.
    { change (batch_sizes (EvRunTask 10 (dicts w !!! cfg) ts1 :: r :: runs))
        with (10 :: batch_sizes (r :: runs)).
      cbn [foldr]. rewrite Hsum. lia. }
    split; [done|]. cbn [length] in Hlen |- *. lia.
Qed.

(** X2.  A configuration without [count] raises [KeyError] and leaves the
    world exactly as it was; a [count] that is a string raises [TypeError]
    after the entry has been popped, before any call. *)
Theorem count_missing_or_not_a_number fuel cfg cb interval timeout w :
  ((dicts w !!! cfg) !! "count" = None →
     run_wait_for_inference_task fuel cfg cb interval timeout w =
       Some (Raise (KeyError "count"), w))
  ∧ (∀ s, (dicts w !!! cfg) !! "count" = Some (PStr s) →
     ∃ w', run_wait_for_inference_task fuel cfg cb interval timeout w =
             Some (Raise TypeError, w') ∧
           history w' = history w ∧
           dicts w' !!! cfg = delete "count" (dicts w !!! cfg)).
Proof.
  split.
  - intros Hc. unfold run_wait_for_inference_task, launch_tasks, bind, dict_pop.
    by rewrite Hc.
  - intros s Hc. unfold run_wait_for_inference_task, launch_tasks, bind, dict_pop.
    rewrite Hc. cbn. eexists. split; [reflexivity|]. cbn.
    by rewrite lookup_total_insert_eq.
Qed.

(** *** The wait loop, for any callback *)

Section WaitMore.
Variables (arns : list string) (f : World B → bool) (interval timeout : Z).

(** What [k] passes add to the history, answers included. *)
Lemma after_polls_answers k w :
  ∃ evs,
    history (after_polls k arns f interval w) = history w ++ evs ∧
    polls evs = k ∧ sleeps evs = replicate k interval ∧
    callback_answers evs =
      map (λ j, (poll_once arns f interval (after_polls j arns f interval w)).1)
          (seq 0 k).
Proof.
  induction k as [|k (evs & Hh & Hp & Hs & Ha)].
  - exists []. cbn. by rewrite app_nil_r.
  - rewrite after_polls_S.
    destruct (poll_once_history arns f interval (after_polls k arns f interval w))
      as (ts & Hts).
    eexists (evs ++ [_; _; _]). rewrite Hts, Hh, <- app_assoc. split; [reflexivity|].
    unfold polls, sleeps, callback_answers in *.
    rewrite !omap_app, length_app, seq_S, map_app, Hs, Ha. cbn.
    split; [rewrite Hp; lia|]. split; [|done].
    change (interval :: replicate k interval) with (replicate (S k) interval).
    rewrite replicate_S_end. done.
Qed.

(** The loop ends after at most [k] passes when [k] passes reach the
    deadline: normally after a pass whose answer was the first true one, or
    with the timeout exception after [k] passes that all answered false. *)
Lemma wait_loop_ends k fuel finish w :
  0 < interval →
  finish - now w ≤ Z.of_nat k * interval →
  (∀ j, (j < k)%nat → now w + Z.of_nat j * interval < finish) →
  (k < fuel)%nat →
  (∃ j, (j < k)%nat ∧
        wait_loop fuel finish arns (Nullary f) interval timeout w =
          Some (Ok tt, after_polls (S j) arns f interval w) ∧
        (poll_once arns f interval (after_polls j arns f interval w)).1 = true ∧
        ∀ i, (i < j)%nat →
             (poll_once arns f interval (after_polls i arns f interval w)).1 = false)
  ∨ (wait_loop fuel finish arns (Nullary f) interval timeout w =
       Some (Raise (ExcTimeout timeout), after_polls k arns f interval w) ∧
     ∀ i, (i < k)%nat →
          (poll_once arns f interval (after_polls i arns f interval w)).1 = false).
Proof.
  intros Hi. revert fuel w. induction k as [|k IH]; intros fuel w Hle Hlt Hf.
  - right. destruct fuel as [|fuel]; [lia|]. rewrite wait_loop_deadline by lia.
    split; [done|]. intros i Hi'. lia.
  - destruct fuel as [|fuel]; [lia|].
    rewrite wait_loop_step; [| specialize (Hlt 0%nat); lia | lia].
    destruct (poll_once arns f interval w).1 eqn:Hans.
    + left. exists 0%nat. split; [lia|]. split; [done|]. split; [done|].
      intros i Hi'. lia.
    + destruct (IH fuel (poll_once arns f interval w).2)
        as [(j & Hj & Hrun & Htrue & Hfalse)|[Hrun Hfalse]].
      * rewrite poll_once_now. lia.
      * intros j Hj. rewrite poll_once_now. specialize (Hlt (S j)). lia.
      * lia.
      * left. exists (S j). split; [lia|]. split; [done|]. split; [done|].
        intros [|i] Hi'; [done|]. apply Hfalse. lia.
      * right. split; [done|]. intros [|i] Hi'; [done|]. apply Hfalse. lia.
Qed.

(** X3.  With a positive interval the wait ends for every callback of no
    arguments: normally right after the first true answer, or with the
    timeout exception after [ceil(timeout/interval)] polls that all answered
    false.  Either way it has slept [interval] once per poll, made at most
    [ceil(timeout/interval)] polls, and launched nothing. *)
Theorem wait_is_bounded w fuel :
  0 < interval →
  (Z.to_nat (ceil_div timeout interval) < fuel)%nat →
  ∃ r w' evs,
    wait_for_stop fuel arns (Nullary f) interval timeout w = Some (r, w') ∧
    history w' = history w ++ evs ∧
    (polls evs ≤ Z.to_nat (ceil_div timeout interval))%nat ∧
    sleeps evs = replicate (polls evs) interval ∧
    length (callback_answers evs) = polls evs ∧
    now w' = now w + Z.of_nat (polls evs) * interval ∧
    ((r = Ok tt ∧ last (callback_answers evs) = Some true ∧
      Forall (λ a, a = false) (take (polls evs - 1) (callback_answers evs)))
     ∨ (r = Raise (ExcTimeout timeout) ∧
        polls evs = Z.to_nat (ceil_div timeout interval) ∧
        Forall (λ a, a = false) (callback_answers evs))).
Proof.
  intros Hi Hf. unfold ceil_div in *.
  destruct (ceil_div_bounds interval timeout Hi) as [Hle Hlt].
  set (n := Z.to_nat ((timeout + interval - 1) / interval)) in *.
  unfold wait_for_stop, bind, time.
  destruct (wait_loop_ends n fuel (now w + timeout) w)
    as [(j & Hj & -> & Htrue & Hfalse)|[-> Hfalse]]; [done|lia| |done| |].
  - intros j Hj. specialize (Hlt j Hj). lia.
  - destruct (after_polls_answers (S j) w) as (evs & Hh & Hp & Hs & Ha).
    exists (Ok tt), (after_polls (S j) arns f interval w), evs.
    rewrite Hp, Ha, length_map, length_seq, after_polls_now.
    split; [done|]. split; [done|]. split; [lia|]. split; [done|]. split; [done|].
    split; [done|]. left. split; [done|]. split.
    + rewrite seq_S, map_app. cbn. by rewrite last_snoc, Htrue.
    + replace (S j - 1)%nat with j by lia. rewrite List.firstn_map, take_seq.
      replace (j `min` S j)%nat with j by lia.
      apply List.Forall_map, Forall_forall. intros i Hi'%elem_of_seq.
      apply Hfalse. lia.
  - destruct (after_polls_answers n w) as (evs & Hh & Hp & Hs & Ha).
    exists (Raise (ExcTimeout timeout)), (after_polls n arns f interval w), evs.
    rewrite Hp, Ha, length_map, length_seq, after_polls_now.
    split; [done|]. split; [done|]. split; [lia|]. split; [done|]. split; [done|].
    split; [done|]. right. split; [done|]. split; [done|].
    apply List.Forall_map, Forall_forall. intros i Hi'%elem_of_seq.
    apply Hfalse. lia.
Qed.

(** X4.  A deadline that has already passed raises the timeout exception at
    once, without sleeping, polling or consulting the callback, whatever the
    callback is; a negative interval raises [ValueError] before the first
    poll. *)
Theorem wait_edge_cases w fuel (cb : callable B) :
  (timeout ≤ 0 →
     wait_for_stop (S fuel) arns cb interval timeout w =
       Some (Raise (ExcTimeout timeout), w))
  ∧ (0 < timeout → interval < 0 →
     wait_for_stop (S fuel) arns cb interval timeout w = Some (Raise ValueError, w)).
Proof.
  split.
  - intros Ht. unfold wait_for_stop, bind, time. apply wait_loop_deadline. lia.
  - intros Ht Hi. unfold wait_for_stop, bind, time. cbn [wait_loop].
    unfold bind, time, sleep.
    replace (now w <? now w + timeout) with true by (symmetry; apply Z.ltb_lt; lia).
    replace (interval <? 0) with true by (symmetry; apply Z.ltb_lt; lia).
    reflexivity.
Qed.

End WaitMore.

(** Whatever the callback, the wait loop launches nothing and asks only about
    the ids it was given, in the cluster [am-segm]. *)
Lemma wait_loop_describes fuel finish arns (cb : callable B) interval timeout w r w' :
  wait_loop fuel finish arns cb interval timeout w = Some (r, w') →
  ∃ evs,
    history w' = history w ++ evs ∧
    batch_sizes evs = [] ∧ launched evs = [] ∧
    Forall (λ c, c = "am-segm") (described_clusters evs) ∧
    Forall (λ a, a = arns) (described_tasks evs) ∧
    dicts w' = dicts w.
Proof.
  revert w. induction fuel as [|fuel IH]; intros w; [done|].
  cbn [wait_loop]. unfold bind at 1. unfold time at 1.
  destruct (now w <? finish).
  2:{ intros [= <- <-]. exists []. by rewrite app_nil_r. }
  unfold bind at 1. unfold sleep at 1.
  destruct (interval <? 0).
  { intros [= <- <-]. exists []. by rewrite app_nil_r. }
  unfold bind at 1. unfold describe_tasks at 1. cbn [backend record].
  destruct (ecs_describe_tasks (backend w) "am-segm" arns) as [ts b].
  unfold bind at 1. unfold call0 at 1.
  destruct cb as [g|p].
  - set (w2 := record (EvDescribeTasks _ _ _) _).
    destruct (g w2) eqn:Hg.
    + intros [= <- <-]. eexists [_; _; _]. cbn. rewrite <- !app_assoc.
      split; [reflexivity|]. repeat split; by repeat constructor.
    + intros Hrun. destruct (IH _ Hrun) as (evs & Hh & Hb & Hl & Hc & Ha & Hd).
      eexists (_ :: _ :: _ :: evs). rewrite Hh, Hd. cbn. rewrite <- !app_assoc.
      split; [reflexivity|]. unfold batch_sizes, launched in *. cbn.
      rewrite Hb, Hl. repeat split; try done; by constructor.
  - intros [= <- <-]. eexists [_; _]. cbn. rewrite <- !app_assoc.
    split; [reflexivity|]. repeat split; by repeat constructor.
Qed.

Lemma launched_app (evs1 evs2 : list event) :
  launched (evs1 ++ evs2) = launched evs1 ++ launched evs2.
Proof. unfold launched. apply flat_map_app. Qed.

(** X5.  When the function returns or raises after an accepted count, the
    [run_task] counts add up to the requested count, and every
    [describe_tasks] call names the cluster [am-segm], whatever cluster the
    task configuration names, and asks about exactly the task ids that the
    [run_task] calls returned. *)
Theorem polls_launched_tasks_in_am_segm w cfg n (cb : callable B) interval timeout fuel r w' :
  (dicts w !!! cfg) !! "count" = Some (PInt n) → 1 ≤ n ≤ 20 → (3 ≤ fuel)%nat →
  run_wait_for_inference_task fuel cfg cb interval timeout w = Some (r, w') →
  ∃ evs,
    history w' = history w ++ evs ∧
    foldr Z.add 0 (batch_sizes evs) = n ∧
    Forall (λ c, c = "am-segm") (described_clusters evs) ∧
    Forall (λ a, a = launched evs) (described_tasks evs).
Proof.
  intros Hc Hn Hf. unfold run_wait_for_inference_task, launch_tasks, bind.
  rewrite (pop_count _ _ _ Hc), assert_count_in by done.
  set (w0 := mkWorld _ _ _ _).
  assert (∃ levs arns w1,
            launch_loop fuel cfg n [] w0 = Some (Ok arns, w1) ∧
            history w1 = history w ++ levs ∧
            launched levs = arns ∧ foldr Z.add 0 (batch_sizes levs) = n ∧
            described_clusters levs = [] ∧ described_tasks levs = [])
    as (levs & arns & w1 & -> & Hh1 & Hl1 & Hs1 & Hc1 & Ht1).
  { destruct (Z.le_gt_cases n 10) as [Hle|Hgt].
    - destruct (launch_loop_small fuel cfg n [] w0) as (ts & b & _ & ->); [lia|lia|].
      eexists [EvRunTask n (dicts w0 !!! cfg) ts], _, _. split; [reflexivity|].
      cbn. rewrite app_nil_r. repeat split; try done. lia.
    - destruct (launch_loop_large fuel cfg n [] w0)
        as (ts1 & b1 & ts2 & b2 & _ & _ & ->); [lia|lia|].
      eexists [EvRunTask 10 (dicts w0 !!! cfg) ts1; EvSleep 5;
               EvRunTask (n - 10) (dicts w0 !!! cfg) ts2], _, _.
      split; [reflexivity|].
      cbn. rewrite app_nil_r. repeat split; try done. lia. }
  unfold wait_for_stop, bind, time. intros Hrun.
  destruct (wait_loop_describes _ _ _ _ _ _ _ _ _ Hrun)
    as (evs & Hh & Hb & Hl & Hcl & Hta & _).
  exists (levs ++ evs). rewrite Hh, Hh1, <- app_assoc. split; [done|].
  unfold batch_sizes, described_clusters, described_tasks in *.
  rewrite !omap_app, launched_app, Hb, Hl, Hc1, Ht1, !app_nil_r, Hl1.
  by rewrite app_nil_l.
Qed.

(** *** Receiving in two goes *)

Lemma consume_rounds_labels (r r' : list nat) url acc w :
  length r = length r' → consume_rounds r url acc w = consume_rounds r' url acc w.
Proof.
  revert r' acc w. induction r as [|i r IH]; intros [|i' r'] acc w Hl; try done.
  cbn [consume_rounds]. unfold bind, receive_message.
  destruct (sqs_receive_message (backend w) url 1) as [ms b].
  apply IH. by injection Hl.
Qed.

Lemma consume_rounds_app (r1 r2 : list nat) url acc w :
  consume_rounds (r1 ++ r2) url acc w =
    match consume_rounds r1 url acc w with
    | Some (Ok acc', w1) => consume_rounds r2 url acc' w1
    | Some (Raise e, w1) => Some (Raise e, w1)
    | None => None
    end.
Proof.
  revert acc w. induction r1 as [|i r1 IH]; intros acc w; [done|].
  cbn [app consume_rounds]. unfold bind, receive_message.
  destruct (sqs_receive_message (backend w) url 1) as [ms b]. apply IH.
Qed.

(** What the rounds add does not depend on what was collected before. *)
Lemma consume_rounds_from_empty (r : list nat) url w :
  ∃ p h w',
    ∀ acc, consume_rounds r url acc w = Some (Ok (acc.1 ++ p, acc.2 ++ h), w').
Proof.
  revert w. induction r as [|i r IH]; intros w.
  - exists [], [], w. intros [ps hs]. cbn. by rewrite !app_nil_r.
  - cbn [consume_rounds]. unfold bind, receive_message.
    destruct (sqs_receive_message (backend w) url 1) as [ms b].
    destruct (IH (record (EvReceiveMessage url 1 ms)
                    (mkWorld b (now w) (history w) (dicts w)))) as (p & h & w' & Hrun).
    exists (map Body ms ++ p), (map ReceiptHandle ms ++ h), w'.
    intros acc. rewrite Hrun, append_messages_eq. cbn. by rewrite !app_assoc.
Qed.

(** X6.  Receiving [n + m] rounds is receiving [n] rounds and then [m] rounds:
    the lists of the two calls, concatenated, and the same final world. *)
Theorem consume_messages_in_two_goes url n m w :
  0 ≤ n → 0 ≤ m →
  ∃ p1 h1 w1 p2 h2 w2,
    consume_messages url n w = Some (Ok (p1, h1), w1) ∧
    consume_messages url m w1 = Some (Ok (p2, h2), w2) ∧
    consume_messages url (n + m) w = Some (Ok (p1 ++ p2, h1 ++ h2), w2).
Proof.
  intros Hn Hm. unfold consume_messages.
  rewrite Z2Nat.inj_add, seq_app by done.
  destruct (consume_rounds_from_empty (seq 0 (Z.to_nat n)) url w)
    as (p1 & h1 & w1 & Hrun1).
  destruct (consume_rounds_from_empty (seq 0 (Z.to_nat m)) url w1)
    as (p2 & h2 & w2 & Hrun2).
  exists p1, h1, w1, p2, h2, w2.
  rewrite consume_rounds_app, !Hrun1. cbn [fst snd app].
  rewrite (consume_rounds_labels (seq (0 + Z.to_nat n) (Z.to_nat m))
             (seq 0 (Z.to_nat m))) by (by rewrite !length_seq).
  rewrite !Hrun2. done.
Qed.

End FleetMore.

(** *** Uploading without a queue *)

Section UploadMore.
Variables (returned started : nat → bool) (bucket : string).
Variable queue_url : option string.
Hypothesis no_queue : truthy queue_url = false.

Lemma upload_calls_no_queue i local key :
  upload returned bucket queue_url i (local, key) =
    [(i, EvUploadFile local bucket key (returned i))].
Proof.
  unfold upload. destruct (returned i); [|done].
  destruct queue_url as [url|]; [|done]. by rewrite no_queue.
Qed.

Lemma length_concat_imap_le {A E} (g : nat → A → list E) (l : list A) :
  (∀ i a, l !! i = Some a → (length (g i a) ≤ 1)%nat) →
  (length (concat (imap g l)) ≤ length l)%nat.
Proof.
  revert g. induction l as [|a l IH]; intros g Hg; [done|].
  cbn [imap concat length]. rewrite length_app.
  specialize (Hg 0%nat a eq_refl) as H0.
  assert (length (concat (imap (g ∘ S) l)) ≤ length l)%nat
    by (apply IH; intros i a' Hi; by apply (Hg (S i))).
  lia.
Qed.

Lemma length_concat_imap_eq {A E} (g : nat → A → list E) (l : list A) :
  (∀ i a, l !! i = Some a → length (g i a) = 1%nat) →
  length (concat (imap g l)) = length l.
Proof.
  revert g. induction l as [|a l IH]; intros g Hg; [done|].
  cbn [imap concat length]. rewrite length_app, (Hg 0%nat a eq_refl).
  rewrite (IH (g ∘ S)); [done|]. intros i a' Hi. by apply (Hg (S i)).
Qed.

(** X7.  Without a queue ([None] or an empty url) no [send_message] call is
    made in any order of the calls; every call is the [upload_file] call of
    a pair of [zip(local_paths, s3_paths)], each pair has at most one, and
    when every upload returns each pair has exactly one.  Paths beyond the
    shorter of the two lists are never uploaded. *)
Theorem upload_without_queue (local_paths s3_paths : list string)
    (tr : list (nat * event)) :
  upload_images_to_s3 returned started local_paths bucket s3_paths queue_url tr →
  filter is_send tr = [] ∧
  (∀ e, e ∈ tr →
        ∃ local key, zip local_paths s3_paths !! e.1 = Some (local, key) ∧
                     e.2 = EvUploadFile local bucket key (returned e.1)) ∧
  (∀ i, (length (of_task i tr) ≤ 1)%nat) ∧
  (length tr ≤ length local_paths `min` length s3_paths)%nat ∧
  ((∀ i, returned i = true) →
     length tr = (length local_paths `min` length s3_paths)%nat).
Proof.
  intros [Hcancel Hmerge]. cbn zeta in Hcancel, Hmerge.
  set (pairs := zip local_paths s3_paths) in *.
  set (calls := λ (i : nat) (args : string * string),
         if started i then upload returned bucket queue_url i args else []) in *.
  assert (∀ j t e, imap calls pairs !! j = Some t → e ∈ t → e.1 = j) as Htag.
  { intros j t e. rewrite list_lookup_imap.
    destruct (pairs !! j) as [[local key]|]; [|done]. intros [= <-]. unfold calls.
    destruct (started j); [|by intros ?%elem_of_nil].
    rewrite upload_calls_no_queue. by intros ->%list_elem_of_singleton. }
  pose proof (merge_of_task _ _ Hmerge Htag) as Hproj.
  pose proof (merge_perm _ _ Hmerge) as Hperm.
  assert (length pairs = (length local_paths `min` length s3_paths)%nat) as Hlen
    by apply length_zip_with.
  assert (∀ i a, pairs !! i = Some a → (length (calls i a) ≤ 1)%nat) as Hone.
  { intros i [local key] _. unfold calls. destruct (started i); [|cbn; lia].
    by rewrite upload_calls_no_queue. }
  split; [|split; [|split; [|split]]].
  - apply length_zero_iff_nil. rewrite Hperm.
    transitivity (length (filter (λ _ : nat * event, false) (concat (imap calls pairs)))).
    + apply count_concat_imap. intros i [local key] _. unfold calls.
      destruct (started i); [|done]. by rewrite upload_calls_no_queue.
    + clear. induction (concat (imap calls pairs)) as [|x l IH]; [done|].
      by rewrite filter_cons_False by (by intros ?).
  - intros [i ev] He. cbn [fst snd].
    assert ((i, ev) ∈ of_task i tr) as He'
      by (unfold of_task; by apply list_elem_of_filter).
    rewrite Hproj, list_lookup_imap in He'.
    destruct (pairs !! i) as [[local key]|] eqn:Hi; [|by apply elem_of_nil in He'].
    cbn in He'. unfold calls in He'.
    destruct (started i); [|by apply elem_of_nil in He'].
    rewrite upload_calls_no_queue in He'. apply list_elem_of_singleton in He'.
    injection He' as ->. by exists local, key.
  - intros i. rewrite Hproj, list_lookup_imap.
    destruct (pairs !! i) as [a|] eqn:Hi; [|cbn; lia]. by apply Hone.
  - rewrite <- Hlen, Hperm. by apply length_concat_imap_le.
  - intros Hall. rewrite <- Hlen, Hperm.
    assert (∀ i a, pairs !! i = Some a → length (calls i a) = 1%nat) as Hex.
    { intros i [local key] Hi. unfold calls. destruct (started i) eqn:Hs.
      - by rewrite upload_calls_no_queue.
      - destruct (Hcancel i (lookup_lt_Some _ _ _ Hi) Hs) as (j & _ & _ & Hj).
        by rewrite Hall in Hj. }
    by apply length_concat_imap_eq.
Qed.

End UploadMore.

(** *** Listing a prefix *)

Section ListingFacts.
Variable S3 : Type.
Variable s3_list_objects_v2 : S3 → gmap string string → list_page * S3.

Lemma list_loop_spec fuel s kwargs keys out calls s' :
  list_loop S3 s3_list_objects_v2 fuel s kwargs keys = (out, calls, s') →
  (length calls ≤ fuel)%nat ∧ chained kwargs calls ∧
  match out with
  | Some (Ok ks) =>
      ks = keys ++ listed_keys calls ∧
      ∃ c, last calls = Some c ∧ IsTruncated c.2 = false
  | Some (Raise e) =>
      e = KeyError "NextContinuationToken" ∧
      ∃ c, last calls = Some c ∧ IsTruncated c.2 = true ∧
           NextContinuationToken c.2 = None
  | None =>
      length calls = fuel ∧
      Forall (λ c, IsTruncated c.2 = true ∧ is_Some (NextContinuationToken c.2)) calls
  end.
Proof.
  revert s kwargs keys out calls s'.
  induction fuel as [|fuel IH]; intros s kwargs keys out calls s'; cbn [list_loop].
  - intros [= <- <- <-]. by repeat split.
  - destruct (s3_list_objects_v2 s kwargs) as [resp s1].
    destruct (IsTruncated resp) eqn:Htr.
    + destruct (NextContinuationToken resp) as [token|] eqn:Htok.
      * destruct (list_loop _ _ fuel s1 _ _) as [[out1 calls1] s2] eqn:Hrec.
        intros [= <- <- <-].
        destruct (IH _ _ _ _ _ _ Hrec) as (Hlen & Hch & Hout).
        split; [cbn; lia|]. split.
        { cbn. split; [done|]. destruct calls1; [done|]. split; [done|]. by exists token. }
        destruct out1 as [[ks|e]|].
        -- destruct Hout as (-> & c & Hc & Hnt). split.
           ++ unfold listed_keys. cbn. by rewrite app_assoc.
           ++ exists c. split; [|done]. destruct calls1; [done|]. exact Hc.
        -- destruct Hout as (-> & c & Hc & Hnt). split; [done|].
           exists c. split; [|done]. destruct calls1; [done|]. exact Hc.
        -- destruct Hout as [Hl Hall]. split; [cbn; lia|].
           constructor; [|done]. cbn. rewrite Htr, Htok. eauto.
      * intros [= <- <- <-]. split; [cbn; lia|]. split; [done|]. split; [done|].
        by exists (kwargs, resp).
    + intros [= <- <- <-]. split; [cbn; lia|]. split; [done|]. split.
      * unfold listed_keys. cbn. by rewrite app_nil_r.
      * by exists (kwargs, resp).
Qed.

(** X8.  [list_images_on_s3] asks first with the bucket and the prefix alone
    and after every page again with that page's continuation token added.
    It stops at the first page that is not truncated and returns the keys of
    all pages in order; a truncated page without a token is a [KeyError];
    when the fuel runs out, every page so far was truncated, so it ends only
    if the store ends the listing. *)
Theorem list_images_follows_tokens fuel s bucket prefix out calls s' :
  list_images_on_s3 S3 s3_list_objects_v2 fuel s bucket prefix = (out, calls, s') →
  (length calls ≤ fuel)%nat ∧
  chained {[ "Bucket" := bucket; "Prefix" := prefix ]} calls ∧
  (∀ ks, out = Some (Ok ks) →
         ks = listed_keys calls ∧
         ∃ c, last calls = Some c ∧ IsTruncated c.2 = false) ∧
  (∀ e, out = Some (Raise e) →
        e = KeyError "NextContinuationToken" ∧
        ∃ c, last calls = Some c ∧ IsTruncated c.2 = true ∧
             NextContinuationToken c.2 = None) ∧
  (out = None →
     length calls = fuel ∧
     Forall (λ c, IsTruncated c.2 = true ∧ is_Some (NextContinuationToken c.2)) calls).
Proof.
  unfold list_images_on_s3. intros Hrun.
  destruct (list_loop_spec _ _ _ _ _ _ _ Hrun) as (Hlen & Hch & Hout).
  split; [done|]. split; [done|]. split; [|split].
  - intros ks ->. done.
  - intros e ->. done.
  - intros ->. done.
Qed.

End ListingFacts.

Lemma list_images_follows_tokens_witness :
  ∃ calls s',
    list_images_on_s3 (list list_page) scripted_list 5 three_pages "am-segm" "g1/mask" =
      (Some (Ok ["g1/mask/0000.png"; "g1/mask/0001.png"; "g1/mask/0002.png";
                 "g1/mask/0003.png"]), calls, s') ∧
    length calls = 3%nat ∧
    chained {[ "Bucket" := "am-segm"; "Prefix" := "g1/mask" ]} calls.
Proof.
  destruct (list_images_on_s3 (list list_page) scripted_list 5 three_pages
              "am-segm" "g1/mask") as [[out calls] s'] eqn:Hrun.
  destruct (list_images_follows_tokens _ _ _ _ _ _ _ _ _ Hrun) as (_ & Hch & _).
  vm_compute in Hrun. injection Hrun as <- <- <-.
  eexists _, _. split; [reflexivity|]. split; [reflexivity|exact Hch].
Defined.

(** *** Downloading *)

Section DownloadFacts.
Variables (bucket : string) (tasks : list (string * local_path)).

Lemma dl_step_exists i key target st :
  tasks !! i = Some (key, target) → pcs st !! i = Some AtExists →
  dl_step bucket tasks i st =
    mkDl (dirs st)
      (<[i := if bool_decide (parent target ∈ dirs st) then AtDownloadFile else AtMkdir]>
         (pcs st))
      (dl_trace st ++ [(i, DlExists (parent target) (bool_decide (parent target ∈ dirs st)))]).
Proof. intros Ht Hp. unfold dl_step. by rewrite Ht, Hp. Qed.

Lemma dl_step_mkdir i key target st :
  tasks !! i = Some (key, target) → pcs st !! i = Some AtMkdir →
  dl_step bucket tasks i st =
    if bool_decide (parent target ∈ dirs st)
    then mkDl (dirs st) (<[i := Finished (Some FileExistsError)]> (pcs st))
              (dl_trace st ++ [(i, DlMkdir (parent target) false)])
    else mkDl (dirs st ∪ ancestors_and_self (parent target))
              (<[i := AtDownloadFile]> (pcs st))
              (dl_trace st ++ [(i, DlMkdir (parent target) true)]).
Proof. intros Ht Hp. unfold dl_step. by rewrite Ht, Hp. Qed.

Lemma dl_step_download i key target st :
  tasks !! i = Some (key, target) → pcs st !! i = Some AtDownloadFile →
  dl_step bucket tasks i st =
    mkDl (dirs st) (<[i := Finished None]> (pcs st))
         (dl_trace st ++ [(i, DlDownloadFile bucket key target)]).
Proof. intros Ht Hp. unfold dl_step. by rewrite Ht, Hp. Qed.

Lemma self_in_ancestors (dir : list string) :
  dir ≠ [] → dir ∈ ancestors_and_self dir.
Proof.
  intros Hd. unfold ancestors_and_self. apply elem_of_list_to_set, list_elem_of_fmap.
  exists (length dir). split; [by rewrite firstn_all|].
  apply elem_of_seq. destruct dir; [done|]. cbn. lia.
Qed.

(** Where every parent directory is there, a step keeps the directories, makes
    no [mkdir] call and lets no thread raise. *)
Lemma dl_step_all_there existing i st :
  (∀ j key target, tasks !! j = Some (key, target) → parent target ∈ existing) →
  dirs st = existing → none_raised st → Forall (λ pc, pc ≠ AtMkdir) (pcs st) →
  filter is_mkdir (dl_trace st) = [] →
  dirs (dl_step bucket tasks i st) = existing ∧
  none_raised (dl_step bucket tasks i st) ∧
  Forall (λ pc, pc ≠ AtMkdir) (pcs (dl_step bucket tasks i st)) ∧
  filter is_mkdir (dl_trace (dl_step bucket tasks i st)) = [].
Proof.
  intros Hall Hd Hnr Hnm Htr. unfold none_raised in *.
  destruct (tasks !! i) as [[key target]|] eqn:Ht.
  2:{ unfold dl_step. by rewrite Ht. }
  destruct (pcs st !! i) as [pc|] eqn:Hp.
  2:{ unfold dl_step. by rewrite Ht, Hp. }
  destruct pc as [| | |r].
  - rewrite (dl_step_exists _ _ _ _ Ht Hp). cbn. rewrite Hd.
    rewrite bool_decide_eq_true_2 by (by eapply Hall).
    repeat split; try done.
    + by apply Forall_insert.
    + by apply Forall_insert.
    + by rewrite filter_app, Htr.
  - exfalso. by eapply (proj1 (Forall_lookup _ _) Hnm i AtMkdir).
  - rewrite (dl_step_download _ _ _ _ Ht Hp). cbn.
    repeat split; try done.
    + by apply Forall_insert.
    + by apply Forall_insert.
    + by rewrite filter_app, Htr.
  - unfold dl_step. by rewrite Ht, Hp.
Qed.

End DownloadFacts.

(** X9.  When the parent directory of every local path is there before the
    call, then under every schedule no [mkdir] call is made, the directories
    stay as they were and no thread raises. *)
Theorem download_into_existing_directories bucket s3_paths local_paths existing schedule :
  (∀ target, target ∈ local_paths → parent target ∈ existing) →
  let st := download_images_from_s3 bucket s3_paths local_paths existing schedule in
  dirs st = existing ∧ none_raised st ∧ filter is_mkdir (dl_trace st) = [].
Proof.
  intros Hall. cbn zeta. unfold download_images_from_s3, dl_run.
  set (tasks := zip s3_paths local_paths).
  assert (∀ j key target, tasks !! j = Some (key, target) → parent target ∈ existing)
    as Hall'.
  { intros j key target Hj. apply Hall.
    apply list_elem_of_lookup_2 in Hj. by apply elem_of_zip_r in Hj. }
  set (st0 := mkDl existing (replicate (length tasks) AtExists) []).
  assert (dirs st0 = existing ∧ none_raised st0 ∧
          Forall (λ pc, pc ≠ AtMkdir) (pcs st0) ∧
          filter is_mkdir (dl_trace st0) = []) as Hinv.
  { repeat split; try done; apply Forall_replicate; done. }
  revert Hinv. generalize st0. clear st0.
  induction schedule as [|i schedule IH]; intros st (Hd & Hnr & Hnm & Htr); cbn [foldl].
  - done.
  - apply IH. by apply dl_step_all_there.
Qed.

(** X10.  Two threads whose files go to the same missing directory can both
    find it missing before either makes it: under the schedule [i, j, i, j]
    the [mkdir] of thread [i] succeeds and the [mkdir] of thread [j] raises
    [FileExistsError], so file [j] is not downloaded. *)
Theorem download_mkdir_race bucket s3_paths local_paths existing i j ki kj ti tj :
  i ≠ j →
  zip s3_paths local_paths !! i = Some (ki, ti) →
  zip s3_paths local_paths !! j = Some (kj, tj) →
  parent ti = parent tj → parent ti ≠ [] → parent ti ∉ existing →
  let st := download_images_from_s3 bucket s3_paths local_paths existing [i; j; i; j] in
  pcs st !! j = Some (Finished (Some FileExistsError)) ∧
  pcs st !! i = Some AtDownloadFile ∧
  dl_trace st =
    [(i, DlExists (parent ti) false); (j, DlExists (parent ti) false);
     (i, DlMkdir (parent ti) true); (j, DlMkdir (parent ti) false)].
Proof.
  intros Hij Hi Hj Hsame Hne Hmiss. cbn zeta.
  unfold download_images_from_s3, dl_run. cbn [foldl].
  set (tasks := zip s3_paths local_paths) in *.
  pose proof (lookup_lt_Some _ _ _ Hi) as Hli.
  pose proof (lookup_lt_Some _ _ _ Hj) as Hlj.
  set (st0 := mkDl existing (replicate (length tasks) AtExists) []).
  assert (pcs st0 !! i = Some AtExists) as Hp0 by (by apply lookup_replicate_2).
  rewrite (dl_step_exists bucket tasks i ki ti st0 Hi Hp0).
  cbn [dirs pcs dl_trace st0 app].
  rewrite bool_decide_eq_false_2 by done.
  set (st1 := mkDl _ _ _).
  assert (pcs st1 !! j = Some AtExists) as Hp1.
  { cbn. rewrite list_lookup_insert_ne by done. by apply lookup_replicate_2. }
  rewrite (dl_step_exists bucket tasks j kj tj st1 Hj Hp1).
  cbn [dirs pcs dl_trace st1 app]. rewrite <- Hsame.
  rewrite bool_decide_eq_false_2 by done.
  set (st2 := mkDl _ _ _).
  assert (pcs st2 !! i = Some AtMkdir) as Hp2.
  { cbn. rewrite list_lookup_insert_ne by done.
    apply list_lookup_insert_eq. by rewrite length_replicate. }
  rewrite (dl_step_mkdir bucket tasks i ki ti st2 Hi Hp2).
  cbn [dirs pcs dl_trace st2 app].
  rewrite bool_decide_eq_false_2 by done.
  set (st3 := mkDl _ _ _).
  assert (pcs st3 !! j = Some AtMkdir) as Hp3.
  { cbn. rewrite list_lookup_insert_ne by done.
    apply list_lookup_insert_eq. by rewrite length_insert, length_replicate. }
  rewrite (dl_step_mkdir bucket tasks j kj tj st3 Hj Hp3).
  cbn [dirs pcs dl_trace st3 app]. rewrite <- Hsame.
  rewrite bool_decide_eq_true_2
    by (apply elem_of_union_r; by apply self_in_ancestors).
  cbn [pcs dl_trace]. split; [|split; [|done]].
  - apply list_lookup_insert_eq. by rewrite !length_insert, length_replicate.
  - rewrite list_lookup_insert_ne by done.
    apply list_lookup_insert_eq. by rewrite !length_insert, length_replicate.
Qed.

Section OneByOne.
Variables (bucket : string) (tasks : list (string * local_path)).

(** A thread run to its end from its start: it does not raise, its directory
    is there afterwards, and no other thread moves. *)
Lemma dl_thread_to_end k key target st :
  tasks !! k = Some (key, target) → pcs st !! k = Some AtExists →
  let st' := dl_step bucket tasks k (dl_step bucket tasks k (dl_step bucket tasks k st)) in
  pcs st' = <[k := Finished None]> (pcs st) ∧
  dirs st ⊆ dirs st' ∧
  (parent target ≠ [] → parent target ∈ dirs st') ∧
  downloads st' = S (downloads st).
Proof.
  intros Ht Hp. cbn zeta. pose proof (lookup_lt_Some _ _ _ Hp) as Hk.
  rewrite (dl_step_exists bucket tasks k key target st Ht Hp).
  destruct (bool_decide (parent target ∈ dirs st)) eqn:Hthere.
  - apply bool_decide_eq_true_1 in Hthere.
    set (st1 := mkDl _ _ _).
    assert (pcs st1 !! k = Some AtDownloadFile) as Hp1
      by (by apply list_lookup_insert_eq).
    rewrite (dl_step_download bucket tasks k key target st1 Ht Hp1).
    set (st2 := mkDl _ _ _).
    assert (pcs st2 !! k = Some (Finished None)) as Hp2
      by (cbn; apply list_lookup_insert_eq; by rewrite length_insert).
    assert (dl_step bucket tasks k st2 = st2) as ->
      by (unfold dl_step; by rewrite Ht, Hp2).
    subst st2 st1. cbn. rewrite list_insert_insert_eq.
    repeat split; try done.
    unfold downloads. cbn. rewrite !filter_app, !length_app. cbn.
    repeat case_decide; try done. cbn. lia.
  - apply bool_decide_eq_false_1 in Hthere.
    set (st1 := mkDl _ _ _).
    assert (pcs st1 !! k = Some AtMkdir) as Hp1 by (by apply list_lookup_insert_eq).
    rewrite (dl_step_mkdir bucket tasks k key target st1 Ht Hp1).
    cbn [dirs st1]. rewrite bool_decide_eq_false_2 by done.
    set (st2 := mkDl _ _ _).
    assert (pcs st2 !! k = Some AtDownloadFile) as Hp2
      by (cbn; apply list_lookup_insert_eq; by rewrite length_insert).
    rewrite (dl_step_download bucket tasks k key target st2 Ht Hp2).
    subst st2 st1. cbn. rewrite !list_insert_insert_eq.
    split; [done|]. split; [set_solver|]. split.
    + intros Hne. apply elem_of_union_r. by apply self_in_ancestors.
    + unfold downloads. cbn. rewrite !filter_app, !length_app. cbn.
      repeat case_decide; try done. cbn. lia.
Qed.

Lemma dl_threads_to_end (l : list nat) st :
  NoDup l →
  (∀ k, k ∈ l → pcs st !! k = Some AtExists ∧ is_Some (tasks !! k)) →
  let st' := dl_run bucket tasks (k ← l; [k; k; k]) st in
  (∀ k, k ∈ l → pcs st' !! k = Some (Finished None)) ∧
  (∀ k, k ∉ l → pcs st' !! k = pcs st !! k) ∧
  length (pcs st') = length (pcs st) ∧
  dirs st ⊆ dirs st' ∧
  (∀ k key target, k ∈ l → tasks !! k = Some (key, target) →
                   parent target ≠ [] → parent target ∈ dirs st') ∧
  downloads st' = (downloads st + length l)%nat.
Proof.
  cbn zeta. revert st. induction l as [|a l IH]; intros st Hnd Hstart.
  - cbn. repeat split; try done; try set_solver; lia.
  - apply NoDup_cons in Hnd as [Ha Hnd].
    destruct (Hstart a) as [Hpa [[key target] Hta]]; [left|].
    destruct (dl_thread_to_end a key target st Hta Hpa) as (Hpcs & Hdirs & Hpar & Hdl).
    unfold dl_run in *. cbn [mbind list_bind foldl app] in *.
    change ((λ k : nat, [k; k; k]) a ++ l ≫= (λ k : nat, [k; k; k]))
      with (a :: a :: a :: (l ≫= (λ k : nat, [k; k; k]))).
    cbn [foldl].
    set (st1 := dl_step bucket tasks a (dl_step bucket tasks a (dl_step bucket tasks a st))) in *.
    destruct (IH st1 Hnd) as (Hfin & Hother & Hlen & Hsub & Hpars & Hcount).
    { intros k Hk. destruct (Hstart k) as [Hpk Htk]; [by right|]. split; [|done].
      rewrite Hpcs, list_lookup_insert_ne; [done|]. intros ->. done. }
    split; [|split; [|split; [|split; [|split]]]].
    + intros k [->|Hk]%elem_of_cons; [|by apply Hfin].
      rewrite (Hother a Ha), Hpcs. apply list_lookup_insert_eq.
      by eapply lookup_lt_Some.
    + intros k Hk. apply not_elem_of_cons in Hk as [Hka Hkl].
      rewrite (Hother k Hkl), Hpcs. by rewrite list_lookup_insert_ne.
    + by rewrite Hlen, Hpcs, length_insert.
    + by transitivity (dirs st1).
    + intros k key' target' [->|Hk]%elem_of_cons Htk Hne.
      * rewrite Hta in Htk. injection Htk as <- <-. apply Hsub. by apply Hpar.
      * by eapply Hpars.
    + rewrite Hcount, Hdl. cbn. lia.
Qed.

End OneByOne.

(** X11.  Taken one after the other, the threads never raise: every file of
    [zip(s3_paths, local_paths)] is downloaded, the directories that were
    there stay, and every parent directory is there afterwards. *)
Theorem download_one_after_the_other bucket s3_paths local_paths existing :
  let tasks := zip s3_paths local_paths in
  let st := download_images_from_s3 bucket s3_paths local_paths existing
              (one_by_one (length tasks)) in
  Forall (λ pc, pc = Finished None) (pcs st) ∧
  length (pcs st) = length tasks ∧
  length (filter is_download_file (dl_trace st)) = length tasks ∧
  existing ⊆ dirs st ∧
  (∀ k key target, tasks !! k = Some (key, target) →
                   parent target ≠ [] → parent target ∈ dirs st).
Proof.
  cbn zeta. unfold download_images_from_s3, one_by_one.
  set (tasks := zip s3_paths local_paths).
  set (st0 := mkDl existing (replicate (length tasks) AtExists) []).
  destruct (dl_threads_to_end bucket tasks (seq 0 (length tasks)) st0)
    as (Hfin & _ & Hlen & Hsub & Hpars & Hcount).
  { apply NoDup_seq. }
  { intros k Hk%elem_of_seq. split.
    - apply lookup_replicate_2. lia.
    - apply lookup_lt_is_Some_2. lia. }
  cbn [pcs st0] in Hlen. rewrite length_replicate in Hlen.
  split; [|split; [done|split; [|split; [done|]]]].
  - apply Forall_lookup. intros k pc Hk.
    rewrite Hfin in Hk; [congruence|].
    apply elem_of_seq. apply lookup_lt_Some in Hk. lia.
  - unfold downloads in Hcount. rewrite Hcount, length_seq. done.
  - intros k key target Hk Hne. eapply Hpars; [|done|done].
    apply elem_of_seq. apply lookup_lt_Some in Hk. lia.
Qed.

Lemma download_into_existing_directories_witness :
  filter is_mkdir
    (dl_trace (download_images_from_s3 "am-segm"
                 ["g1/mask/0000.png"; "g1/mask/0001.png"] two_masks
                 {[ ["out"; "g1"; "mask"] ]} [0; 1; 1; 0]%nat)) = [].
Proof.
  apply (download_into_existing_directories "am-segm"
           ["g1/mask/0000.png"; "g1/mask/0001.png"] two_masks
           {[ ["out"; "g1"; "mask"] ]} [0; 1; 1; 0]%nat).
  intros target Ht. unfold two_masks in Ht.
  apply elem_of_cons in Ht as [->|Ht]; [by apply elem_of_singleton|].
  apply list_elem_of_singleton in Ht as ->. by apply elem_of_singleton.
Defined.

Lemma download_mkdir_race_witness :
  pcs (download_images_from_s3 "am-segm"
         ["g1/mask/0000.png"; "g1/mask/0001.png"] two_masks ∅ [0; 1; 0; 1]%nat)
    !! 1%nat = Some (Finished (Some FileExistsError)).
Proof.
  apply (download_mkdir_race "am-segm" ["g1/mask/0000.png"; "g1/mask/0001.png"]
           two_masks ∅ 0 1 "g1/mask/0000.png" "g1/mask/0001.png"
           (target_in ["out"; "g1"; "mask"] "0000.png")
           (target_in ["out"; "g1"; "mask"] "0001.png"));
    [lia | reflexivity | reflexivity | reflexivity | discriminate | apply not_elem_of_empty].
Defined.

Lemma download_one_after_the_other_witness :
  length (filter is_download_file
            (dl_trace (download_images_from_s3 "am-segm"
                         ["g1/mask/0000.png"; "g1/mask/0001.png"] two_masks ∅
                         (one_by_one 2)))) = 2%nat.
Proof.
  apply (download_one_after_the_other "am-segm"
           ["g1/mask/0000.png"; "g1/mask/0001.png"] two_masks ∅).
Defined.

(** *** Saving predictions *)

Section SaveFacts.
Variable imwrite : local_path → bool.

Lemma save_loop_spec (pairs : list (list (list Z) * local_path)) st :
  sp_written (save_loop imwrite pairs st).2 =
    sp_written st ++ map times255 (saved_prefix imwrite pairs) ∧
  sp_dirs st ⊆ sp_dirs (save_loop imwrite pairs st).2 ∧
  ((save_loop imwrite pairs st).1 = Ok tt ↔ saved_prefix imwrite pairs = pairs) ∧
  ((save_loop imwrite pairs st).1 = Ok tt ∨
   (save_loop imwrite pairs st).1 = Raise AssertionError) ∧
  (∀ pair, pair ∈ saved_prefix imwrite pairs → parent pair.2 ≠ [] →
           parent pair.2 ∈ sp_dirs (save_loop imwrite pairs st).2).
Proof.
  revert st. induction pairs as [|[pred path] pairs IH]; intros st.
  - cbn. rewrite app_nil_r. repeat split; try done; [by left|].
    intros pair Hp. by apply elem_of_nil in Hp.
  - cbn [save_loop saved_prefix].
    set (dirs' := if bool_decide (parent path ∈ sp_dirs st) then sp_dirs st
                  else sp_dirs st ∪ ancestors_and_self (parent path)).
    assert (sp_dirs st ⊆ dirs') as Hsub
      by (subst dirs'; case_bool_decide; [done|apply union_subseteq_l]).
    assert (parent path ≠ [] → parent path ∈ dirs') as Hthere.
    { intros Hne. subst dirs'. case_bool_decide; [done|].
      apply elem_of_union_r. by apply self_in_ancestors. }
    destruct (imwrite path) eqn:Hw.
    + destruct (IH (mkSp dirs' (sp_written st ++ [(path, map (map (Z.mul 255)) pred)])))
        as (Hwr & Hd & Hok & Hres & Hpar).
      cbn [sp_written sp_dirs] in *.
      split; [by rewrite Hwr, <- app_assoc|]. split; [by transitivity dirs'|].
      split; [|split; [done|]].
      * rewrite Hok. split; [by intros ->|]. by intros [= ->].
      * intros pair [->|Hp]%elem_of_cons Hne; [|by apply Hpar].
        apply Hd. by apply Hthere.
    + cbn. rewrite app_nil_r. repeat split; try done; [by right|].
      intros pair Hp. by apply elem_of_nil in Hp.
Qed.

(** X12.  [save_predictions] writes, in order, 255 times each prediction to
    its path, for the pairs of [zip(predictions, output_paths)] up to the
    first write that fails; it returns normally exactly when no write fails
    and raises [AssertionError] otherwise, leaving the later predictions
    unwritten.  It removes no directory, and the parent directory of every
    file written is there afterwards. *)
Theorem save_predictions_until_first_failure predictions output_paths st :
  let pairs := zip predictions output_paths in
  let run := save_predictions imwrite predictions output_paths st in
  sp_written run.2 = sp_written st ++ map times255 (saved_prefix imwrite pairs) ∧
  sp_dirs st ⊆ sp_dirs run.2 ∧
  (run.1 = Ok tt ↔ saved_prefix imwrite pairs = pairs) ∧
  (run.1 = Ok tt ∨ run.1 = Raise AssertionError) ∧
  (run.1 = Ok tt →
     length (sp_written run.2) =
       (length (sp_written st) + length predictions `min` length output_paths)%nat) ∧
  (∀ pair, pair ∈ saved_prefix imwrite pairs → parent pair.2 ≠ [] →
           parent pair.2 ∈ sp_dirs run.2).
Proof.
  cbn zeta. unfold save_predictions.
  destruct (save_loop_spec (zip predictions output_paths) st)
    as (Hwr & Hd & Hok & Hres & Hpar).
  split; [done|]. split; [done|]. split; [done|]. split; [done|]. split; [|done].
  intros Hr. apply Hok in Hr. rewrite Hwr, Hr, length_app, length_map.
  by rewrite length_zip_with.
Qed.

End SaveFacts.

Lemma save_predictions_until_first_failure_witness :
  length (sp_written
            (save_predictions (λ _, true) [[[0; 1]]; [[1; 1]]] two_masks (mkSp ∅ [])).2)
    = 2%nat.
Proof.
  pose proof (save_predictions_until_first_failure (λ _, true)
                [[[0; 1]]; [[1; 1]]] two_masks (mkSp ∅ [])) as Hsave.
  cbn zeta in Hsave. destruct Hsave as (_ & _ & Hok & _ & Hlen & _).
  apply Hlen. apply Hok. reflexivity.
Defined.

Lemma launch_loop_covers_count_witness :
  ∃ runs w',
    launch_loop 5 0 37 [] (sim_world (cfg_with_count 37) []) =
      Some (Ok (launched runs), w') ∧
    foldr Z.add 0 (batch_sizes runs) = 37 ∧ Z.of_nat (length runs) = 4 ∧
    now w' = 1015.
Proof.
  destruct (launch_loop_covers_count 5 0 37 [] (sim_world (cfg_with_count 37) []))
    as (runs & w' & Hrun & _ & _ & Hlen & _ & Hsum & _ & Hnow);
    [lia | vm_compute; lia |].
  exists runs, w'. split; [exact Hrun|]. split; [exact Hsum|]. split; [exact Hlen|].
  rewrite Hnow, Hlen. reflexivity.
Defined.

Lemma wait_is_bounded_witness :
  ∃ r w' evs,
    wait_for_stop 31 ["task/0"] (Nullary (λ w, 1020 <=? now w)) 10 300
      (sim_world (cfg_with_count 1) []) = Some (r, w') ∧
    history w' = evs ∧ (polls evs ≤ 30)%nat.
Proof.
  destruct (wait_is_bounded ["task/0"] (λ w, 1020 <=? now w) 10 300
              (sim_world (cfg_with_count 1) []) 31)
    as (r & w' & evs & Hrun & Hh & Hp & _); [lia | vm_compute; lia |].
  exists r, w', evs. split; [exact Hrun|]. split; [exact Hh|exact Hp].
Defined.

Lemma wait_edge_cases_witness :
  wait_for_stop 1 ["task/0"] (Nullary (λ _, true)) 10 0
    (sim_world (cfg_with_count 1) []) =
  Some (Raise (ExcTimeout 0), sim_world (cfg_with_count 1) []).
Proof.
  apply (proj1 (wait_edge_cases ["task/0"] 10 0 (sim_world (cfg_with_count 1) []) 0
                  (Nullary (λ _, true)))).
  lia.
Defined.

Lemma polls_launched_tasks_in_am_segm_witness :
  ∃ r w' evs,
    run_wait_for_inference_task 3 0 (Nullary (λ _, true)) 10 300
      (sim_world cfg_other_cluster []) = Some (r, w') ∧
    history w' = evs ∧
    described_clusters evs = ["am-segm"] ∧
    Forall (λ a, a = launched evs) (described_tasks evs).
Proof.
  destruct (run_wait_for_inference_task 3 0 (Nullary (λ _, true)) 10 300
              (sim_world cfg_other_cluster [])) as [[r w']|] eqn:Hrun;
    [|vm_compute in Hrun; discriminate].
  destruct (polls_launched_tasks_in_am_segm (sim_world cfg_other_cluster []) 0 2
              (Nullary (λ _, true)) 10 300 3 r w')
    as (evs & Hh & _ & _ & Hta); [reflexivity | lia | lia | exact Hrun |].
  exists r, w', evs. split; [reflexivity|]. split; [exact Hh|]. split; [|exact Hta].
  cbn in Hh. rewrite <- Hh. vm_compute in Hrun. injection Hrun as _ <-. reflexivity.
Defined.

Lemma consume_messages_in_two_goes_witness :
  ∃ p1 h1 w1 p2 h2 w2,
    consume_messages "queue" 1 (sim_world ∅ three_messages) = Some (Ok (p1, h1), w1) ∧
    consume_messages "queue" 2 w1 = Some (Ok (p2, h2), w2) ∧
    consume_messages "queue" (1 + 2) (sim_world ∅ three_messages) =
      Some (Ok (p1 ++ p2, h1 ++ h2), w2).
Proof.
  apply (consume_messages_in_two_goes "queue" 1 2 (sim_world ∅ three_messages)); lia.
Defined.

Lemma no_queue_run :
  upload_images_to_s3 (λ _, true) (λ _, true)
    ["tiles/0000.png"; "tiles/0001.png"] "am-segm"
    ["g1/source/0000.png"; "g1/source/0001.png"; "g1/source/0002.png"]
    None no_queue_trace.
Proof.
  split.
  - intros i _ [=].
  - cbn. unfold no_queue_trace.
    eapply (merge_step _ 1%nat); [reflexivity|]. cbn.
    eapply (merge_step _ 0%nat); [reflexivity|]. cbn.
    apply merge_done. by repeat constructor.
Qed.

Lemma upload_without_queue_witness :
  filter is_send no_queue_trace = [] ∧ length no_queue_trace = 2%nat.
Proof.
  destruct (upload_without_queue (λ _, true) (λ _, true) "am-segm" None eq_refl
              ["tiles/0000.png"; "tiles/0001.png"]
              ["g1/source/0000.png"; "g1/source/0001.png"; "g1/source/0002.png"]
              no_queue_trace no_queue_run) as (Hsend & _ & _ & _ & Hall).
  split; [exact Hsend|]. apply Hall. done.
Defined.

Lemma count_missing_or_not_a_number_witness :
  run_wait_for_inference_task 3 0 (Nullary (λ _, true)) 10 300
    (sim_world cfg_without_count []) =
  Some (Raise (KeyError "count"), sim_world cfg_without_count []).
Proof.
  apply (proj1 (count_missing_or_not_a_number 3 0 (Nullary (λ _, true)) 10 300
                  (sim_world cfg_without_count []))).
  reflexivity.
Defined.

End EcsMoreSpec.

(** * Further properties of stitching, slicing and the file names *)

Module TilesMoreSpec.
Import Tiles TilesMore TilesSpec.
Local Open Scope nat_scope.

(** *** Loading the tiles of a directory *)

Section LoadTiles.
Variable cv2_resize : array → nat → nat → array.
Variable ts : nat.

Let body (path : tile_file) (tiles : list (option array)) : result (list (option array)) :=
  let i := stem path in
  if i <? length tiles
  then Ok (<[i := Some (cv2_resize (pixels path) ts ts)]> tiles)
  else Raise IndexError.

(** With distinct stems that are all in range every file is put at the index
    its stem spells and the other entries are left alone. *)
Lemma load_loop_by_stem (files : list tile_file) (tiles0 : list (option array)) :
  NoDup (stem <$> files) →
  (∀ f, f ∈ files → stem f < length tiles0) →
  ∃ tiles,
    for_each files body tiles0 = Ok tiles ∧
    length tiles = length tiles0 ∧
    (∀ f, f ∈ files → tiles !! stem f = Some (Some (cv2_resize (pixels f) ts ts))) ∧
    (∀ k, k ∉ stem <$> files → tiles !! k = tiles0 !! k).
Proof.
  revert tiles0. induction files as [|f0 files IH]; intros tiles0 Hnd Hlt.
  - exists tiles0. repeat split; try done. intros f Hf. by apply elem_of_nil in Hf.
  - rewrite fmap_cons in Hnd. apply NoDup_cons in Hnd as [Hf0 Hnd].
    cbn [for_each]. unfold body at 1. cbv zeta.
    assert (stem f0 < length tiles0) as Hs by (apply Hlt; left).
    rewrite (proj2 (Nat.ltb_lt _ _) Hs).
    destruct (IH (<[stem f0 := Some (cv2_resize (pixels f0) ts ts)]> tiles0) Hnd)
      as (tiles & Hrun & Hlen & Hin & Hout).
    { intros f Hf. rewrite length_insert. apply Hlt. by right. }
    exists tiles. split; [done|]. split; [by rewrite Hlen, length_insert|]. split.
    + intros f [->|Hf]%elem_of_cons; [|by apply Hin].
      rewrite (Hout _ Hf0). by apply list_lookup_insert_eq.
    + intros k Hk. rewrite fmap_cons in Hk. apply not_elem_of_cons in Hk as [Hk0 Hk].
      rewrite (Hout _ Hk). by apply list_lookup_insert_ne.
Qed.

(** A stem that is not below the number of entries ends the loop with
    [IndexError]. *)
Lemma load_loop_out_of_range (files : list tile_file) (tiles0 : list (option array)) f :
  f ∈ files → length tiles0 ≤ stem f →
  for_each files body tiles0 = Raise IndexError.
Proof.
  revert tiles0. induction files as [|f0 files IH]; intros tiles0 Hf Hge.
  - by apply elem_of_nil in Hf.
  - cbn [for_each]. unfold body at 1. cbv zeta.
    destruct (Nat.ltb_spec (stem f0) (length tiles0)) as [Hlt|Hle]; [|done].
    apply elem_of_cons in Hf as [->|Hf]; [lia|].
    apply IH; [done|]. by rewrite length_insert.
Qed.

(** The loop of [load_tiles] from the list of [None]s. *)
Lemma load_tiles_in_range (files : list tile_file) :
  NoDup (stem <$> files) →
  (∀ f, f ∈ files → stem f < length files) →
  ∃ tiles,
    load_tiles cv2_resize files ts = Ok tiles ∧
    length tiles = length files ∧
    ∀ f, f ∈ files → tiles !! stem f = Some (Some (cv2_resize (pixels f) ts ts)).
Proof.
  intros Hnd Hlt. unfold load_tiles. fold body.
  destruct (load_loop_by_stem files (replicate (length files) None) Hnd)
    as (tiles & Hrun & Hlen & Hin & _).
  { intros f Hf. rewrite length_replicate. by apply Hlt. }
  exists tiles. rewrite length_replicate in Hlen. done.
Qed.

(** X13.  When the stems of the files are distinct and below the number of
    files, [load_tiles] puts every tile, resized, at the index its stem
    spells, and the list it returns does not depend on the order in which
    the directory is listed. *)
Theorem load_tiles_by_stem (files files' : list tile_file) :
  NoDup (stem <$> files) →
  (∀ f, f ∈ files → stem f < length files) →
  files' ≡ₚ files →
  ∃ tiles,
    load_tiles cv2_resize files ts = Ok tiles ∧
    load_tiles cv2_resize files' ts = Ok tiles ∧
    length tiles = length files ∧
    ∀ f, f ∈ files → tiles !! stem f = Some (Some (cv2_resize (pixels f) ts ts)).
Proof.
  intros Hnd Hlt Hperm. unfold load_tiles. fold body.
  destruct (load_loop_by_stem files (replicate (length files) None) Hnd)
    as (tiles & Hrun & Hlen & Hin & Hout).
  { intros f Hf. rewrite length_replicate. by apply Hlt. }
  destruct (load_loop_by_stem files' (replicate (length files') None))
    as (tiles' & Hrun' & Hlen' & Hin' & Hout').
  { by rewrite Hperm. }
  { intros f Hf. rewrite length_replicate, Hperm. apply Hlt. by rewrite <- Hperm. }
  rewrite length_replicate in Hlen, Hlen'.
  assert (tiles' = tiles) as ->.
  { apply list_eq_same_length with (length files); [done|by rewrite Hlen', Hperm|].
    intros k t t' Hk Ht' Ht.
    destruct (decide (k ∈ stem <$> files)) as [Hk'|Hk'].
    - apply list_elem_of_fmap in Hk' as (f & -> & Hf).
      rewrite (Hin f Hf) in Ht. rewrite (Hin' f) in Ht' by (by rewrite Hperm).
      congruence.
    - rewrite (Hout k Hk') in Ht. rewrite (Hout' k) in Ht' by (by rewrite Hperm).
      rewrite Hperm in Ht'. congruence. }
  exists tiles. by rewrite Hrun, Hrun', Hlen.
Qed.

(** X14.  A file whose stem is not below the number of files makes
    [load_tiles], and with it [stitch_and_crop_tiles], raise [IndexError];
    if the number of files is the one of the metadata, nothing is logged
    before. *)
Theorem stem_out_of_range_raises (files : list tile_file) meta f :
  f ∈ files → length files ≤ stem f →
  load_tiles cv2_resize files ts = Raise IndexError ∧
  (stitch_and_crop_tiles cv2_resize files ts meta).2 = Raise IndexError ∧
  (length files = rows (tile meta) * cols (tile meta) →
     (stitch_and_crop_tiles cv2_resize files ts meta).1 = []).
Proof.
  intros Hf Hge.
  assert (load_tiles cv2_resize files ts = Raise IndexError) as Hload.
  { unfold load_tiles. fold body. apply (load_loop_out_of_range _ _ f); [done|].
    by rewrite length_replicate. }
  split; [done|]. unfold stitch_and_crop_tiles. cbn [fst snd]. rewrite Hload.
  split; [done|]. intros ->. by rewrite Nat.eqb_refl.
Qed.

End LoadTiles.

(** *** Stitching the blocks of an image, and a complete directory *)

Lemma bind_seq_blocks {A} (g : nat → list A) (c n : nat) :
  (∀ k, length (g k) = c) →
  length (seq 0 n ≫= g) = n * c ∧
  ∀ i j, i < n → j < c → (seq 0 n ≫= g) !! (i * c + j) = g i !! j.
Proof.
  intros Hg. induction n as [|n [IHl IH]].
  - split; [done|]. intros i j Hi. lia.
  - rewrite seq_S, bind_app. cbn [mbind list_bind].
    change ([0 + n] ≫= g) with (g n ++ []). rewrite app_nil_r.
    split; [rewrite length_app, IHl, Hg; lia|].
    intros i j Hi Hj. destruct (decide (i < n)) as [Hlt|Hge].
    + rewrite lookup_app_l by (rewrite IHl; nia). by apply IH.
    + assert (i = n) as -> by lia.
      rewrite lookup_app_r by (rewrite IHl; lia). f_equal. rewrite IHl. lia.
Qed.

Lemma lookup_blocks_of image ts nrows ncols i j :
  i < nrows → j < ncols →
  blocks_of image ts nrows ncols !! (i * ncols + j) = Some (Some (block image i j ts)).
Proof.
  intros Hi Hj. unfold blocks_of.
  assert (∀ i0, length (seq 0 ncols ≫= λ j0, [Some (block image i0 j0 ts)]) = ncols
              ∧ ∀ j0, j0 < ncols →
                  (seq 0 ncols ≫= λ j0, [Some (block image i0 j0 ts)]) !! j0 =
                    Some (Some (block image i0 j0 ts))) as Hinner.
  { intros i0.
    destruct (bind_seq_blocks (λ j0, [Some (block image i0 j0 ts)]) 1 ncols) as [Hl Hk];
      [done|].
    split; [lia|]. intros j0 Hj0. specialize (Hk j0 0 Hj0 ltac:(lia)).
    by replace (j0 * 1 + 0) with j0 in Hk by lia. }
  destruct (bind_seq_blocks
              (λ i0, seq 0 ncols ≫= λ j0, [Some (block image i0 j0 ts)]) ncols nrows)
    as [_ Hk]; [intros k; apply Hinner|].
  rewrite (Hk i j Hi Hj). by apply Hinner.
Qed.

Lemma has_shape_block image ts nrows ncols i j :
  has_shape (ts * nrows) (ts * ncols) image → i < nrows → j < ncols →
  has_shape ts ts (block image i j ts).
Proof.
  intros Hsh Hi Hj. unfold block.
  pose proof (has_shape_slice2 (ts * nrows) (ts * ncols) image
                (i * ts) ((i + 1) * ts) (j * ts) ((j + 1) * ts) Hsh) as Hb.
  replace ((i + 1) * ts - i * ts) with ts in Hb by lia.
  replace ((j + 1) * ts - j * ts) with ts in Hb by lia.
  apply Hb; nia.
Qed.

(** X15.  Stitching the blocks of an image, taken in row-major order, gives
    the image back. *)
Theorem stitch_tiles_of_blocks image ts nrows ncols :
  0 < ts → 0 < nrows → 0 < ncols →
  has_shape (ts * nrows) (ts * ncols) image →
  stitch_tiles (blocks_of image ts nrows ncols) ts nrows ncols = Ok image.
Proof.
  intros Hts Hr Hc Hsh.
  assert (∀ k, k < nrows * ncols →
               ∃ t, blocks_of image ts nrows ncols !! k = Some (Some t) ∧
                    has_shape ts ts t) as Hcomplete.
  { intros k Hk.
    pose proof (Nat.div_mod_eq k ncols) as Hdm.
    pose proof (Nat.mod_upper_bound k ncols ltac:(lia)) as Hmod.
    assert (k / ncols < nrows) as Hdiv by (apply Nat.Div0.div_lt_upper_bound; lia).
    exists (block image (k / ncols) (k mod ncols) ts). split.
    - rewrite <- (lookup_blocks_of image ts nrows ncols) by done. f_equal. lia.
    - by apply (has_shape_block image ts nrows ncols). }
  unfold stitch_tiles.
  destruct (Hcomplete 0) as (t0 & Ht0 & _); [nia|]. rewrite Ht0.
  destruct (stitch_grid (blocks_of image ts nrows ncols) ts nrows ncols Hts Hcomplete)
    as (image' & -> & Hsh' & Hpl).
  f_equal. apply (array_eq (ts * nrows) (ts * ncols)); [done|done|].
  intros y x Hy Hx.
  pose proof (Nat.div_mod_eq y ts) as Hdy. pose proof (Nat.div_mod_eq x ts) as Hdx.
  pose proof (Nat.mod_upper_bound y ts ltac:(lia)) as Hmy.
  pose proof (Nat.mod_upper_bound x ts ltac:(lia)) as Hmx.
  assert (y / ts < nrows) as Hi by (apply Nat.Div0.div_lt_upper_bound; lia).
  assert (x / ts < ncols) as Hj by (apply Nat.Div0.div_lt_upper_bound; lia).
  specialize (Hpl (y / ts) (x / ts) Hi Hj (block image (y / ts) (x / ts) ts)
                (y mod ts) (x mod ts) (lookup_blocks_of _ _ _ _ _ _ Hi Hj) Hmy Hmx).
  replace (y / ts * ts + y mod ts) with y in Hpl by lia.
  replace (x / ts * ts + x mod ts) with x in Hpl by lia.
  rewrite Hpl. unfold block. rewrite px_slice2 by lia. f_equal; lia.
Qed.

Section CompleteDirectory.
Variable cv2_resize : array → nat → nat → array.

(** X16.  For a directory whose stems are 0 to [rows*cols - 1] in any order
    and whose tiles are [tile_size] by [tile_size] after resizing, and a
    crop that fits, [stitch_and_crop_tiles] logs nothing and returns the
    image of [h] by [w] pixels cut from the centre of the stitched grid:
    pixel [(y, x)] of tile [k] is at row [(k/cols)*tile_size + y] and column
    [(k%cols)*tile_size + x] of the grid, less the offsets
    [(rows*tile_size - h)/2] and [(cols*tile_size - w)/2]. *)
Theorem stitch_and_crop_complete_directory (files : list tile_file) (ts : nat) meta :
  0 < ts → 0 < rows (tile meta) → 0 < cols (tile meta) →
  stem <$> files ≡ₚ seq 0 (rows (tile meta) * cols (tile meta)) →
  (∀ f, f ∈ files → has_shape ts ts (cv2_resize (pixels f) ts ts)) →
  h (image meta) ≤ ts * rows (tile meta) →
  w (image meta) ≤ ts * cols (tile meta) →
  ∃ cropped,
    stitch_and_crop_tiles cv2_resize files ts meta = ([], Ok cropped) ∧
    has_shape (h (image meta)) (w (image meta)) cropped ∧
    ∀ f y x, f ∈ files → y < ts → x < ts →
      let oy := (ts * rows (tile meta) - h (image meta)) / 2 in
      let ox := (ts * cols (tile meta) - w (image meta)) / 2 in
      let gy := stem f / cols (tile meta) * ts + y in
      let gx := stem f mod cols (tile meta) * ts + x in
      oy ≤ gy < oy + h (image meta) → ox ≤ gx < ox + w (image meta) →
      px cropped (gy - oy) (gx - ox) = px (cv2_resize (pixels f) ts ts) y x.
Proof.
  set (nrows := rows (tile meta)). set (ncols := cols (tile meta)).
  set (ch := h (image meta)). set (cw := w (image meta)).
  intros Hts Hr Hc Hperm Hshape Hch Hcw.
  assert (length files = nrows * ncols) as Hlen
    by (rewrite <- (length_fmap stem), Hperm; apply length_seq).
  assert (NoDup (stem <$> files)) as Hnd by (rewrite Hperm; apply NoDup_seq).
  assert (∀ f, f ∈ files → stem f < length files) as Hlt.
  { intros f Hf. assert (stem f ∈ stem <$> files) as Hs
      by (apply list_elem_of_fmap; eauto).
    rewrite Hperm in Hs. apply elem_of_seq in Hs. lia. }
  destruct (load_tiles_in_range cv2_resize ts files Hnd Hlt)
    as (tiles & Hload & Hlt' & Hat).
  assert (∀ k, k < nrows * ncols →
               ∃ t, tiles !! k = Some (Some t) ∧ has_shape ts ts t) as Hcomplete.
  { intros k Hk. assert (k ∈ stem <$> files) as Hs
      by (rewrite Hperm; apply elem_of_seq; lia).
    apply list_elem_of_fmap in Hs as (f & -> & Hf).
    exists (cv2_resize (pixels f) ts ts). split; [by apply Hat|by apply Hshape]. }
  destruct (stitch_grid tiles ts nrows ncols Hts Hcomplete) as (grid & Hgrid & Hsh & Hpl).
  unfold stitch_and_crop_tiles. fold nrows ncols ch cw.
  rewrite Hlen, Nat.eqb_refl, Hload. cbn [negb].
  unfold stitch_tiles. destruct (Hcomplete 0) as (t0 & Ht0 & _); [nia|].
  rewrite Ht0, Hgrid. unfold center_crop.
  rewrite (array_shape_of (ts * nrows) (ts * ncols)) by (done || nia).
  rewrite (proj2 (Nat.ltb_ge _ _) Hch), (proj2 (Nat.ltb_ge _ _) Hcw). cbn [orb].
  set (oy := (ts * nrows - ch) / 2). set (ox := (ts * ncols - cw) / 2).
  assert (oy + ch ≤ ts * nrows) as Hoy.
  { pose proof (Nat.div_mod_eq (ts * nrows - ch) 2). subst oy. lia. }
  assert (ox + cw ≤ ts * ncols) as Hox.
  { pose proof (Nat.div_mod_eq (ts * ncols - cw) 2). subst ox. lia. }
  eexists. split; [reflexivity|]. split.
  - pose proof (has_shape_slice2 (ts * nrows) (ts * ncols) grid
                  oy (oy + ch) ox (ox + cw) Hsh) as Hb.
    replace (oy + ch - oy) with ch in Hb by lia.
    replace (ox + cw - ox) with cw in Hb by lia.
    apply Hb; lia.
  - intros f y x Hf Hy Hx. cbv zeta. intros Hgy Hgx.
    rewrite px_slice2 by lia.
    replace (oy + (stem f / ncols * ts + y - oy)) with (stem f / ncols * ts + y) by lia.
    replace (ox + (stem f mod ncols * ts + x - ox)) with (stem f mod ncols * ts + x) by lia.
    pose proof (Hlt f Hf) as Hsf. rewrite Hlen in Hsf.
    pose proof (Nat.div_mod_eq (stem f) ncols) as Hdm.
    pose proof (Nat.mod_upper_bound (stem f) ncols ltac:(lia)) as Hmod.
    assert (stem f / ncols < nrows) as Hdiv
      by (apply Nat.Div0.div_lt_upper_bound; lia).
    apply (Hpl (stem f / ncols) (stem f mod ncols) Hdiv Hmod); [|done|done].
    replace (stem f / ncols * ncols + stem f mod ncols) with (stem f) by lia.
    by apply Hat.
Qed.

End CompleteDirectory.

(** *** Scaling and saving the stitched images *)

Local Open Scope Z_scope.

Lemma foldl_max_le (b v : Z) (vs : list Z) :
  foldl Z.max v vs ≤ b ↔ v ≤ b ∧ Forall (λ u, u ≤ b) vs.
Proof.
  revert v. induction vs as [|u vs IH]; intros v; cbn [foldl].
  - split; [intros Hv; by split|by intros [Hv _]].
  - rewrite IH, Forall_cons. split.
    + intros [Hm Hvs]. split; [lia|]. split; [lia|done].
    + intros [Hv [Hu Hvs]]. split; [lia|done].
Qed.

Lemma array_max_le (a : array) (m : Z) :
  array_max a = Ok m → (m ≤ 1 ↔ Forall (Forall (λ v, v ≤ 1)) a).
Proof.
  unfold array_max. rewrite <- Forall_concat.
  destruct (concat a) as [|v vs]; [done|]. intros [= <-].
  rewrite foldl_max_le, Forall_cons. done.
Qed.

Lemma times_255_small (a : array) :
  Forall (Forall (λ v, 0 ≤ v ≤ 1)) a → times_255 a = map (map (Z.mul 255)) a.
Proof.
  intros Ha. unfold times_255. apply List.map_ext_Forall.
  eapply Forall_impl; [exact Ha|]. intros row Hrow. cbv beta.
  apply List.map_ext_Forall. eapply Forall_impl; [exact Hrow|].
  intros v Hv. cbv beta in Hv |- *.
  assert (v = 0 ∨ v = 1) as [->| ->] by lia; reflexivity.
Qed.

(** X17.  The stitched image is multiplied by 255 exactly when its largest
    entry is at most 1: an image of zeros and ones is saved as zeros and
    255s, without wrap-around, and an image with an entry above 1 is saved
    as it is.  An image without entries raises [ValueError]. *)
Theorem scale_if_binary_rule (a : array) :
  is_uint8 a →
  (concat a = [] → scale_if_binary a = Raise ValueError) ∧
  (concat a ≠ [] → Forall (Forall (λ v, v ≤ 1)) a →
     scale_if_binary a = Ok (map (map (Z.mul 255)) a) ∧
     is_uint8 (map (map (Z.mul 255)) a)) ∧
  (∀ v, v ∈ concat a → 1 < v → scale_if_binary a = Ok a).
Proof.
  intros Hu. unfold scale_if_binary. split; [|split].
  - intros Hc. unfold array_max. by rewrite Hc.
  - intros Hc Hsmall.
    destruct (array_max a) as [m|e] eqn:Hm.
    2:{ unfold array_max in Hm. by destruct (concat a). }
    pose proof (proj2 (array_max_le a m Hm) Hsmall) as Hle.
    rewrite (proj2 (Z.leb_le _ _) Hle).
    assert (Forall (Forall (λ v, 0 ≤ v ≤ 1)) a) as H01.
    { unfold is_uint8 in Hu. rewrite Forall_forall in Hu, Hsmall |- *.
      intros row Hrow. specialize (Hu row Hrow). specialize (Hsmall row Hrow).
      rewrite Forall_forall in Hu, Hsmall |- *. intros v Hv.
      specialize (Hu v Hv). specialize (Hsmall v Hv). lia. }
    rewrite times_255_small by done. split; [done|].
    unfold is_uint8. apply List.Forall_map. eapply Forall_impl; [exact H01|].
    intros row Hrow. cbv beta. apply List.Forall_map.
    eapply Forall_impl; [exact Hrow|]. intros v Hv. cbv beta in Hv |- *. lia.
  - intros v Hv Hbig.
    destruct (array_max a) as [m|e] eqn:Hm.
    2:{ unfold array_max in Hm. destruct (concat a); [by apply elem_of_nil in Hv|done]. }
    destruct (Z.leb_spec m 1) as [Hle|Hgt]; [|done].
    apply (array_max_le a m Hm) in Hle. rewrite <- Forall_concat in Hle.
    rewrite Forall_forall in Hle. specialize (Hle v Hv). lia.
Qed.

Local Close Scope Z_scope.

Section StitchGroupFacts.
Variable cv2_resize : array → nat → nat → array.
Variables (directories : string → option (list tile_file)) (ts : nat) (meta : group_meta).

Lemma stitch_types_spec (image_types : list string) :
  let run := stitch_types cv2_resize image_types directories ts meta in
  (∀ image_type saved_image, (image_type, saved_image) ∈ run.1.2 →
     ∃ files stitched,
       directories image_type = Some files ∧
       (stitch_and_crop_tiles cv2_resize files ts meta).2 = Ok stitched ∧
       scale_if_binary stitched = Ok saved_image) ∧
  sublist (run.1.2.*1) image_types ∧
  (run.2 = Ok tt →
     run.1.2.*1 = filter (λ t, is_Some (directories t)) image_types).
Proof.
  cbn zeta. induction image_types as [|t types (IHin & IHsub & IHok)].
  - cbn. split; [|done]. intros ? ? Hin. by apply elem_of_nil in Hin.
  - cbn [stitch_types]. destruct (directories t) as [files|] eqn:Hdir.
    2:{ split; [done|]. split; [by apply sublist_cons|]. intros Hr.
        rewrite filter_cons_False; [by apply IHok|]. rewrite Hdir. by intros [? ?]. }
    destruct (stitch_and_crop_tiles cv2_resize files ts meta) as [log [stitched|e]] eqn:Hst.
    2:{ cbn. split; [|split; [apply sublist_nil_l|done]].
        intros ? ? Hin. by apply elem_of_nil in Hin. }
    destruct (scale_if_binary stitched) as [scaled|e] eqn:Hsc.
    2:{ cbn. split; [|split; [apply sublist_nil_l|done]].
        intros ? ? Hin. by apply elem_of_nil in Hin. }
    destruct (stitch_types cv2_resize types directories ts meta) as [[log' saved] r'].
    cbn [fst snd] in *. split; [|split].
    + intros image_type saved_image [[= -> ->]|Hin]%elem_of_cons; [|by apply IHin].
      exists files, stitched. by rewrite Hst.
    + rewrite fmap_cons. cbn. by apply sublist_skip.
    + intros Hr. rewrite fmap_cons, filter_cons_True by (by rewrite Hdir).
      cbn. f_equal. by apply IHok.
Qed.

(** X18.  [stitch_tiles_at_path] saves at most a source and a mask, in this
    order and only for directories that exist; each saved image is the
    stitched and cropped image of its directory after the scaling rule; when
    it returns normally every existing directory has its image; and when
    stitching the source raises, nothing is saved and the mask is not
    stitched. *)
Theorem stitch_tiles_at_path_saves :
  let run := stitch_tiles_at_path cv2_resize directories ts meta in
  (∀ image_type saved_image, (image_type, saved_image) ∈ run.1.2 →
     ∃ files stitched,
       directories image_type = Some files ∧
       (stitch_and_crop_tiles cv2_resize files ts meta).2 = Ok stitched ∧
       scale_if_binary stitched = Ok saved_image) ∧
  sublist (run.1.2.*1) ["source"; "mask"] ∧
  (run.2 = Ok tt →
     run.1.2.*1 = filter (λ t, is_Some (directories t)) ["source"; "mask"]) ∧
  (∀ files e, directories "source" = Some files →
     (stitch_and_crop_tiles cv2_resize files ts meta).2 = Raise e →
     run.1.2 = [] ∧ run.2 = Raise e ∧
     run.1.1 = (stitch_and_crop_tiles cv2_resize files ts meta).1).
Proof.
  cbn zeta. unfold stitch_tiles_at_path.
  destruct (stitch_types_spec ["source"; "mask"]) as (Hin & Hsub & Hok).
  split; [done|]. split; [done|]. split; [done|].
  intros files e Hdir Hraise. cbn [stitch_types]. rewrite Hdir.
  destruct (stitch_and_crop_tiles cv2_resize files ts meta) as [log r].
  cbn [snd] in Hraise. by rewrite Hraise.
Qed.

End StitchGroupFacts.

(** *** From slicing to loading *)

Lemma directory_of_tiles (width : nat) (tiles : list array) (g : nat → nat) :
  directory_of (imap (λ i, SaveTile width (g i)) tiles) =
    imap (λ i t, {| stem := g i; pixels := t |}) tiles.
Proof.
  revert g. induction tiles as [|t tiles IH]; intros g; [done|].
  cbn. f_equal. apply (IH (g ∘ S)).
Qed.

Lemma directory_of_writes (width : nat) (tiles : list array) name value :
  directory_of (WriteJson name value :: imap (SaveTile width) tiles) =
    imap (λ i t, {| stem := i; pixels := t |}) tiles.
Proof. cbn. apply (directory_of_tiles width tiles id). Qed.

Lemma load_tiles_of_enumerated cv2_resize (ts : nat) (tiles : list array) :
  load_tiles cv2_resize (imap (λ i t, {| stem := i; pixels := t |}) tiles) ts =
    Ok ((λ t, Some (cv2_resize t ts ts)) <$> tiles).
Proof.
  set (files := imap (λ i t, {| stem := i; pixels := t |}) tiles).
  assert (stem <$> files = seq 0 (length tiles)) as Hstems.
  { unfold files. rewrite fmap_imap.
    rewrite <- (list_fmap_id (seq 0 (length tiles))). apply (imap_seq_0 tiles id). }
  destruct (load_tiles_in_range cv2_resize ts files) as (loaded & -> & Hlen & Hat).
  { rewrite Hstems. apply NoDup_seq. }
  { intros f Hf. assert (stem f ∈ stem <$> files) as Hs
      by (apply list_elem_of_fmap; eauto).
    rewrite Hstems in Hs. apply elem_of_seq in Hs. unfold files.
    rewrite length_imap. lia. }
  f_equal. unfold files in Hlen. rewrite length_imap in Hlen.
  apply list_eq. intros i. rewrite list_lookup_fmap.
  destruct (tiles !! i) as [t|] eqn:Ht.
  - change i with (stem {| stem := i; pixels := t |}) at 1. rewrite Hat; [done|].
    unfold files. by apply (elem_of_lookup_imap_2 (λ i t, {| stem := i; pixels := t |})).
  - apply lookup_ge_None. apply lookup_ge_None in Ht. lia.
Qed.

Section SliceThenLoad.
Variable shape : array → list Z.
Variable cv2_resize_area : array → Z → Z → array.
Variable compute_tile_row_col_n : list Z → Z → Z * Z.
Variable pad_slice_image : array → Z → Z * Z → list array.
Variable cv2_resize : array → nat → nat → array.

(** X19.  The tile directory that [slice_to_tiles] writes loads back in
    full: the files are the tiles of [pad_slice_image] for the shrunk image,
    each under its index, and [load_tiles] on this directory returns every one
    of them, resized, at its index, with no entry left [None]. *)
Theorem sliced_tiles_load_back (image : array) (tile_size : Z) (ts : nat) writes :
  slice_to_tiles array shape cv2_resize_area compute_tile_row_col_n pad_slice_image
    image tile_size = Ok writes →
  ∃ shrunk,
    shrink_to array shape cv2_resize_area (tile_size * 40) image = Ok shrunk ∧
    let grid := compute_tile_row_col_n (shape shrunk) tile_size in
    let tiles :=
      pad_slice_image shrunk tile_size (grid.1 * tile_size, grid.2 * tile_size)%Z in
    directory_of writes = imap (λ i t, {| stem := i; pixels := t |}) tiles ∧
    load_tiles cv2_resize (directory_of writes) ts =
      Ok ((λ t, Some (cv2_resize t ts ts)) <$> tiles).
Proof.
  unfold slice_to_tiles. intros Hrun.
  destruct (shape image) as [|orig_h [|orig_w ?]]; try done.
  destruct (shrink_to array shape cv2_resize_area (tile_size * 40) image)
    as [shrunk|e]; [|done].
  exists shrunk. split; [done|]. cbv zeta.
  destruct (compute_tile_row_col_n (shape shrunk) tile_size) as [tile_row_n tile_col_n].
  cbn [fst snd].
  destruct (shape shrunk) as [|h' [|w' ?]]; try done.
  injection Hrun as <-.
  rewrite directory_of_writes. split; [done|]. apply load_tiles_of_enumerated.
Qed.

(** X20.  The same for [am_segm/preprocess.py]: what its slicing loop writes
    for an image is read back by the loop of its [stitch_and_crop_tiles] as
    the list of all the tiles, in order. *)
Theorem am_segm_sliced_tiles_load_back (image : array) (ts : nat) writes :
  am_segm_slice_image array shape cv2_resize_area compute_tile_row_col_n
    pad_slice_image image = Ok writes →
  ∃ shrunk,
    shrink_to array shape cv2_resize_area (512 * 15) image = Ok shrunk ∧
    let grid := compute_tile_row_col_n (shape shrunk) 512 in
    let tiles := pad_slice_image shrunk 512 (grid.1 * 512, grid.2 * 512)%Z in
    directory_of writes = imap (λ i t, {| stem := i; pixels := t |}) tiles ∧
    load_tiles (λ tile _ _, tile) (directory_of writes) ts = Ok (Some <$> tiles).
Proof.
  unfold am_segm_slice_image. cbv zeta. intros Hrun.
  destruct (shrink_to array shape cv2_resize_area (512 * 15) image)
    as [shrunk|e]; [|done].
  exists shrunk. split; [done|].
  destruct (compute_tile_row_col_n (shape shrunk) 512) as [tile_row_n tile_col_n].
  cbn [fst snd].
  destruct (shape shrunk) as [|h' [|w' [|? ?]]]; try done.
  injection Hrun as <-.
  rewrite directory_of_writes. split; [done|].
  apply (load_tiles_of_enumerated (λ tile _ _, tile)).
Qed.

End SliceThenLoad.

(** *** Renaming and normalizing *)

(** X21.  [rename_image] returns a path in the same directory named
    [source.tiff] or [mask.tiff], the latter exactly for the stem [mask]; it
    renames exactly when the path it is given differs from the one it
    returns; and on the path it returned it renames nothing and returns the
    same path. *)
Theorem rename_image_normal_form (p : fs_path) :
  let out := (rename_image p).2 in
  path_parent out = path_parent p ∧
  path_suffix out = ".tiff" ∧
  (path_stem out = "source" ∨ path_stem out = "mask") ∧
  (path_stem out = "mask" ↔ path_stem p = "mask") ∧
  (rename_image p).1 = (if decide (p = out) then [] else [(p, out)]) ∧
  rename_image out = ([], out).
Proof.
  cbv zeta. unfold rename_image. cbn [fst snd].
  destruct p as [parent name suffix]. cbn [path_parent path_stem path_suffix].
  case_bool_decide as Hstem.
  - assert (name = "source" ∨ name = "mask") as Hname.
    { apply elem_of_cons in Hstem as [->|Hstem]; [by left|].
      apply elem_of_cons in Hstem as [->|Hstem]; [by right|].
      by apply elem_of_nil in Hstem. }
    cbn [path_parent path_stem path_suffix].
    repeat split; try done.
    + case_bool_decide; case_decide; congruence.
    + rewrite (bool_decide_eq_true_2 (name ∈ _)) by done.
      by rewrite bool_decide_eq_false_2 by (by intros Hne; apply Hne).
  - cbn [path_parent path_stem path_suffix].
    assert (name ≠ "mask") as Hmask.
    { intros ->. apply Hstem. apply elem_of_cons. right. apply elem_of_cons. by left. }
    repeat split; try done.
    + by left.
    + case_bool_decide; case_decide; congruence.
    + rewrite (bool_decide_eq_true_2 ("source" ∈ _)) by (apply elem_of_cons; by left).
      by rewrite bool_decide_eq_false_2 by (by intros Hne; apply Hne).
Qed.

(** X22.  Two different files of one directory whose stems are neither
    [source] nor [mask] are both renamed, and to the same path. *)
Theorem rename_image_same_target (p1 p2 : fs_path) :
  path_parent p1 = path_parent p2 →
  path_stem p1 ∉ ["source"; "mask"] → path_stem p2 ∉ ["source"; "mask"] →
  ∃ out, rename_image p1 = ([(p1, out)], out) ∧ rename_image p2 = ([(p2, out)], out).
Proof.
  intros Hparent H1 H2. unfold rename_image.
  rewrite (bool_decide_eq_false_2 (path_stem p1 ∈ _)) by done.
  rewrite (bool_decide_eq_false_2 (path_stem p2 ∈ _)) by done. rewrite Hparent.
  eexists. split.
  - rewrite bool_decide_eq_true_2; [reflexivity|].
    intros Heq. apply H1. rewrite Heq. cbn. apply elem_of_cons. by left.
  - rewrite bool_decide_eq_true_2; [reflexivity|].
    intros Heq. apply H2. rewrite Heq. cbn. apply elem_of_cons. by left.
Qed.

Section NormalizeFacts.
Variable img : Type.
Variable clip : img → Z → Z → img.
Variable normalize : img → img.

Lemma chain_globs_names (patterns : list string) (listing : list (string * img)) f :
  f ∈ chain_globs img patterns listing →
  f ∈ listing ∧ ∃ p, p ∈ patterns ∧ glob_match p f.1 = true.
Proof.
  unfold chain_globs. intros (p & Hf & Hp)%list_elem_of_bind.
  apply list_elem_of_filter in Hf as [Hm Hf]. eauto.
Qed.

(** X23.  No file that the two patterns find is named [mask], so the test of
    the loop never skips a file: [normalize_source] saves nothing when no
    file matches, and otherwise saves as [source.tiff] the first file
    matching [*.tif*], or the first file matching [*.png] when there is none,
    clipped and normalized, also when that file is [mask.tiff]. *)
Theorem normalize_source_takes_first_found (listing : list (string * img)) (q1 q2 : Z) :
  (∀ f, f ∈ chain_globs img ["*.tif*"; "*.png"] listing → f.1 ≠ "mask") ∧
  normalize_source img clip normalize listing q1 q2 =
    match filter (λ f, glob_match "*.tif*" f.1 = true) listing ++
          filter (λ f, glob_match "*.png" f.1 = true) listing with
    | [] => []
    | (_, image) :: _ => [("source.tiff", normalize (clip image q1 q2))]
    end.
Proof.
  assert (∀ f, f ∈ chain_globs img ["*.tif*"; "*.png"] listing → f.1 ≠ "mask") as Hnames.
  { intros f (_ & p & Hp & Hm)%chain_globs_names Hname. rewrite Hname in Hm.
    apply elem_of_cons in Hp as [->|Hp]; [by vm_compute in Hm|].
    apply elem_of_cons in Hp as [->|Hp]; [by vm_compute in Hm|].
    by apply elem_of_nil in Hp. }
  split; [done|]. unfold normalize_source.
  assert (chain_globs img ["*.tif*"; "*.png"] listing =
          filter (λ f, glob_match "*.tif*" f.1 = true) listing ++
          filter (λ f, glob_match "*.png" f.1 = true) listing) as Hchain.
  { unfold chain_globs. cbn [mbind list_bind]. by rewrite app_nil_r. }
  rewrite <- Hchain.
  destruct (chain_globs img ["*.tif*"; "*.png"] listing) as [|[name image] found];
    [done|].
  cbn [first_non_mask]. rewrite bool_decide_eq_true_2; [done|].
  apply (Hnames (name, image)). by left.
Qed.

End NormalizeFacts.

(** *** Instances *)

Lemma load_tiles_by_stem_witness :
  ∃ tiles,
    load_tiles (λ tile _ _, tile) shuffled_tile_files 1 = Ok tiles ∧
    load_tiles (λ tile _ _, tile) (reverse shuffled_tile_files) 1 = Ok tiles ∧
    tiles !! 3 = Some (Some [[13%Z]]).
Proof.
  destruct (load_tiles_by_stem (λ tile _ _, tile) 1 shuffled_tile_files
              (reverse shuffled_tile_files))
    as (tiles & Hrun & Hrun' & _ & Hat).
  - apply (bool_decide_unpack _). vm_compute. exact I.
  - intros f Hf. unfold shuffled_tile_files in Hf.
    repeat (apply elem_of_cons in Hf as [->|Hf]; [cbn; lia|]).
    by apply elem_of_nil in Hf.
  - apply reverse_Permutation.
  - exists tiles. split; [exact Hrun|]. split; [exact Hrun'|].
    apply (Hat {| stem := 3; pixels := [[13%Z]] |}).
    unfold shuffled_tile_files. do 2 apply list_elem_of_further. apply list_elem_of_here.
Defined.

Lemma stem_out_of_range_raises_witness :
  (stitch_and_crop_tiles (λ tile _ _, tile) gap_tile_files 1 meta_2x2).2 =
    Raise IndexError ∧
  (stitch_and_crop_tiles (λ tile _ _, tile) gap_tile_files 1 meta_2x2).1 = [].
Proof.
  destruct (stem_out_of_range_raises (λ tile _ _, tile) 1 gap_tile_files meta_2x2
              {| stem := 5; pixels := [[15%Z]] |})
    as (_ & Hraise & Hlog).
  - unfold gap_tile_files, three_tile_files. cbn [app].
    do 3 apply list_elem_of_further. apply list_elem_of_here.
  - cbn. lia.
  - split; [exact Hraise|]. apply Hlog. reflexivity.
Defined.

Lemma stitch_tiles_of_blocks_witness :
  stitch_tiles (blocks_of image_3x2 1 3 2) 1 3 2 = Ok image_3x2.
Proof.
  apply stitch_tiles_of_blocks.
  - lia.
  - lia.
  - lia.
  - split; [reflexivity|]. unfold image_3x2. by repeat constructor.
Defined.

Lemma stitch_and_crop_complete_directory_witness :
  ∃ cropped,
    stitch_and_crop_tiles (λ tile _ _, tile) shuffled_tile_files 1 meta_2x2 =
      ([], Ok cropped) ∧
    px cropped 1 0 = Some 12%Z.
Proof.
  destruct (stitch_and_crop_complete_directory (λ tile _ _, tile)
              shuffled_tile_files 1 meta_2x2)
    as (cropped & Hrun & _ & Hpx).
  - lia.
  - cbn. lia.
  - cbn. lia.
  - cbn. apply (bool_decide_unpack _). vm_compute. exact I.
  - intros f Hf. unfold shuffled_tile_files in Hf.
    repeat (apply elem_of_cons in Hf as [->|Hf];
            [split; [reflexivity|by repeat constructor]|]).
    by apply elem_of_nil in Hf.
  - cbn. lia.
  - cbn. lia.
  - exists cropped. split; [exact Hrun|].
    apply (Hpx {| stem := 2; pixels := [[12%Z]] |} 0 0).
    + unfold shuffled_tile_files. apply list_elem_of_here.
    + lia.
    + lia.
    + cbn. lia.
    + cbn. lia.
Defined.

Lemma scale_if_binary_rule_witness :
  scale_if_binary [[0; 1]; [1; 0]]%Z = Ok [[0; 255]; [255; 0]]%Z.
Proof.
  destruct (scale_if_binary_rule [[0; 1]; [1; 0]]%Z) as (_ & Hsmall & _).
  - unfold is_uint8. repeat (apply Forall_cons; split); try apply Forall_nil; lia.
  - destruct Hsmall as [Hrun _].
    + discriminate.
    + repeat (apply Forall_cons; split); try apply Forall_nil; lia.
    + exact Hrun.
Defined.

Lemma stitch_tiles_at_path_saves_witness :
  (stitch_tiles_at_path (λ tile _ _, tile) mask_only_directories 2 meta_1x1).1.2.*1 =
    ["mask"].
Proof.
  destruct (stitch_tiles_at_path_saves (λ tile _ _, tile) mask_only_directories 2 meta_1x1)
    as (_ & _ & Hnames & _).
  rewrite Hnames; reflexivity.
Defined.

Lemma sliced_tiles_load_back_witness :
  ∃ writes,
    slice_to_tiles array shape2 (λ image _ _, image) compute_tile_row_col_n
      pad_slice_image image_3x2 2 = Ok writes ∧
    load_tiles (λ tile _ _, tile) (directory_of writes) 2 =
      Ok [Some [[1; 2]; [3; 4]]%Z; Some [[5; 6]; [0; 0]]%Z].
Proof.
  destruct (slice_to_tiles array shape2 (λ image _ _, image) compute_tile_row_col_n
              pad_slice_image image_3x2 2) as [writes|e] eqn:Hrun.
  2:{ vm_compute in Hrun. discriminate Hrun. }
  exists writes. split; [reflexivity|].
  destruct (sliced_tiles_load_back shape2 (λ image _ _, image) compute_tile_row_col_n
              pad_slice_image (λ tile _ _, tile) image_3x2 2 2 writes Hrun)
    as (shrunk & Hshrunk & _ & Hload).
  vm_compute in Hshrunk. injection Hshrunk as <-.
  rewrite Hload. vm_compute. reflexivity.
Defined.

Lemma am_segm_sliced_tiles_load_back_witness :
  ∃ writes,
    am_segm_slice_image array shape2 (λ image _ _, image) compute_tile_row_col_n
      pad_slice_image image_3x2 = Ok writes ∧
    load_tiles (λ tile _ _, tile) (directory_of writes) 512 =
      Ok (Some <$> pad_slice_image image_3x2 512 (512, 512)%Z).
Proof.
  destruct (am_segm_slice_image array shape2 (λ image _ _, image) compute_tile_row_col_n
              pad_slice_image image_3x2) as [writes|e] eqn:Hrun.
  2:{ cbv -[pad_slice_image] in Hrun. discriminate Hrun. }
  exists writes. split; [reflexivity|].
  destruct (am_segm_sliced_tiles_load_back shape2 (λ image _ _, image)
              compute_tile_row_col_n pad_slice_image image_3x2 512 writes Hrun)
    as (shrunk & Hshrunk & _ & Hload).
  vm_compute in Hshrunk. injection Hshrunk as <-.
  exact Hload.
Defined.

Lemma rename_image_same_target_witness :
  (rename_image photo_png).2 = (rename_image scan_tif).2 ∧
  (rename_image photo_png).1 ≠ [] ∧ (rename_image scan_tif).1 ≠ [].
Proof.
  destruct (rename_image_same_target photo_png scan_tif) as (out & -> & ->).
  - reflexivity.
  - intros Hin. repeat (apply elem_of_cons in Hin as [Hin|Hin]; [discriminate Hin|]).
    by apply elem_of_nil in Hin.
  - intros Hin. repeat (apply elem_of_cons in Hin as [Hin|Hin]; [discriminate Hin|]).
    by apply elem_of_nil in Hin.
  - split; [reflexivity|]. split; discriminate.
Defined.

(** A group directory whose first image file is [mask.tiff]: the mask is
    what is saved as the source. *)
Example normalize_source_mask_first :
  normalize_source string (λ image _ _, image) id mask_first_listing 1 99 =
    [("source.tiff", "the mask")].
Proof. reflexivity. Qed.

End TilesMoreSpec.
